(** * Quiver-to-Obsidian: hierarchy walk, export planning, name collision
      resolution and link / resource rewriting

    A shallow embedding of [src/quiver/utils.ts], [src/quiver/quiver_parse.ts]
    (the hierarchy walker) and [src/quiver/index.ts] (class [Quiver]).

    Modelling conventions.
    - A JavaScript string is a [string]: a sequence of 8-bit code units
      (the Latin-1 range of UTF-16).  Template literals are [+:+].
    - A [number] holding an integer is a [Z]; [`${index}`] is [pretty index].
      This is exact from -2^53 on, up to the bound of the resolver (below
      it [index + 1] is rounded, and can be [index] again); the statement
      on the bound says so.
    - [throw new Error (...)] is the [Err] case of [result]; the two messages
      thrown by the planner are the two constructors of [error].
    - A [Record<string, T>] / [Set<string>] keyed by Quiver identifiers is a
      [gmap string T] / [gset string].  For a plain object this is exact on
      the keys that are not names of properties of [Object.prototype]
      (Quiver's identifiers are UUIDs); the statements on what the walk of
      the class does for every library exclude the others
      ([notebooksIsMap]).
    - [console.warn] appends to a list of messages carried in the state.
    - A regular expression is a value of [RegExp.regex], run by a backtracking
      matcher that follows the order of ECMAScript's matcher (leftmost match,
      ordered alternation, greedy / lazy quantifiers); [String.replace] with a
      global pattern is [RegExp.replace].  The configured extension names
      are spliced into [renameAwebpReg] as literal alternatives, which is
      what [new RegExp] makes of names of letters and digits
      ([plainExtNames]); the statements on the rules are about these.
    - [writeLibrary] and [writeNotebook] are the calls they start, in the
      order they are started: the directory handed to [prepareDirectory]
      and, for every note, the arguments of [writeNote].  What these calls
      do to the file system, and a failure of [prepareDirectory], are not
      part of the model.
    - The files that [copyResource] sees are a [gmap] from the paths that
      exist to their content: [fse.pathExists] is a lookup, [fse.copyFile]
      an insertion that fails when the source is missing.  The other
      failures of [fse.copyFile] (a name longer than the file system
      allows, a directory that cannot be written) are not part of the
      model: the statements are about the calls that return and about the
      collision error.  Paths are told apart as strings, and a call is
      taken on its own: no other call writes to the directory while it
      runs.  Its error and its warning are constructors that carry the
      names the messages are made of. *)

From Equations Require Import Equations.
From stdpp Require Import base option list gmap strings pretty.
From Stdlib Require Import Ascii ZArith Lia.

Local Open Scope Z_scope.
Set Warnings "-register-all".

(* ===================================================================== *)
(** * JavaScript strings *)
(* ===================================================================== *)

Module Str.
Definition code (c : ascii) : N := N_of_ascii c.

Definition between (lo hi : N) (c : ascii) : bool :=
  ((lo <=? code c) && (code c <=? hi))%N.

Fixpoint all (p : ascii → bool) (s : string) : bool :=
  match s with
  | "" => true
  | String c s' => p c && all p s'
  end.

Fixpoint any (p : ascii → bool) (s : string) : bool :=
  match s with
  | "" => false
  | String c s' => p c || any p s'
  end.

(** [isnt c x]: the character [x] is not [c]. *)
Definition isnt (c x : ascii) : bool := negb (Ascii.eqb x c).

Fixpoint take (n : nat) (s : string) : string :=
  match n, s with
  | S n', String c s' => String c (take n' s')
  | _, _ => ""
  end.

Fixpoint drop (n : nat) (s : string) : string :=
  match n, s with
  | S n', String _ s' => drop n' s'
  | _, _ => s
  end.

Fixpoint map (f : ascii → ascii) (s : string) : string :=
  match s with
  | "" => ""
  | String c s' => String (f c) (map f s')
  end.

(** WhiteSpace and LineTerminator code units ([\s], [trim]):
    TAB, LF, VT, FF, CR, SP, NBSP. *)
Definition isWhiteSpace (c : ascii) : bool :=
  between 9 13 c || (code c =? 32)%N || (code c =? 160)%N.

(** LineTerminator code units (LF, CR): what [.] does not match. *)
Definition isLineTerminator (c : ascii) : bool :=
  (code c =? 10)%N || (code c =? 13)%N.

Fixpoint trimStart (s : string) : string :=
  match s with
  | "" => ""
  | String c s' => if isWhiteSpace c then trimStart s' else s
  end.

Fixpoint trimEnd (s : string) : string :=
  match s with
  | "" => ""
  | String c s' =>
      match trimEnd s' with
      | "" => if isWhiteSpace c then "" else String c ""
      | t => String c t
      end
  end.

(** [s.trim()] *)
Definition trim (s : string) : string := trimEnd (trimStart s).

(** [s.split(sep)] for a one-character separator *)
Fixpoint split (sep : ascii) (s : string) : list string :=
  match s with
  | "" => [""]
  | String c s' =>
      if decide (c = sep) then "" :: split sep s'
      else match split sep s' with
           | x :: xs => String c x :: xs
           | [] => [String c ""]
           end
  end.

(** [l.join(sep)] *)
Fixpoint join (sep : string) (l : list string) : string :=
  match l with
  | [] => ""
  | [x] => x
  | x :: l' => x +:+ sep +:+ join sep l'
  end.
End Str.

(* ===================================================================== *)
(** * Node's [path] module (POSIX flavour) *)
(* ===================================================================== *)

Module path.
(** [normalizeString]: drop empty and [.] segments, resolve [..]. *)
Fixpoint normalizeSegments (allowAboveRoot : bool) (res : list string)
    (segs : list string) : list string :=
  match segs with
  | [] => res
  | seg :: segs' =>
      if decide (seg = "" ∨ seg = ".") then
        normalizeSegments allowAboveRoot res segs'
      else if decide (seg = "..") then
        match last res with
        | Some l =>
            if decide (l = "..") then
              normalizeSegments allowAboveRoot
                (if allowAboveRoot then res ++ [".."] else res) segs'
            else
              normalizeSegments allowAboveRoot (removelast res) segs'
        | None =>
            normalizeSegments allowAboveRoot
              (if allowAboveRoot then [".."] else []) segs'
        end
      else normalizeSegments allowAboveRoot (res ++ [seg]) segs'
  end.

Definition endsWithSlash (s : string) : bool :=
  match last (Str.split "/" s) with
  | Some "" => true
  | _ => false
  end.

(** [path.normalize(p)] *)
Definition normalize (p : string) : string :=
  match p with
  | "" => "."
  | String c _ =>
      let isAbsolute := bool_decide (c = "/"%char) in
      let trailingSeparator := endsWithSlash p in
      let body :=
        Str.join "/"
          (normalizeSegments (negb isAbsolute) [] (Str.split "/" p)) in
      match body with
      | "" => if isAbsolute then "/"
              else if trailingSeparator then "./" else "."
      | _ =>
          let body' := if trailingSeparator then body +:+ "/" else body in
          if isAbsolute then "/" +:+ body' else body'
      end
  end.

(** [path.join(...paths)] *)
Definition join (paths : list string) : string :=
  match filter (λ p, p ≠ "") paths with
  | [] => "."
  | ps => normalize (Str.join "/" ps)
  end.

(** [path.basename(p)]: the last non-empty segment. *)
Definition basename (p : string) : string :=
  default "" (last (filter (λ seg, seg ≠ "") (Str.split "/" p))).
End path.

(** [path.extname] and the two-argument [path.basename] ([path] is
    [path.posix] here). *)
Module posix.
(** The path without the [/] at its end. *)
Fixpoint dropTrailingSlashes (p : string) : string :=
  match p with
  | "" => ""
  | String c p' =>
      match dropTrailingSlashes p' with
      | "" => if decide (c = "/"%char) then "" else String c ""
      | t => String c t
      end
  end.

(** [s.endsWith(suffix)] *)
Definition endsWith (s suffix : string) : bool :=
  bool_decide (String.length suffix ≤ String.length s)%nat &&
  bool_decide (Str.drop (String.length s - String.length suffix) s = suffix).

(** [path.extname(p)]: from the last [.] of the last component to its end;
    empty when that component has no [.], when its only [.] is its first
    character, and for the component [..]. *)
Definition extname (p : string) : string :=
  let seg := path.basename p in
  match Str.split "." seg with
  | [] | [_] => ""
  | parts =>
      let base := Str.join "." (removelast parts) in
      if decide (base = "" ∨ seg = "..") then ""
      else "." +:+ default "" (last parts)
  end.

(** [path.basename(p, suffix)]: the last component without [suffix], when
    it ends with [suffix] and is longer; the last component as it is
    otherwise, followed by the [/] at the end of [p] when [suffix] ends with
    that component and is longer (the scan from the end of [p] reaches the
    separator before it has matched the whole of [suffix]). *)
Definition basename (p suffix : string) : string :=
  if decide (suffix = "" ∨ (String.length p < String.length suffix)%nat)
  then path.basename p
  else if decide (suffix = p) then ""
  else
    let seg := path.basename p in
    if endsWith suffix seg && negb (String.eqb seg suffix) then
      seg +:+ Str.drop (String.length (dropTrailingSlashes p)) p
    else if endsWith seg suffix && negb (String.eqb seg suffix) then
      Str.take (String.length seg - String.length suffix) seg
    else seg.
End posix.

(* ===================================================================== *)
(** * Errors *)
(* ===================================================================== *)

(** The two [Error]s the planner can throw:
    [there has two notes with uuid(...)] (index.ts) and
    [rename resource name failed: ...] (utils.ts). *)
Inductive error : Type :=
| DuplicateNoteUuid (uuid : string)
| RenameFailed (noteName : string).

Inductive result (A : Type) : Type :=
| Ok (a : A)
| Err (e : error).
Arguments Ok {A} a.
Arguments Err {A} e.

(** Sequencing of statements that may throw: [x ← m; k]. *)
Global Instance result_bind : MBind result := λ A B f m,
  match m with
  | Ok a => f a
  | Err e => Err e
  end.

(** [forEach] with a body that may throw, threading the state. *)
Fixpoint forEach {A S} (f : S → A → result S) (l : list A) (s : S) : result S :=
  match l with
  | [] => Ok s
  | x :: l' => s' ← f s x; forEach f l' s'
  end.

Definition is_Ok {A} (r : result A) : Prop := ∃ a, r = Ok a.

(* ===================================================================== *)
(** * utils.ts *)
(* ===================================================================== *)

(** Maximum number of rename attempts before giving up *)
Definition MAX_RENAME_COUNT : Z := 100.

(** [currentNames.indexOf(newName) > -1] *)
Definition includes (currentNames : list string) (name : string) : bool :=
  bool_decide (name ∈ currentNames).

(** [`${noteName} ${index}`] *)
Definition suffixed (noteName : string) (index : Z) : string :=
  noteName +:+ " " +:+ pretty index.

Equations? newDistinctNoteName (noteName : string) (currentNames : list string)
    (index : Z) : result string
    by wf (Z.to_nat (MAX_RENAME_COUNT + 1 - index)) lt :=
  newDistinctNoteName noteName currentNames index
    with decide (index > MAX_RENAME_COUNT) := {
    | left _ => Err (RenameFailed noteName)
    | right _ =>
        let newName := suffixed noteName index in
        if includes currentNames newName
        then newDistinctNoteName noteName currentNames (index + 1)
        else Ok newName }.
Proof. unfold MAX_RENAME_COUNT in *. lia. Qed.


(* ===================================================================== *)
(** * type.ts (the fields the planner and the rewriter read) *)
(* ===================================================================== *)

(** [QvLibraryMeta]: [{ uuid, children? }]; a missing [children] and an
    empty one are not told apart by any reader, both are [[]]. *)
Inductive QvLibraryMeta : Type :=
| Meta (uuid : string) (children : list QvLibraryMeta).

Definition meta_uuid (m : QvLibraryMeta) : string :=
  match m with Meta uuid _ => uuid end.
Definition meta_children (m : QvLibraryMeta) : list QvLibraryMeta :=
  match m with Meta _ children => children end.

Record QvNote : Type := mkNote {
  note_uuid : string;       (* note.meta.uuid *)
  note_title : string;      (* note.meta.title *)
}.

Record QvNotebook : Type := mkNotebook {
  nb_uuid : string;         (* notebook.meta.uuid *)
  nb_name : string;         (* notebook.meta.name *)
  nb_notes : list QvNote;   (* notebook.notes *)
}.

Record QvLibrary : Type := mkLibrary {
  lib_meta : QvLibraryMeta;
  lib_notebooks : list QvNotebook;
}.

(* ===================================================================== *)
(** * quiver_parse.ts: the hierarchy walker *)
(* ===================================================================== *)

Section Walker.
Context {S : Type}.
Variable callback : string → list string → S → result S.

(** [walkThroughNotebookHierarchty(libraryMeta, parents, callback)]:
    the callback first, then every child with [parents] extended. *)
Fixpoint walkThroughNotebookHierarchty (libraryMeta : QvLibraryMeta)
    (parents : list string) (s : S) : result S :=
  match libraryMeta with
  | Meta uuid children =>
      s1 ← callback uuid parents s;
      match children with
      | [] => Ok s1
      | _ =>
          let p := parents ++ [uuid] in
          (fix each (l : list QvLibraryMeta) (s : S) : result S :=
             match l with
             | [] => Ok s
             | meta :: l' =>
                 s' ← walkThroughNotebookHierarchty meta p s; each l' s'
             end) children s1
      end
  end.
End Walker.

(* ===================================================================== *)
(** * index.ts: class Quiver, planning *)
(* ===================================================================== *)

Record BrokenLink : Type := mkBrokenLink {
  sourceNoteTitle : string;
  sourceNoteId : string;
  targetNoteId : string;
}.

(** [normalizePath]: split on [/], trim every component, join again. *)
Definition normalizePath (pathName : string) : string :=
  Str.join "/" (Str.trim <$> Str.split "/" pathName).

(** [sanitizeNoteTitle]: [title.trim().replace(/\//g, '-')]. *)
Definition sanitizeNoteTitle (title : string) : string :=
  Str.map (λ c, if decide (c = "/"%char) then "-"%char else c) (Str.trim title).

(** [findInMeta] of [notebookHasChildren]: [None] is [null]. *)
Fixpoint findInMeta (uuid : string) (meta : QvLibraryMeta) : option bool :=
  match meta with
  | Meta u children =>
      if decide (u = uuid) then Some (bool_decide (children ≠ []))
      else
        (fix each (l : list QvLibraryMeta) : option bool :=
           match l with
           | [] => None
           | child :: l' =>
               match findInMeta uuid child with
               | Some result => Some result
               | None => each l'
               end
           end) children
  end.

Definition notebookHasChildren (library : QvLibrary) (uuid : string) : bool :=
  bool_decide (findInMeta uuid (lib_meta library) = Some true).

(** The [notebooks] record built at the start of the method
    [walkThroughNotebookHierarchty]: a later notebook with the same uuid
    overwrites an earlier one. *)
Definition notebooksByUuid (library : QvLibrary) : gmap string QvNotebook :=
  foldl (λ notebooks notebook, <[nb_uuid notebook := notebook]> notebooks)
        ∅ (lib_notebooks library).

(** The loop "Validate all parents exist": the notebooks of [parentNames],
    or the first name that has none. *)
Fixpoint parentNotebooksOf (notebooks : gmap string QvNotebook)
    (parentNames : list string) : string + list QvNotebook :=
  match parentNames with
  | [] => inr []
  | name :: names =>
      match notebooks !! name with
      | None => inl name
      | Some parent =>
          match parentNotebooksOf notebooks names with
          | inl missing => inl missing
          | inr parentNotebooks => inr (parent :: parentNotebooks)
          end
      end
  end.

Definition warnMissingNotebook (notebookName : string) : string :=
  "Warning: Notebook " +:+ notebookName +:+
  " referenced in meta.json but not found in filesystem. Skipping.".

Definition warnMissingParent (name notebookName : string) : string :=
  "Warning: Parent notebook " +:+ name +:+
  " not found in filesystem. Skipping notebook " +:+ notebookName +:+ ".".

Section QuiverWalk.
Context {S : Type}.
Variable library : QvLibrary.
Variable callback : QvNotebook → list QvNotebook → S → result S.

(** The arrow function handed to the walker; the state is the console
    (the warnings so far) and the caller's state. *)
Definition validatedCallback (notebookName : string)
    (parentNames : list string) (st : list string * S)
    : result (list string * S) :=
  let '(console, s) := st in
  match notebooksByUuid library !! notebookName with
  | None => Ok (console ++ [warnMissingNotebook notebookName], s)
  | Some notebook =>
      match parentNotebooksOf (notebooksByUuid library) parentNames with
      | inl name =>
          Ok (console ++ [warnMissingParent name notebookName], s)
      | inr parentNotebooks =>
          s' ← callback notebook parentNotebooks s; Ok (console, s')
      end
  end.

(** The private method [Quiver.walkThroughNotebookHierarchty(callback)]:
    every child of the root, with no parents. *)
Definition Quiver_walkThroughNotebookHierarchty
    (st : list string * S) : result (list string * S) :=
  forEach (λ st meta, walkThroughNotebookHierarchty validatedCallback meta [] st)
          (meta_children (lib_meta library)) st.
End QuiverWalk.

(** What one pass over [notebook.notes] keeps: the notebook-local
    [noteNames] and the library-wide [newNotePathRecord]. *)
Definition planNote (newPath : string)
    (st : list string * gmap string string) (note : QvNote)
    : result (list string * gmap string string) :=
  let '(noteNames, newNotePathRecord) := st in
  match newNotePathRecord !! note_uuid note with
  | Some (String _ _) => Err (DuplicateNoteUuid (note_uuid note))
  | _ =>
      let noteName := sanitizeNoteTitle (note_title note) in
      noteName ←
        (if includes noteNames noteName
         then newDistinctNoteName noteName noteNames 2
         else Ok noteName);
      Ok (noteNames ++ [noteName],
          <[note_uuid note := path.join [newPath; noteName +:+ ".md"]]>
            newNotePathRecord)
  end.

Definition planNotes (newPath : string) (notes : list QvNote)
    (newNotePathRecord : gmap string string)
    : result (list string * gmap string string) :=
  forEach (planNote newPath) notes ([], newNotePathRecord).

Record PlanState : Type := mkPlan {
  newNotePathRecord : gmap string string;
  notebooksInMeta : gset string;
}.

Section Planner.
Variable library : QvLibrary.
Variable outputQuiverPath : string.

(** The callback of the first walk in [transformQvLibraryToObsidian]. *)
Definition planWalkedNotebook (notebook : QvNotebook)
    (parents : list QvNotebook) (st : PlanState) : result PlanState :=
  let inMeta := {[nb_uuid notebook]} ∪ notebooksInMeta st in
  let hasNotes := bool_decide (nb_notes notebook ≠ []) in
  let hasChildren := notebookHasChildren library (nb_uuid notebook) in
  if negb hasNotes && negb hasChildren then
    Ok (mkPlan (newNotePathRecord st) inMeta)
  else
    let newPathList :=
      [outputQuiverPath] ++ (normalizePath ∘ nb_name <$> parents)
        ++ [normalizePath (nb_name notebook)] in
    let newPath := path.join newPathList in
    if hasNotes then
      r ← planNotes newPath (nb_notes notebook) (newNotePathRecord st);
      Ok (mkPlan r.2 inMeta)
    else Ok (mkPlan (newNotePathRecord st) inMeta).

(** The body of the loop over the notebooks that are not in meta. *)
Definition planOrphanNotebook (st : PlanState) (notebook : QvNotebook)
    : result PlanState :=
  if decide (nb_uuid notebook ∈ notebooksInMeta st) then Ok st
  else if decide (nb_notes notebook = []) then Ok st
  else
    let newPath :=
      path.join [outputQuiverPath; normalizePath (nb_name notebook)] in
    r ← planNotes newPath (nb_notes notebook) (newNotePathRecord st);
    Ok (mkPlan r.2 (notebooksInMeta st)).

(** [transformQvLibraryToObsidian] up to [writeLibrary]: the console and
    the plan, from a given record (empty on a fresh instance). *)
Definition planLibraryFrom (record0 : gmap string string)
    : result (list string * PlanState) :=
  '(console, st) ←
    Quiver_walkThroughNotebookHierarchty library planWalkedNotebook
      ([], mkPlan record0 ∅);
  st' ← forEach planOrphanNotebook (lib_notebooks library) st;
  Ok (console, st').
End Planner.

(** [transformQvLibraryToObsidian(outputPath)] on a fresh [Quiver], up to
    the call of [writeLibrary]: [outputQuiverPath] is
    [path.join(outputPath, 'quiver')].  The file-system check
    [checkOutputDirPath] is taken to pass. *)
Definition transformQvLibraryToObsidian (library : QvLibrary)
    (outputPath : string) : result (list string * PlanState) :=
  planLibraryFrom library (path.join [outputPath; "quiver"]) ∅.

(* ===================================================================== *)
(** * Regular expressions and [String.prototype.replace] *)
(* ===================================================================== *)

Module RegExp.
(** The constructs the patterns of index.ts use.  Quantifiers occur there
    on character classes only: [.*], [.*?], [[...]+], [[...]+?], [[...]{n}]
    ([c+] is [c] followed by [c*]). *)
Inductive regex : Type :=
| Lit (s : string)                          (* literal characters *)
| Class (p : ascii → bool)                  (* [.], [\s], [[...]] *)
| Seq (r1 r2 : regex)                       (* r1 r2 *)
| Alt (r1 r2 : regex)                       (* r1|r2 *)
| Star (greedy : bool) (p : ascii → bool)   (* c* (greedy), c*? (lazy) *)
| Repeat (n : nat) (p : ascii → bool)       (* c{n} *)
| Opt (r : regex)                           (* (r)? *)
| Group (n : nat) (r : regex)               (* the n-th capturing group *)
| Bol                                       (* ^ *)
| Eol.                                      (* $ *)

Infix "⋅" := Seq (at level 41, right associativity).

(** [(a|b|c)] over literal alternatives *)
Fixpoint alts (l : list string) : regex :=
  match l with
  | [] => Lit ""
  | [x] => Lit x
  | x :: l' => Alt (Lit x) (alts l')
  end.

(** Canonicalize of the [i] flag on the patterns' characters (ASCII). *)
Definition canon (ci : bool) (c : ascii) : ascii :=
  if ci && Str.between 97 122 c
  then ascii_of_N (Str.code c - 32) else c.

(** The input left after the literal [lit], if the input starts with it. *)
Fixpoint stripLit (ci : bool) (lit : string) (s : string) : option string :=
  match lit, s with
  | "", _ => Some s
  | String a lit', String c s' =>
      if decide (canon ci a = canon ci c) then stripLit ci lit' s' else None
  | String _ _, "" => None
  end.

(** Matcher state: the index reached, the input from there on, and the
    captures made so far. *)
Record mstate : Type := mkState {
  pos : nat;
  rest : string;
  caps : gmap nat string;
}.

Definition cont : Type := mstate → option mstate.

Fixpoint star (greedy : bool) (p : ascii → bool) (i : nat) (s : string)
    (c : gmap nat string) (k : cont) : option mstate :=
  match s with
  | "" => k (mkState i "" c)
  | String a s' =>
      if greedy then
        if p a then
          match star greedy p (S i) s' c k with
          | Some r => Some r
          | None => k (mkState i s c)
          end
        else k (mkState i s c)
      else
        match k (mkState i s c) with
        | Some r => Some r
        | None => if p a then star greedy p (S i) s' c k else None
        end
  end.

Fixpoint repeat (n : nat) (p : ascii → bool) (i : nat) (s : string)
    (c : gmap nat string) (k : cont) : option mstate :=
  match n with
  | O => k (mkState i s c)
  | S n' =>
      match s with
      | String a s' => if p a then repeat n' p (S i) s' c k else None
      | "" => None
      end
  end.

(** The backtracking matcher, in continuation-passing style: [k] is the
    rest of the pattern, and the first way to match that lets [k] succeed
    is the one taken. *)
Fixpoint run (ci : bool) (r : regex) (st : mstate) (k : cont)
    : option mstate :=
  match r with
  | Lit s =>
      match stripLit ci s (rest st) with
      | Some s' => k (mkState (pos st + String.length s) s' (caps st))
      | None => None
      end
  | Class p =>
      match rest st with
      | String a s' =>
          if p a then k (mkState (S (pos st)) s' (caps st)) else None
      | "" => None
      end
  | Seq r1 r2 => run ci r1 st (λ st1, run ci r2 st1 k)
  | Alt r1 r2 =>
      match run ci r1 st k with
      | Some res => Some res
      | None => run ci r2 st k
      end
  | Star greedy p => star greedy p (pos st) (rest st) (caps st) k
  | Repeat n p => repeat n p (pos st) (rest st) (caps st) k
  | Opt r =>
      match run ci r st
              (λ st1, if decide (pos st1 = pos st) then None else k st1) with
      | Some res => Some res
      | None => k st
      end
  | Group n r =>
      run ci r st
        (λ st1, k (mkState (pos st1) (rest st1)
                     (<[n := Str.take (pos st1 - pos st) (rest st)]>
                        (caps st1))))
  | Bol => if decide (pos st = O) then k st else None
  | Eol => match rest st with "" => k st | _ => None end
  end.

(** One attempt at index [i], where the input from [i] on is [s]. *)
Definition exec (ci : bool) (r : regex) (i : nat) (s : string)
    : option mstate :=
  run ci r (mkState i s ∅) Some.

(** What a replacer function is called with: the matched text and the
    captures ([None] is [undefined]). *)
Record matched : Type := mkMatched {
  m_text : string;
  m_caps : gmap nat string;
}.

Definition group (n : nat) (m : matched) : option string := m_caps m !! n.

Definition matchedAt (i : nat) (s : string) (st : mstate) : matched :=
  mkMatched (Str.take (pos st - i) s) (caps st).

(** [s.replace(r, f)] for a global [r], the replacer [f] threading a state
    (it is called once per match, left to right).  [i] is the index of
    [s] in the whole input and [skip] the number of characters of [s]
    that still belong to the previous match.  After an empty match the
    search resumes one character further. *)
Fixpoint replaceFrom {S} (ci : bool) (r : regex)
    (f : matched → S → string * S) (i skip : nat) (s : string) (st : S)
    : string * S :=
  match skip with
  | Datatypes.S skip' =>
      match s with
      | "" => ("", st)
      | String _ s' => replaceFrom ci r f (Datatypes.S i) skip' s' st
      end
  | O =>
      match exec ci r i s with
      | Some res =>
          let '(out, st1) := f (matchedAt i s res) st in
          match s with
          | "" => (out, st1)
          | String a s' =>
              let '(tail, st2) :=
                replaceFrom ci r f (Datatypes.S i) (pos res - i - 1) s' st1 in
              (out +:+ (if decide (pos res = i) then String a tail else tail),
               st2)
          end
      | None =>
          match s with
          | "" => ("", st)
          | String a s' =>
              let '(tail, st1) := replaceFrom ci r f (Datatypes.S i) 0 s' st in
              (String a tail, st1)
          end
      end
  end.

Definition replaceWith {S} (ci : bool) (r : regex)
    (f : matched → S → string * S) (s : string) (st : S) : string * S :=
  replaceFrom ci r f 0 0 s st.

(** [s.replace(r, f)] with a replacer that has no effect. *)
Definition replace (ci : bool) (r : regex) (f : matched → string)
    (s : string) : string :=
  (replaceWith ci r (λ m (_ : unit), (f m, tt)) s tt).1.

(** Character classes *)
Definition dot (c : ascii) : bool := negb (Str.isLineTerminator c).
Definition space (c : ascii) : bool := Str.isWhiteSpace c.
Definition digit (c : ascii) : bool := Str.between 48 57 c.
Definition upper (c : ascii) : bool := Str.between 65 90 c.
Definition lower (c : ascii) : bool := Str.between 97 122 c.
Definition oneOf (set : string) (c : ascii) : bool :=
  negb (Str.all (λ x, negb (bool_decide (x = c))) set).
End RegExp.
Import RegExp.

(* ===================================================================== *)
(** * index.ts: class Quiver, resource names and links *)
(* ===================================================================== *)

(** The extension alternatives of [clearSuffixReg], in the order written. *)
Definition imageExtNames : list string :=
  ["bmp"; "jpg"; "png"; "tif"; "gif"; "pcx"; "tga"; "exif"; "fpx"; "svg";
   "psd"; "cdr"; "pcd"; "dxf"; "ufo"; "eps"; "ai"; "raw"; "WMF"; "webp";
   "jpeg"; "ico"; "awebp"].

(** [[0-9A-Z]], [[a-zA-Z0-9]], [[0-9A-F]], [[^)\s?#]] *)
Definition digitOrUpper (c : ascii) : bool := digit c || upper c.
Definition alphanumeric (c : ascii) : bool := lower c || upper c || digit c.
Definition upperHex (c : ascii) : bool := digit c || Str.between 65 70 c.
Definition resourceNameChar (c : ascii) : bool :=
  negb (oneOf ")?#" c || space c).

Section ResourceName.
(** [this.needReplaceExtNames], [[]] when it is undefined.  The names are
    spliced into a pattern as alternatives: they are taken to be plain
    letters and digits. *)
Variable needReplaceExtNames : list string.
Variable isForFile : bool.

Definition resourceTag : string := if isForFile then "" else "_resources/".
Definition prefix : regex := if isForFile then Bol else Lit "(".
Definition suffix : regex := if isForFile then Eol else Lit ")".

(** [`${prefix}(${resourceTag}.*?\.(bmp|...|awebp))(\s|&|\?).*${suffix}`],
    flags [gi] *)
Definition clearSuffixReg : regex :=
  prefix
  ⋅ Group 1 (Lit resourceTag ⋅ Star false dot ⋅ Lit "."
             ⋅ Group 2 (alts imageExtNames))
  ⋅ Group 3 (Alt (Class space) (Alt (Lit "&") (Lit "?")))
  ⋅ Star true dot ⋅ suffix.

(** [`${prefix}(${resourceTag}.*?)\.(${replaceExt})${suffix}`], flags [gi] *)
Definition renameAwebpReg : regex :=
  prefix
  ⋅ Group 1 (Lit resourceTag ⋅ Star false dot)
  ⋅ Lit "." ⋅ Group 2 (alts needReplaceExtNames) ⋅ suffix.

(** [`${prefix}(${resourceTag}[0-9A-Z]{32})${suffix}`], flag [g] *)
Definition addDefaultExtReg : regex :=
  prefix ⋅ Group 1 (Lit resourceTag ⋅ Repeat 32 digitOrUpper) ⋅ suffix.

Definition group1 (m : matched) : string := default "" (group 1 m).

Definition replaceResourceName (data : string) : string :=
  let transformData :=
    replace true clearSuffixReg
      (λ m, if isForFile then group1 m else "(" +:+ group1 m +:+ ")") data in
  let transformData :=
    match needReplaceExtNames with
    | [] => transformData
    | _ =>
        replace true renameAwebpReg
          (λ m, if isForFile then group1 m +:+ ".png"
                else "(" +:+ group1 m +:+ ".png)") transformData
    end in
  replace false addDefaultExtReg
    (λ m, if isForFile then group1 m +:+ ".png"
          else "(" +:+ group1 m +:+ ".png)") transformData.
End ResourceName.

(** [/_resources\/([^)\s?#]+?)(\.[a-zA-Z0-9]+)?(\)|\\|\s|\?|#|$)/g] *)
Definition resourceLinkReg : regex :=
  Lit "_resources/"
  ⋅ Group 1 (Class resourceNameChar ⋅ Star false resourceNameChar)
  ⋅ Opt (Group 2 (Lit "." ⋅ Class alphanumeric ⋅ Star true alphanumeric))
  ⋅ Group 3 (Alt (Lit ")") (Alt (Lit "\") (Alt (Class space)
              (Alt (Lit "?") (Alt (Lit "#") Eol))))).

(** The replacer of [resourceLinkReg]. *)
Definition resourceLinkReplacer (currentNoteResourceMap : gmap string string)
    (m : matched) : string :=
  let baseName := default "" (group 1 m) in
  let extension := default "" (group 2 m) in
  let suffix := default "" (group 3 m) in
  let originalFileName := baseName +:+ extension in
  match currentNoteResourceMap !! originalFileName with
  | Some finalFileName => "_resources/" +:+ finalFileName +:+ suffix
  | None =>
      let withPng := originalFileName +:+ ".png" in
      match currentNoteResourceMap !! withPng with
      | Some finalFileName => "_resources/" +:+ finalFileName +:+ suffix
      | None => m_text m
      end
  end.

(** [[0-9A-F]{8}-[0-9A-F]{4}-[0-9A-F]{4}-[0-9A-F]{4}-[0-9A-F]{12}] *)
Definition uuidReg : regex :=
  Repeat 8 upperHex ⋅ Lit "-" ⋅ Repeat 4 upperHex ⋅ Lit "-"
  ⋅ Repeat 4 upperHex ⋅ Lit "-" ⋅ Repeat 4 upperHex ⋅ Lit "-"
  ⋅ Repeat 12 upperHex.

(** [/\[.*?\]\((quiver-note-url|quiver:\/\/\/notes)\/(<uuid>)\)/g] *)
Definition noteLinkReg : regex :=
  Lit "[" ⋅ Star false dot ⋅ Lit "]("
  ⋅ Group 1 (Alt (Lit "quiver-note-url") (Lit "quiver:///notes"))
  ⋅ Lit "/" ⋅ Group 2 uuidReg ⋅ Lit ")".

(** The replacer of [noteLinkReg]; the state is [this.brokenLinks]. *)
Definition noteLinkReplacer (newNotePathRecord : gmap string string)
    (note : QvNote) (m : matched) (brokenLinks : list BrokenLink)
    : string * list BrokenLink :=
  let uuid := default "" (group 2 m) in
  match newNotePathRecord !! uuid with
  | Some (String c p as linkNotePath) =>
      let linkNoteName := path.basename linkNotePath in
      (" [[" +:+ linkNoteName +:+ "]]", brokenLinks)
  | _ =>
      (" [[" +:+ uuid +:+ "]]",
       brokenLinks ++ [mkBrokenLink (note_title note) (note_uuid note) uuid])
  end.

(** The last statement of [transformQuiverResourceAndNoteLink]:
    "Replace note links to Obsidian [[wikilinks]]". *)
Definition replaceNoteLinks (newNotePathRecord : gmap string string)
    (note : QvNote) (transformData : string) (brokenLinks : list BrokenLink)
    : string * list BrokenLink :=
  replaceWith false noteLinkReg (noteLinkReplacer newNotePathRecord note)
    transformData brokenLinks.

Definition transformQuiverResourceAndNoteLink
    (needReplaceExtNames : list string)
    (currentNoteResourceMap newNotePathRecord : gmap string string)
    (data : string) (note : QvNote) (brokenLinks : list BrokenLink)
    : string * list BrokenLink :=
  let transformData :=
    replace false (Lit "quiver-image-url/") (λ _, "_resources/") data in
  let transformData :=
    replace false (Lit "quiver-file-url/") (λ _, "_resources/") transformData in
  let transformData :=
    replaceResourceName needReplaceExtNames false transformData in
  let transformData :=
    replace false resourceLinkReg
      (resourceLinkReplacer currentNoteResourceMap) transformData in
  replaceNoteLinks newNotePathRecord note transformData brokenLinks.

(* ===================================================================== *)
(** * index.ts: class Quiver, writing *)
(* ===================================================================== *)

(** [this.noteCount = Object.keys(this.newNotePathRecord).length] *)
Definition noteCount (st : PlanState) : nat := size (newNotePathRecord st).

(** An element of [notebookInfoList]: [{ notebook, notebookPath }]. *)
Record NotebookInfo : Type := mkNotebookInfo {
  info_notebook : QvNotebook;
  info_notebookPath : string;
}.

Section Writer.
Variable library : QvLibrary.
Variable outputQuiverPath : string.

(** The callback of the walk in [writeLibrary]; the state is
    [notebookInfoList] and the local [notebooksInMeta]. *)
Definition listWalkedNotebook (notebook : QvNotebook)
    (parents : list QvNotebook) (st : list NotebookInfo * gset string)
    : result (list NotebookInfo * gset string) :=
  let '(notebookInfoList, inMeta0) := st in
  let inMeta := {[nb_uuid notebook]} ∪ inMeta0 in
  let hasNotes := bool_decide (nb_notes notebook ≠ []) in
  let hasChildren := notebookHasChildren library (nb_uuid notebook) in
  if negb hasNotes && negb hasChildren then Ok (notebookInfoList, inMeta)
  else
    let newPathList :=
      [outputQuiverPath] ++ (normalizePath ∘ nb_name <$> parents)
        ++ [normalizePath (nb_name notebook)] in
    let newNotebookPath := path.join newPathList in
    if hasNotes
    then Ok (notebookInfoList ++ [mkNotebookInfo notebook newNotebookPath],
             inMeta)
    else Ok (notebookInfoList, inMeta).

(** The body of the loop "Add notebooks not in meta". *)
Definition listOrphanNotebook (st : list NotebookInfo * gset string)
    (notebook : QvNotebook) : result (list NotebookInfo * gset string) :=
  let '(notebookInfoList, inMeta) := st in
  if decide (nb_uuid notebook ∈ inMeta) then Ok st
  else if decide (nb_notes notebook = []) then Ok st
  else
    let newNotebookPath :=
      path.join [outputQuiverPath; normalizePath (nb_name notebook)] in
    Ok (notebookInfoList ++ [mkNotebookInfo notebook newNotebookPath], inMeta).

(** [writeNotebook(notebook, newNotebookPath)]: the directory handed to
    [prepareDirectory], and the calls of [writeNote] in the order they are
    started, each with the note and the path looked up in the record
    ([None] is [undefined]). *)
Definition writeNotebook (newNotePathRecord : gmap string string)
    (info : NotebookInfo) : string * list (QvNote * option string) :=
  (info_notebookPath info,
   (λ note, (note, newNotePathRecord !! note_uuid note))
     <$> nb_notes (info_notebook info)).

(** [writeLibrary()]: the console, and the calls of [writeNotebook] in the
    order they are started. *)
Definition writeLibrary (newNotePathRecord : gmap string string)
    : result (list string * list (string * list (QvNote * option string))) :=
  '(console, st) ←
    Quiver_walkThroughNotebookHierarchty library listWalkedNotebook
      ([], ([], ∅));
  '(notebookInfoList, _) ←
    forEach listOrphanNotebook (lib_notebooks library) st;
  Ok (console,
      writeNotebook newNotePathRecord <$> (notebookInfoList : list NotebookInfo)).
End Writer.

(** The files of the output directory seen by one call: the paths that
    exist, each with its content. *)
Definition files : Type := gmap string string.

(** What [copyResource] can throw: [Too many resource name collisions
    for: ...], and the failure of [fse.copyFile] on a missing source. *)
Inductive copyError : Type :=
| TooManyCollisions (originalName : string)
| NoSuchFile (srcPath : string).

(** The warning [Resource name collision: originalName -> fileName]. *)
Inductive copyWarning : Type :=
| ResourceNameCollision (originalName fileName : string).

(** The renaming of the loop body:
    [`${base}_${counter}${ext}`] with [ext = path.extname(fileName)] and
    [base = path.basename(fileName, ext)]. *)
Definition renamed (fileName : string) (counter : Z) : string :=
  let ext := posix.extname fileName in
  let base := posix.basename fileName ext in
  base +:+ "_" +:+ pretty counter +:+ ext.

(** [fse.pathExists(p)] *)
Definition pathExists (fs : files) (p : string) : bool :=
  bool_decide (is_Some (fs !! p)).

Section CopyResource.
Variable needReplaceExtNames : list string.
Variable fs : files.
Variable originalName resourceDirPath : string.

(** The loop "Handle name collision within this directory", from its test
    on: the file name it ends with and the counter then. *)
Equations? renameLoop (fileName : string) (counter : Z) : copyError + string * Z
    by wf (Z.to_nat (101 - counter)) lt :=
  renameLoop fileName counter
    with pathExists fs (path.join [resourceDirPath; fileName]) := {
    | false => inr (fileName, counter)
    | true with decide (counter + 1 > 100) := {
        | left _ => inl (TooManyCollisions originalName)
        | right _ => renameLoop (renamed fileName counter) (counter + 1) } }.
Proof. lia. Qed.

(** [copyResource(srcPath, originalName, resourceDirPath)]: the final file
    name, the files after the copy, and what was printed. *)
Definition copyResource (srcPath : string)
    : copyError + string * files * list copyWarning :=
  let fileName := replaceResourceName needReplaceExtNames true originalName in
  match renameLoop fileName 1 with
  | inl e => inl e
  | inr (fileName, counter) =>
      let finalPath := path.join [resourceDirPath; fileName] in
      match fs !! srcPath with
      | None => inl (NoSuchFile srcPath)
      | Some content =>
          inr (fileName, <[finalPath := content]> fs,
               if decide (counter > 1)
               then [ResourceNameCollision originalName fileName] else [])
      end
  end.
End CopyResource.

(* ===================================================================== *)
(** * Vocabulary of the statements *)
(* ===================================================================== *)

(** The declared nodes under [libraryMeta] in pre-order, each with its
    chain of ancestors (root first). *)
Fixpoint visits (libraryMeta : QvLibraryMeta) (parents : list string)
    : list (string * list string) :=
  match libraryMeta with
  | Meta uuid children =>
      (uuid, parents) ::
      (fix each (l : list QvLibraryMeta) : list (string * list string) :=
         match l with
         | [] => []
         | meta :: l' => visits meta (parents ++ [uuid]) ++ each l'
         end) children
  end.

(** A node whose id already appears in its own ancestor chain. *)
Definition hasCycle (libraryMeta : QvLibraryMeta) : Prop :=
  ∃ uuid parents, (uuid, parents) ∈ visits libraryMeta [] ∧ uuid ∈ parents.

(** A callback that only records what it is called with. *)
Definition recordVisit (uuid : string) (parents : list string)
    (log : list (string * list string)) : result (list (string * list string)) :=
  Ok (log ++ [(uuid, parents)]).

(** A callback that always throws. *)
Definition throwingCallback {S} (_ : QvNotebook) (_ : list QvNotebook)
    (_ : S) : result S :=
  Err (RenameFailed "callback").

(** All notes of the notebooks found on disk. *)
Definition libraryNotes (library : QvLibrary) : list QvNote :=
  mjoin (nb_notes <$> lib_notebooks library).

(** The name the j-th note (from 0) with the sanitized title [t] gets when
    no other note of the notebook interferes: [t], ["t 2"], ["t 3"], ... *)
Definition nthName (t : string) (j : nat) : string :=
  match j with
  | O => t
  | Datatypes.S _ => suffixed t (Z.of_nat j + 1)
  end.

Definition hasTitle (t : string) (note : QvNote) : bool :=
  bool_decide (sanitizeNoteTitle (note_title note) = t).

Definition countTitle (t : string) (notes : list QvNote) : nat :=
  length (filter (λ note, hasTitle t note = true) notes).

(** How the name of a note is chosen from its sanitized title [t], given the
    names [previous] already assigned in the notebook. *)
Definition chosenName (previous : list string) (t name : string) : Prop :=
  if includes previous t
  then newDistinctNoteName t previous 2 = Ok name
  else name = t.

(** Extension names made of letters and digits, as [--ext-names] expects:
    the names for which splicing them into a pattern gives the literal
    alternatives of [renameAwebpReg]. *)
Definition plainExtNames (extNames : list string) : Prop :=
  Forall (λ name, Str.all alphanumeric name = true) extNames.

(** The patterns without [^]: their matches do not depend on the index at
    which they are tried. *)
Fixpoint noBol (r : regex) : bool :=
  match r with
  | Bol => false
  | Seq r1 r2 | Alt r1 r2 => noBol r1 && noBol r2
  | Opt r | Group _ r => noBol r
  | _ => true
  end.

(** The state [st], seen from an input that has [d] more characters in
    front. *)
Definition shift (d : nat) (st : mstate) : mstate :=
  mkState (pos st + d) (rest st) (caps st).

(** A 36-character hyphenated uppercase-hexadecimal UUID. *)
Definition isUuid (uuid : string) : Prop :=
  ∃ a b c d e,
    uuid = a +:+ "-" +:+ b +:+ "-" +:+ c +:+ "-" +:+ d +:+ "-" +:+ e ∧
    (String.length a = 8 ∧ String.length b = 4 ∧ String.length c = 4 ∧
     String.length d = 4 ∧ String.length e = 12)%nat ∧
    Str.all upperHex a = true ∧ Str.all upperHex b = true ∧
    Str.all upperHex c = true ∧ Str.all upperHex d = true ∧
    Str.all upperHex e = true.

(** The two recognized URL schemes of a note link. *)
Definition isNoteScheme (scheme : string) : Prop :=
  scheme = "quiver-note-url" ∨ scheme = "quiver:///notes".

(** The text of a note link. *)
Definition linkText (label scheme uuid : string) : string :=
  "[" +:+ label +:+ "](" +:+ scheme +:+ "/" +:+ uuid +:+ ")".

(** What a note link to [uuid] is rewritten to: the wikilink and the
    broken-link list after it. *)
Definition linkTarget (newNotePathRecord : gmap string string)
    (uuid : string) : string :=
  match newNotePathRecord !! uuid with
  | Some (String c p) => path.basename (String c p)
  | _ => uuid
  end.

Definition linkBroken (newNotePathRecord : gmap string string)
    (note : QvNote) (uuid : string) : list BrokenLink :=
  match newNotePathRecord !! uuid with
  | Some (String c p) => []
  | _ => [mkBrokenLink (note_title note) (note_uuid note) uuid]
  end.

(** ** The text of a cell *)


(** [s] is made of whole lines: it is empty or ends with a line
    terminator. *)
Fixpoint wholeLines (s : string) : bool :=
  match s with
  | "" => true
  | String x s' =>
      match s' with
      | "" => Str.isLineTerminator x
      | String _ _ => wholeLines s'
      end
  end.

(** The text handed to the last step of
    [transformQuiverResourceAndNoteLink], "Replace note links": the cell
    text after the four steps on resources. *)
Definition rewriteResources (needReplaceExtNames : list string)
    (currentNoteResourceMap : gmap string string) (data : string) : string :=
  replace false resourceLinkReg (resourceLinkReplacer currentNoteResourceMap)
    (replaceResourceName needReplaceExtNames false
       (replace false (Lit "quiver-file-url/") (λ _, "_resources/")
          (replace false (Lit "quiver-image-url/") (λ _, "_resources/") data))).

(** The pattern of the note links after its [\[.*?]:
    [\]\((quiver-note-url|quiver:\/\/\/notes)\/(<uuid>)\)]. *)
Definition linkEndReg : regex :=
  Lit "](" ⋅ Group 1 (Alt (Lit "quiver-note-url") (Lit "quiver:///notes"))
  ⋅ Lit "/" ⋅ Group 2 uuidReg ⋅ Lit ")".

(** The pattern matches at no place of [s]. *)
Fixpoint matchesNowhere (ci : bool) (r : regex) (s : string) : bool :=
  match exec ci r 0 s with
  | Some _ => false
  | None =>
      match s with
      | "" => true
      | String _ s' => matchesNowhere ci r s'
      end
  end.

(** ** Example notebooks *)

Definition notesSameTitle : list QvNote :=
  [mkNote "1" "a"; mkNote "2" " a "; mkNote "3" "a"].

Definition notesGap : list QvNote :=
  [mkNote "1" "a"; mkNote "2" "a 2"; mkNote "3" "a"].

Definition notesTaken : list QvNote :=
  [mkNote "1" "b"; mkNote "2" "b"; mkNote "3" "b 2"; mkNote "4" "b 2"].

(** ** Example libraries *)

(** Two notebooks, one in the hierarchy and one outside, that both hold a
    note with the uuid N1. *)
Definition libShared : QvLibrary :=
  mkLibrary (Meta "root" [Meta "A" []])
    [mkNotebook "A" "Work" [mkNote "N1" "one"];
     mkNotebook "B" "Inbox" [mkNote "N1" "copy"]].

(** Two notebook directories whose meta.json give the same uuid X; the
    first holds the uuid N twice. *)
Definition libShadowed : QvLibrary :=
  mkLibrary (Meta "root" [Meta "X" []])
    [mkNotebook "X" "First" [mkNote "N" "a"; mkNote "N" "b"];
     mkNotebook "X" "Second" []].

(** One notebook with 101 notes titled t (uuids 0 .. 100) followed by a
    second note with the uuid 0. *)
Definition libCrowded : QvLibrary :=
  mkLibrary (Meta "root" [])
    [mkNotebook "A" "Crowd"
       (((λ i : nat, mkNote (pretty i) "t") <$> seq 0 101) ++ [mkNote "0" "t"])].

(** The hierarchy declares M with the child D; only D is on disk. *)
Definition libMissingParent : QvLibrary :=
  mkLibrary (Meta "root" [Meta "M" [Meta "D" []]])
    [mkNotebook "D" "Drafts" [mkNote "n1" "t"]].

(** One notebook in the hierarchy, holding a note titled Title and a note
    that links to it and to a note that does not exist. *)
Definition libLinked : QvLibrary :=
  mkLibrary (Meta "root" [Meta "A" []])
    [mkNotebook "A" "Work"
       [mkNote "D2A1CC36-CC97-4701-A895-EFC98EF47026" "Title";
        mkNote "0B5FDF0E-1FA0-4E6C-9C2C-3B5D1A0E8F11" "Index"]].

Definition cellLinked : string :=
  "see [the note](quiver-note-url/D2A1CC36-CC97-4701-A895-EFC98EF47026) and [gone](quiver:///notes/FFFFFFFF-0000-4000-8000-000000000000).".

(** ** The hierarchy and the walk of the class *)

(** The nodes of the declared tree in pre-order, the root first. *)
Fixpoint nodes (libraryMeta : QvLibraryMeta) : list QvLibraryMeta :=
  match libraryMeta with
  | Meta uuid children =>
      libraryMeta ::
      (fix each (l : list QvLibraryMeta) : list QvLibraryMeta :=
         match l with
         | [] => []
         | meta :: l' => nodes meta ++ each l'
         end) children
  end.

(** The first node of a list with the uuid. *)
Definition firstWith (uuid : string) (l : list QvLibraryMeta)
    : option QvLibraryMeta :=
  snd <$> list_find (λ node, meta_uuid node = uuid) l.

(** The first node with the uuid, in pre-order. *)
Definition firstNode (uuid : string) (libraryMeta : QvLibraryMeta)
    : option QvLibraryMeta :=
  firstWith uuid (nodes libraryMeta).

(** The declared nodes below the root, in pre-order, each with the uuids of
    its ancestors below the root. *)
Definition declared (library : QvLibrary) : list (string * list string) :=
  mjoin ((λ meta, visits meta []) <$> meta_children (lib_meta library)).

(** The notebooks found on disk for a declared node and for its ancestors,
    when all of them are found. *)
Definition resolve (library : QvLibrary) (v : string * list string)
    : option (QvNotebook * list QvNotebook) :=
  match notebooksByUuid library !! v.1 with
  | None => None
  | Some notebook =>
      match parentNotebooksOf (notebooksByUuid library) v.2 with
      | inl _ => None
      | inr parentNotebooks => Some (notebook, parentNotebooks)
      end
  end.

(** The warning printed for a declared node, when one is. *)
Definition warningOf (library : QvLibrary) (v : string * list string)
    : option string :=
  match notebooksByUuid library !! v.1 with
  | None => Some (warnMissingNotebook v.1)
  | Some _ =>
      match parentNotebooksOf (notebooksByUuid library) v.2 with
      | inl name => Some (warnMissingParent name v.1)
      | inr _ => None
      end
  end.

(** What the callback of the walk is called with, in order. *)
Definition walked (library : QvLibrary) : list (QvNotebook * list QvNotebook) :=
  omap (resolve library) (declared library).

(** What the walk prints, in order. *)
Definition walkWarnings (library : QvLibrary) : list string :=
  omap (warningOf library) (declared library).

(** The names of the properties of [Object.prototype], which a plain object
    inherits. *)
Definition objectPrototypeNames : list string :=
  ["constructor"; "__defineGetter__"; "__defineSetter__"; "hasOwnProperty";
   "__lookupGetter__"; "__lookupSetter__"; "isPrototypeOf";
   "propertyIsEnumerable"; "toString"; "valueOf"; "__proto__";
   "toLocaleString"].

(** The [notebooks] object of the walk of the class is a map on the ids it
    is asked for: no notebook has the uuid [__proto__] (assigning to that
    key sets the prototype), and a declared id that names a property of
    [Object.prototype] is the uuid of a notebook on disk (an own property
    hides the inherited one). *)
Definition notebooksIsMap (library : QvLibrary) : Prop :=
  ("__proto__" ∉ (nb_uuid <$> lib_notebooks library)) ∧
  Forall (λ v : string * list string,
            v.1 ∈ objectPrototypeNames →
            v.1 ∈ (nb_uuid <$> lib_notebooks library)) (declared library).

(** ** Names of notes and of resource files *)

(** The names the planner can give to a note: its sanitized title, or that
    title followed by a space and a number from 2 to 100. *)
Definition nameOf (note : QvNote) (name : string) : Prop :=
  name = sanitizeNoteTitle (note_title note) ∨
  ∃ n, 2 ≤ n ≤ 100 ∧
       name = sanitizeNoteTitle (note_title note) +:+ " " +:+ pretty n.

(** The characters that can follow the extension in rule 1:
    [(\s|&|\?)]. *)
Definition urlArgStart (c : ascii) : bool :=
  space c || bool_decide (c = "&"%char) || bool_decide (c = "?"%char).

(** The file names the loop tries, in order: the name after the file-mode
    rules, then each one renamed with the counter at that time. *)
Fixpoint candidate (fileName : string) (k : nat) : string :=
  match k with
  | O => fileName
  | S k' => renamed (candidate fileName k') (Z.of_nat k)
  end.

(** The counters the k-th candidate carries: [_1_2 ... _k]. *)
Fixpoint counters (k : nat) : string :=
  match k with
  | O => ""
  | S k' => counters k' +:+ "_" +:+ pretty (Z.of_nat k)
  end.

(** ** The text around a resource reference *)

(** The characters the text before a reference is made of: all but [q],
    [(] and [_], so that no pattern but the one of the note links starts
    there. *)
Definition textBefore (c : ascii) : bool :=
  Str.isnt "q" c && Str.isnt "(" c && Str.isnt "_" c.

(** The characters the text after a reference is made of: all but [(], [_],
    [.] and [/]. *)
Definition textAfter (c : ascii) : bool :=
  Str.isnt "(" c && Str.isnt "_" c && Str.isnt "." c && Str.isnt "/" c.

(* ===================================================================== *)
(** * The collision resolver *)
(* ===================================================================== *)

Example newDistinctNoteName_ex1 :
  newDistinctNoteName "a" ["a"; "a 2"; "b"] 2 = Ok "a 3".
Proof. reflexivity. Qed.

Example newDistinctNoteName_ex2 :
  newDistinctNoteName "a" [] 101 = Err (RenameFailed "a").
Proof. reflexivity. Qed.

Lemma includes_true currentNames name :
  includes currentNames name = true ↔ name ∈ currentNames.
Proof. unfold includes. apply bool_decide_eq_true. Qed.

Lemma includes_false currentNames name :
  includes currentNames name = false ↔ name ∉ currentNames.
Proof. unfold includes. apply bool_decide_eq_false. Qed.

Lemma includes_ext l l' name :
  (∀ x, x ∈ l ↔ x ∈ l') → includes l name = includes l' name.
Proof.
  intros H. unfold includes. apply bool_decide_ext, H.
Qed.

Lemma suffixed_inj noteName : Inj (=) (=) (suffixed noteName).
Proof.
  intros i j H. unfold suffixed in H.
  apply (inj (String.app noteName)) in H.
  apply (inj (String.app " ")) in H.
  by apply (inj pretty) in H.
Qed.

(** The unfolding of the resolver at an index within the bound. *)
Lemma newDistinctNoteName_step noteName currentNames index :
  index ≤ MAX_RENAME_COUNT →
  newDistinctNoteName noteName currentNames index =
    if includes currentNames (suffixed noteName index)
    then newDistinctNoteName noteName currentNames (index + 1)
    else Ok (suffixed noteName index).
Proof.
  intros Hle. rewrite newDistinctNoteName_equation_1.
  destruct (decide (index > MAX_RENAME_COUNT)) as [Hgt|Hngt]; [lia|done].
Qed.

Lemma newDistinctNoteName_over noteName currentNames index :
  index > MAX_RENAME_COUNT →
  newDistinctNoteName noteName currentNames index = Err (RenameFailed noteName).
Proof.
  intros Hgt. rewrite newDistinctNoteName_equation_1.
  by destruct (decide (index > MAX_RENAME_COUNT)).
Qed.

(** Induction on the distance of [index] to the bound. *)
Lemma bound_ind (P : Z → Prop) :
  (∀ i, i > MAX_RENAME_COUNT → P i) →
  (∀ i, i ≤ MAX_RENAME_COUNT → P (i + 1) → P i) →
  ∀ i, P i.
Proof.
  intros Hover Hstep i.
  remember (Z.to_nat (MAX_RENAME_COUNT + 1 - i)) as d eqn:Hd.
  revert i Hd. induction d as [|d IH]; intros i Hd.
  - apply Hover. lia.
  - apply Hstep; [lia|]. apply IH. lia.
Qed.

Lemma newDistinctNoteName_fresh noteName currentNames index name :
  newDistinctNoteName noteName currentNames index = Ok name →
  name ∉ currentNames.
Proof.
  revert name. pattern index. apply bound_ind; clear index.
  all: [> intros i Hi name | intros i Hi IH name].
  - rewrite newDistinctNoteName_over by done. discriminate.
  - rewrite newDistinctNoteName_step by done.
    destruct (includes currentNames (suffixed noteName i)) eqn:Hin.
    + apply IH.
    + intros [= <-]. by apply includes_false.
Qed.

Lemma newDistinctNoteName_ext noteName l l' index :
  (∀ x, x ∈ l ↔ x ∈ l') →
  newDistinctNoteName noteName l index = newDistinctNoteName noteName l' index.
Proof.
  intros Hl. pattern index. apply bound_ind; clear index.
  all: [> intros i Hi | intros i Hi IH].
  - by rewrite !newDistinctNoteName_over.
  - rewrite (newDistinctNoteName_step _ l i), (newDistinctNoteName_step _ l' i)
      by done.
    by rewrite (includes_ext _ _ _ Hl), IH.
Qed.

(** The resolver returns the first free ["noteName n"] from [index] up to the
    bound, and throws when there is none. *)
Lemma newDistinctNoteName_spec noteName currentNames index :
  (∃ n, (index ≤ n ≤ MAX_RENAME_COUNT) ∧
        (newDistinctNoteName noteName currentNames index
           = Ok (suffixed noteName n)) ∧
        (suffixed noteName n ∉ currentNames) ∧
        (∀ m, index ≤ m < n → suffixed noteName m ∈ currentNames))
  ∨ ((newDistinctNoteName noteName currentNames index
        = Err (RenameFailed noteName)) ∧
     (∀ n, index ≤ n ≤ MAX_RENAME_COUNT →
           suffixed noteName n ∈ currentNames)).
Proof.
  pattern index. apply bound_ind; clear index; [intros i Hi|intros i Hi IH].
  - right. split; [by apply newDistinctNoteName_over|]. lia.
  - rewrite newDistinctNoteName_step by done.
    destruct (includes currentNames (suffixed noteName i)) eqn:Hin.
    + apply includes_true in Hin.
      destruct IH as [(n & Hn & Heq & Hfresh & Hused)|[Heq Hused]].
      * left. exists n. split; [lia|]. do 2 (split; [done|]).
        intros m Hm. destruct (decide (m = i)) as [->|]; [done|].
        apply Hused. lia.
      * right. split; [done|]. intros n Hn.
        destruct (decide (n = i)) as [->|]; [done|]. apply Hused. lia.
    + apply includes_false in Hin. left. exists i.
      split; [lia|]. do 2 (split; [done|]). lia.
Qed.

(** C5. Whenever [newDistinctNoteName] returns a name instead of throwing,
    that name is not in the list of used names; and the result is a function
    of the inputs: it is the same for the same candidate and start suffix on
    any list holding the same used names. *)
Theorem newDistinctNoteName_not_used noteName currentNames index name :
  newDistinctNoteName noteName currentNames index = Ok name →
  (name ∉ currentNames) ∧
  (∀ currentNames', (∀ x, x ∈ currentNames ↔ x ∈ currentNames') →
     newDistinctNoteName noteName currentNames' index = Ok name).
Proof.
  intros H. split.
  - by eapply newDistinctNoteName_fresh.
  - intros l' Hl'. by rewrite <- (newDistinctNoteName_ext _ _ _ _ Hl').
Qed.

Lemma newDistinctNoteName_not_used_witness :
  (newDistinctNoteName "a" ["a"; "a 2"] 2 = Ok "a 3") ∧
  ("a 3" ∉ ["a"; "a 2"]) ∧
  (newDistinctNoteName "a" ["a 2"; "a"; "a"] 2 = Ok "a 3").
Proof.
  assert (H : newDistinctNoteName "a" ["a"; "a 2"] 2 = Ok "a 3")
    by reflexivity.
  split; [exact H|].
  destruct (newDistinctNoteName_not_used "a" ["a"; "a 2"] 2 "a 3" H)
    as [Hfresh Hext].
  split; [exact Hfresh|].
  apply Hext. intros x. rewrite !elem_of_cons. tauto.
Defined.

(** C6 (as the code has it). For an integer start suffix from -2^53 on,
    where the arithmetic of numbers is exact, the resolver appends [" n"] with
    n = index, index + 1, ... and gives up once n exceeds the constant 100:
    either it returns the first ["noteName n"] with index ≤ n ≤ 100 that is
    not used, or every such name is used and it throws the rename error.
    The constant bounds the suffix, not the number of attempts: 101 - index
    names are tried at most. *)
Theorem newDistinctNoteName_bounded noteName currentNames index :
  - 2 ^ 53 ≤ index →
  (∃ n, (index ≤ n ≤ 100) ∧
        (newDistinctNoteName noteName currentNames index
          = Ok (noteName +:+ " " +:+ pretty n)) ∧
        (noteName +:+ " " +:+ pretty n ∉ currentNames) ∧
        (∀ m, index ≤ m < n → noteName +:+ " " +:+ pretty m ∈ currentNames))
  ∨ ((newDistinctNoteName noteName currentNames index
       = Err (RenameFailed noteName)) ∧
     (∀ n, index ≤ n ≤ 100 → noteName +:+ " " +:+ pretty n ∈ currentNames)).
Proof.
  intros _.
  change (λ n : Z, noteName +:+ " " +:+ pretty n) with (suffixed noteName).
  pattern index. apply bound_ind; clear index; unfold MAX_RENAME_COUNT.
  - intros i Hi. right. split; [by apply newDistinctNoteName_over|]. lia.
  - intros i Hi IH. rewrite newDistinctNoteName_step by done.
    destruct (includes currentNames (suffixed noteName i)) eqn:Hin.
    + apply includes_true in Hin.
      destruct IH as [(n & Hn & Heq & Hfresh & Hused)|[Heq Hused]].
      * left. exists n. split; [lia|]. do 2 (split; [done|]).
        intros m Hm. destruct (decide (m = i)) as [->|]; [done|].
        apply Hused. lia.
      * right. split; [done|]. intros n Hn.
        destruct (decide (n = i)) as [->|]; [done|]. apply Hused. lia.
    + apply includes_false in Hin. left. exists i.
      split; [lia|]. do 2 (split; [done|]). lia.
Qed.

Lemma newDistinctNoteName_bounded_witness :
  ∃ n, (2 ≤ n ≤ 100) ∧
       (newDistinctNoteName "a" ["a"; "a 2"] 2 = Ok ("a" +:+ " " +:+ pretty n)) ∧
       ("a" +:+ " " +:+ pretty n ∉ ["a"; "a 2"]) ∧
       (∀ m, 2 ≤ m < n → "a" +:+ " " +:+ pretty m ∈ ["a"; "a 2"]).
Proof.
  destruct (newDistinctNoteName_bounded "a" ["a"; "a 2"] 2) as [H|[H _]].
  - done.
  - exact H.
  - discriminate H.
Defined.

(** C6, counterexample: the number of attempts is not a fixed 100.  From the
    start suffix 2 the 99 names ["a 2"], ..., ["a 100"] are all that is
    tried before the rename error; from 101 nothing is tried, and the error
    is thrown with no name used. *)
Lemma newDistinctNoteName_attempts_not_fixed :
  (length (suffixed "a" <$> seqZ 2 99) = 99%nat) ∧
  (newDistinctNoteName "a" (suffixed "a" <$> seqZ 2 99) 2
   = Err (RenameFailed "a")) ∧
  (newDistinctNoteName "a" [] 101 = Err (RenameFailed "a")).
Proof. split; [|split]; vm_compute; reflexivity. Qed.

(* ===================================================================== *)
(** * Strings *)
(* ===================================================================== *)

Lemma str_app_cons a s t : String a s +:+ t = String a (s +:+ t).
Proof. reflexivity. Qed.

Lemma str_app_nil_l s : "" +:+ s = s.
Proof. reflexivity. Qed.

Lemma str_app_nil_r s : s +:+ "" = s.
Proof. induction s as [|a s IH]; [done|]. by rewrite str_app_cons, IH. Qed.

Lemma str_app_assoc s t u : (s +:+ t) +:+ u = s +:+ t +:+ u.
Proof. induction s as [|a s IH]; [done|]. by rewrite !str_app_cons, IH. Qed.

Lemma str_length_app s t :
  String.length (s +:+ t) = (String.length s + String.length t)%nat.
Proof.
  induction s as [|a s IH]; [done|]. rewrite str_app_cons. simpl. by rewrite IH.
Qed.

(* ===================================================================== *)
(** * Statements that may throw *)
(* ===================================================================== *)

Lemma forEach_app {A S} (f : S → A → result S) l1 l2 s :
  forEach f (l1 ++ l2) s = (s' ← forEach f l1 s; forEach f l2 s').
Proof.
  revert s. induction l1 as [|x l1 IH]; intros s; simpl; [done|].
  destruct (f s x); simpl; [apply IH|done].
Qed.

Lemma forEach_snoc {A S} (f : S → A → result S) l x s :
  forEach f (l ++ [x]) s = (s' ← forEach f l s; f s' x).
Proof.
  rewrite forEach_app. destruct (forEach f l s) as [s'|]; simpl; [|done].
  by destruct (f s' x).
Qed.

(** An invariant kept by every step is kept by the loop. *)
Lemma forEach_invariant {A S} (I : S → Prop) (f : S → A → result S) l s s' :
  (∀ s x s', x ∈ l → I s → f s x = Ok s' → I s') →
  I s → forEach f l s = Ok s' → I s'.
Proof.
  revert s. induction l as [|x l IH]; intros s Hstep Hs; simpl.
  - by intros [= <-].
  - destruct (f s x) as [s1|] eqn:Hf; simpl; [|done].
    apply IH; [|eapply Hstep; [left|done..]].
    intros ?????; eapply Hstep; [by right|done..].
Qed.

(** A loop that throws does so in one of its steps. *)
Lemma forEach_Err {A S} (f : S → A → result S) l s e :
  forEach f l s = Err e → ∃ x s', x ∈ l ∧ f s' x = Err e.
Proof.
  revert s. induction l as [|x l IH]; intros s; simpl; [done|].
  destruct (f s x) as [s1|e1] eqn:Hf; simpl.
  - intros (y & s' & Hy & He)%IH. exists y, s'. split; [by right|done].
  - intros [= ->]. exists x, s. split; [left|done].
Qed.

Lemma forEach_total {A S} (f : S → A → result S) l s :
  (∀ s x, is_Ok (f s x)) → is_Ok (forEach f l s).
Proof.
  intros Hf. revert s. induction l as [|x l IH]; intros s; simpl.
  - by exists s.
  - destruct (Hf s x) as [s1 ->]. simpl. apply IH.
Qed.

(* ===================================================================== *)
(** * The hierarchy walker *)
(* ===================================================================== *)

Lemma QvLibraryMeta_forall_ind (P : QvLibraryMeta → Prop) :
  (∀ uuid children, Forall P children → P (Meta uuid children)) →
  ∀ libraryMeta, P libraryMeta.
Proof.
  intros Hnode. fix IH 1. intros [uuid children]. apply Hnode.
  induction children as [|meta children IHc]; constructor; [apply IH|done].
Qed.

(** The walker calls back once per declared node, in pre-order, and stops at
    the first call that throws. *)
Lemma walk_visits {S} (callback : string → list string → S → result S)
    libraryMeta parents s :
  walkThroughNotebookHierarchty callback libraryMeta parents s =
  forEach (λ s v, callback v.1 v.2 s) (visits libraryMeta parents) s.
Proof.
  revert parents s.
  induction libraryMeta as [uuid children IH] using QvLibraryMeta_forall_ind.
  intros parents s. simpl.
  destruct (callback uuid parents s) as [s1|]; simpl; [|done].
  assert (Heach : ∀ s,
    (fix each (l : list QvLibraryMeta) (s : S) : result S :=
       match l with
       | [] => Ok s
       | meta :: l' =>
           s' ← walkThroughNotebookHierarchty callback meta (parents ++ [uuid]) s;
           each l' s'
       end) children s =
    forEach (λ s v, callback v.1 v.2 s)
      ((fix each (l : list QvLibraryMeta) : list (string * list string) :=
          match l with
          | [] => []
          | meta :: l' => visits meta (parents ++ [uuid]) ++ each l'
          end) children) s).
  { clear s1. induction IH as [|meta children Hmeta _ IHc]; intros s0; [done|].
    rewrite forEach_app, Hmeta.
    destruct (forEach _ (visits meta _) s0); simpl; [apply IHc|done]. }
  destruct children; [done|apply Heach].
Qed.

Example cyclicMeta_walk :
  walkThroughNotebookHierarchty recordVisit
    (Meta "X" [Meta "Y" [Meta "X" []]]) [] []
  = Ok [("X", []); ("Y", ["X"]); ("X", ["X"; "Y"])].
Proof. reflexivity. Qed.

(** C3 (as the code has it). The walker recurses over the declared tree,
    which is finite: on every tree, one with a node whose id is already in
    its own ancestor chain included, it ends after one call per declared
    node, and it raises nothing itself: it returns normally whenever the
    callback does.  There is no cycle guard and no hierarchy error. *)
Theorem walk_ends_without_error libraryMeta parents :
  (walkThroughNotebookHierarchty recordVisit libraryMeta parents []
     = Ok (visits libraryMeta parents)) ∧
  (∀ S (callback : string → list string → S → result S) s,
     (∀ uuid p s, is_Ok (callback uuid p s)) →
     is_Ok (walkThroughNotebookHierarchty callback libraryMeta parents s)).
Proof.
  split.
  - rewrite walk_visits. generalize (visits libraryMeta parents) as l.
    intros l. change l with ([] ++ l) at 2. generalize (@nil (string * list string)).
    induction l as [|[u p] l IH]; intros acc; simpl.
    + by rewrite app_nil_r.
    + rewrite IH. by rewrite <- app_assoc.
  - intros S callback s Hcb. rewrite walk_visits. apply forEach_total.
    intros ??. apply Hcb.
Qed.

Lemma walk_ends_without_error_witness :
  hasCycle (Meta "X" [Meta "Y" [Meta "X" []]]) ∧
  is_Ok (walkThroughNotebookHierarchty recordVisit
           (Meta "X" [Meta "Y" [Meta "X" []]]) [] []).
Proof.
  split.
  - exists "X", ["X"; "Y"]. split; [|left]. simpl. do 2 right. left.
  - apply (walk_ends_without_error (Meta "X" [Meta "Y" [Meta "X" []]]) []).
    intros uuid p s. by eexists.
Defined.

(** C3, counterexample: a tree in which X is its own grandchild is walked
    to the end, all three nodes are visited and nothing is raised. *)
Lemma walk_cycle_not_rejected :
  hasCycle (Meta "X" [Meta "Y" [Meta "X" []]]) ∧
  ¬ (∃ e, walkThroughNotebookHierarchty recordVisit
            (Meta "X" [Meta "Y" [Meta "X" []]]) [] [] = Err e).
Proof.
  split.
  - exists "X", ["X"; "Y"]. split; [|left]. simpl. do 2 right. left.
  - intros [e He]. rewrite cyclicMeta_walk in He. discriminate.
Qed.

(* ===================================================================== *)
(** * The notebooks record and the validated callback *)
(* ===================================================================== *)

Lemma notebooksByUuid_Some library uuid notebook :
  notebooksByUuid library !! uuid = Some notebook →
  notebook ∈ lib_notebooks library ∧ nb_uuid notebook = uuid.
Proof.
  unfold notebooksByUuid.
  induction (lib_notebooks library) as [|nb l IH] using rev_ind; simpl.
  - by rewrite lookup_empty.
  - rewrite foldl_snoc. destruct (decide (nb_uuid nb = uuid)) as [<-|Hne].
    + rewrite lookup_insert_eq. intros [= <-]. split; [|done].
      apply elem_of_app. right. left.
    + rewrite lookup_insert_ne by done. intros [H1 H2]%IH.
      split; [|done]. apply elem_of_app. by left.
Qed.

Lemma notebooksByUuid_NoDup library notebook :
  NoDup (nb_uuid <$> lib_notebooks library) →
  notebook ∈ lib_notebooks library →
  notebooksByUuid library !! nb_uuid notebook = Some notebook.
Proof.
  unfold notebooksByUuid.
  induction (lib_notebooks library) as [|nb l IH] using rev_ind; simpl.
  - by intros _ ?%elem_of_nil.
  - rewrite fmap_app, foldl_snoc. simpl.
    intros (Hl & Hnb & _)%NoDup_app [Hin|Hin%list_elem_of_singleton]%elem_of_app.
    + rewrite lookup_insert_ne; [by apply IH|].
      intros Heq. apply (Hnb (nb_uuid notebook)).
      * by apply list_elem_of_fmap_2.
      * rewrite Heq. left.
    + subst. by rewrite lookup_insert_eq.
Qed.

Lemma parentNotebooksOf_missing notebooks parentNames :
  (∃ name, name ∈ parentNames ∧ notebooks !! name = None) →
  ∃ name, parentNotebooksOf notebooks parentNames = inl name.
Proof.
  intros (name & Hin & Hnone).
  induction parentNames as [|n names IH]; [by apply elem_of_nil in Hin|].
  simpl. destruct (notebooks !! n) as [parent|] eqn:Hn; [|by eexists].
  apply elem_of_cons in Hin as [->|Hin]; [congruence|].
  destruct (IH Hin) as [missing ->]. by eexists.
Qed.

Lemma parentNotebooksOf_In notebooks parentNames parentNotebooks :
  parentNotebooksOf notebooks parentNames = inr parentNotebooks →
  ∀ name, name ∈ parentNames → is_Some (notebooks !! name).
Proof.
  revert parentNotebooks.
  induction parentNames as [|n names IH]; intros pn; simpl.
  - intros _ name ?%elem_of_nil. done.
  - destruct (notebooks !! n) as [parent|] eqn:Hn; [|done].
    destruct (parentNotebooksOf notebooks names) as [|pn'] eqn:Hnames; [done|].
    intros _ name [->|Hin]%elem_of_cons; [by eexists|]. by eapply IH.
Qed.

(** A node that is missing on disk, or that has a missing ancestor, is only
    warned about: the callback is not called, whatever it is. *)
Lemma validatedCallback_blocked {S} library
    (callback : QvNotebook → list QvNotebook → S → result S)
    notebookName parentNames console s :
  (∃ name, name ∈ parentNames ++ [notebookName] ∧
           notebooksByUuid library !! name = None) →
  ∃ warning,
    validatedCallback library callback notebookName parentNames (console, s)
      = Ok (console ++ [warning], s) ∧
    (notebooksByUuid library !! notebookName = None →
     warning = warnMissingNotebook notebookName).
Proof.
  intros (name & Hin & Hnone). unfold validatedCallback.
  destruct (notebooksByUuid library !! notebookName) as [notebook|] eqn:Hnb.
  - apply elem_of_app in Hin as [Hin|Hin%list_elem_of_singleton];
      [|congruence].
    destruct (parentNotebooksOf_missing (notebooksByUuid library) parentNames)
      as [missing ->]; [by exists name|].
    eexists. split; [done|]. done.
  - eexists. split; [done|]. done.
Qed.

(** What the callback is called with is a notebook found on disk, looked up
    under the declared id. *)
Lemma validatedCallback_Err {S} library
    (callback : QvNotebook → list QvNotebook → S → result S)
    notebookName parentNames st e :
  validatedCallback library callback notebookName parentNames st = Err e →
  ∃ notebook parents,
    notebooksByUuid library !! notebookName = Some notebook ∧
    callback notebook parents st.2 = Err e.
Proof.
  destruct st as [console s]. unfold validatedCallback.
  destruct (notebooksByUuid library !! notebookName) as [notebook|]; [|done].
  destruct (parentNotebooksOf _ parentNames) as [|parents]; [done|].
  destruct (callback notebook parents s) eqn:Hcb; simpl; [done|].
  intros [= <-]. by exists notebook, parents.
Qed.

Lemma validatedCallback_Ok {S} library
    (callback : QvNotebook → list QvNotebook → S → result S)
    notebookName parentNames st st' :
  validatedCallback library callback notebookName parentNames st = Ok st' →
  st'.2 = st.2 ∨
  ∃ notebook parents,
    notebooksByUuid library !! notebookName = Some notebook ∧
    callback notebook parents st.2 = Ok st'.2.
Proof.
  destruct st as [console s]. unfold validatedCallback.
  destruct (notebooksByUuid library !! notebookName) as [notebook|];
    [|intros [= <-]; by left].
  destruct (parentNotebooksOf _ parentNames) as [|parents];
    [intros [= <-]; by left|].
  destruct (callback notebook parents s) as [s'|] eqn:Hcb; simpl; [|done].
  intros [= <-]. right. by exists notebook, parents.
Qed.

(** The walk of a subtree whose root has no notebook on disk: one warning per
    declared node, the first one for the root, and no call of the callback. *)
Lemma walk_missing_subtree {State} library
    (callback : QvNotebook → list QvNotebook → State → result State)
    libraryMeta parents console s :
  notebooksByUuid library !! meta_uuid libraryMeta = None →
  ∃ warnings,
    walkThroughNotebookHierarchty (validatedCallback library callback)
      libraryMeta parents (console, s)
    = Ok (console ++ warnMissingNotebook (meta_uuid libraryMeta) :: warnings, s)
    ∧ S (length warnings) = length (visits libraryMeta parents).
Proof.
  intros Hmissing. rewrite walk_visits.
  assert (Hblocked : ∀ l console,
    Forall (λ v, ∃ name, name ∈ v.2 ++ [v.1] ∧
                         notebooksByUuid library !! name = None) l →
    ∃ warnings,
      forEach (λ st v, validatedCallback library callback v.1 v.2 st) l
        (console, s) = Ok (console ++ warnings, s)
      ∧ length warnings = length l).
  { clear. intros l. induction l as [|v l IH]; intros console Hl.
    - exists []. by rewrite app_nil_r.
    - apply Forall_cons in Hl as [Hv Hl]. cbn [forEach].
      destruct (validatedCallback_blocked library callback v.1 v.2 console s Hv)
        as (w & -> & _). cbn [mbind result_bind].
      destruct (IH (console ++ [w]) Hl) as (ws & -> & Hlen).
      exists (w :: ws). rewrite <- app_assoc. split; [done|]. simpl. lia. }
  assert (Hsub : ∀ m ps,
    (∃ name, name ∈ ps ++ [meta_uuid m] ∧
             notebooksByUuid library !! name = None) →
    Forall (λ v, ∃ name, name ∈ v.2 ++ [v.1] ∧
                         notebooksByUuid library !! name = None)
           (visits m ps)).
  { clear. intros m.
    induction m as [uuid children IH] using QvLibraryMeta_forall_ind.
    intros ps Hps. simpl in *. constructor; [exact Hps|].
    induction IH as [|meta children Hmeta _ IHc]; [constructor|].
    apply Forall_app. split; [|done]. apply Hmeta.
    destruct Hps as (name & Hin & Hnone). exists name. split; [|done].
    apply elem_of_app. by left. }
  destruct libraryMeta as [uuid children]. cbn [meta_uuid visits forEach] in *.
  destruct (validatedCallback_blocked library callback uuid parents console s)
    as (w & Hcb & Hw).
  { exists uuid. split; [|done]. apply elem_of_app. right. left. }
  cbn [fst snd]. rewrite Hcb, (Hw Hmissing). cbn [mbind result_bind].
  match goal with |- context [forEach _ ?l _] => set (rest := l) end.
  destruct (Hblocked rest (console ++ [warnMissingNotebook uuid]))
    as (ws & -> & Hlen).
  { subst rest. clear -Hsub Hmissing. simpl in Hmissing.
    induction children as [|meta children IHc]; [constructor|].
    apply Forall_app. split; [|done]. apply Hsub.
    exists uuid. split; [|done]. apply elem_of_app. left.
    apply elem_of_app. right. left. }
  exists ws. rewrite <- app_assoc. split; [done|]. simpl. by rewrite Hlen.
Qed.

(* ===================================================================== *)
(** * Planning the notes of one notebook *)
(* ===================================================================== *)

Lemma app_nonempty s t : s ≠ "" → s +:+ t ≠ "".
Proof. by destruct s. Qed.

Lemma path_normalize_nonempty p : path.normalize p ≠ "".
Proof.
  unfold path.normalize. destruct p as [|c p]; [done|].
  cbv zeta. repeat case_match; try done.
  all: try (apply app_nonempty; congruence).
Qed.

Lemma path_join_nonempty paths : path.join paths ≠ "".
Proof.
  unfold path.join. case_match; [done|apply path_normalize_nonempty].
Qed.

(** [if (this.newNotePathRecord[uuid])]: there is an entry, and its path is
    not the empty string. *)
Definition truthyIn (record : gmap string string) (uuid : string) : Prop :=
  ∃ c p, record !! uuid = Some (String c p).

Lemma truthyIn_insert record uuid paths uuid' :
  truthyIn (<[uuid := path.join paths]> record) uuid' ↔
  uuid = uuid' ∨ truthyIn record uuid'.
Proof.
  unfold truthyIn. destruct (decide (uuid = uuid')) as [<-|Hne].
  - rewrite lookup_insert_eq. split; [by left|]. intros _.
    pose proof (path_join_nonempty paths).
    destruct (path.join paths) as [|c p]; [done|]. by exists c, p.
  - rewrite lookup_insert_ne by done. split; [by right|by intros [?|?]].
Qed.

(** One step of the loop over [notebook.notes] that does not throw. *)
Lemma planNote_Ok newPath noteNames record note noteNames' record' :
  planNote newPath (noteNames, record) note = Ok (noteNames', record') →
  ¬ truthyIn record (note_uuid note) ∧
  ∃ noteName,
    (noteNames' = noteNames ++ [noteName]) ∧
    (noteName ∉ noteNames) ∧
    record' = <[note_uuid note := path.join [newPath; noteName +:+ ".md"]]> record ∧
    (if includes noteNames (sanitizeNoteTitle (note_title note))
     then newDistinctNoteName (sanitizeNoteTitle (note_title note)) noteNames 2
          = Ok noteName
     else noteName = sanitizeNoteTitle (note_title note)).
Proof.
  unfold planNote, truthyIn.
  set (t := sanitizeNoteTitle (note_title note)).
  destruct (record !! note_uuid note) as [[|c p]|] eqn:Hrec; [|done|].
  all: destruct (includes noteNames t) eqn:Hin.
  all: try (destruct (newDistinctNoteName t noteNames 2) as [name|] eqn:Hnew;
            simpl; [|done]).
  all: simpl; intros [= <- <-]; (split; [by intros (? & ? & ?)|]).
  all: eexists; split; [done|]; split; [|done].
  all: try (by eapply newDistinctNoteName_fresh).
  all: by apply includes_false.
Qed.

Lemma planNote_Err newPath noteNames record note e :
  planNote newPath (noteNames, record) note = Err e →
  (e = DuplicateNoteUuid (note_uuid note) ∧ truthyIn record (note_uuid note))
  ∨ (e = RenameFailed (sanitizeNoteTitle (note_title note)) ∧
     includes noteNames (sanitizeNoteTitle (note_title note)) = true ∧
     newDistinctNoteName (sanitizeNoteTitle (note_title note)) noteNames 2
       = Err e).
Proof.
  unfold planNote, truthyIn.
  set (t := sanitizeNoteTitle (note_title note)).
  destruct (record !! note_uuid note) as [[|c p]|] eqn:Hrec.
  2: { intros [= <-]. left. split; [done|]. by exists c, p. }
  all: destruct (includes noteNames t) eqn:Hin; [|done].
  all: destruct (newDistinctNoteName_spec t noteNames 2)
         as [(n & _ & -> & _)|[Hnew _]]; [done|].
  all: rewrite Hnew; simpl.
  all: intros [= <-].
  all: by right.
Qed.

(** The notes processed so far: their uuids are pairwise distinct and each
    has an entry in the record. *)
Definition plannedNotes (record : gmap string string) (notes : list QvNote)
    : Prop :=
  NoDup (note_uuid <$> notes) ∧
  ∀ note, note ∈ notes → truthyIn record (note_uuid note).

Lemma planNotes_from_Ok newPath notes : ∀ noteNames record noteNames' record' done,
  forEach (planNote newPath) notes (noteNames, record) = Ok (noteNames', record') →
  plannedNotes record done →
  plannedNotes record' (done ++ notes) ∧
  (∀ uuid, truthyIn record uuid → truthyIn record' uuid) ∧
  (NoDup noteNames → NoDup noteNames') ∧
  length noteNames' = (length noteNames + length notes)%nat.
Proof.
  induction notes as [|note notes IH];
    intros noteNames record noteNames' record' done.
  - simpl. intros [= <- <-] Hdone. rewrite app_nil_r.
    repeat split; try done; try apply Hdone.
  - cbn [forEach].
    destruct (planNote newPath (noteNames, record) note) as [[names1 rec1]|]
      eqn:Hstep; [|done].
    cbn [mbind result_bind]. intros Hrest [Hnodup Hin].
    apply planNote_Ok in Hstep as (Hfresh & name & -> & Hname & -> & _).
    eapply (IH _ _ _ _ (done ++ [note])) in Hrest as (Hp & Hmono & Hnd & Hlen).
    + rewrite <- app_assoc in Hp. split; [done|]. split; [|split].
      * intros uuid Hu. apply Hmono, truthyIn_insert. by right.
      * intros Hn. apply Hnd. apply NoDup_app. repeat split; [done| |].
        -- intros x Hx Hx'%list_elem_of_singleton. by subst.
        -- apply NoDup_singleton.
      * rewrite Hlen, length_app. simpl. lia.
    + split.
      * rewrite fmap_app. apply NoDup_app. repeat split; [done| |].
        -- intros u (n' & -> & Hn')%list_elem_of_fmap Heq%list_elem_of_singleton.
           apply Hfresh. rewrite <- Heq. by apply Hin.
        -- apply NoDup_singleton.
      * intros n' [Hn'|Hn'%list_elem_of_singleton]%elem_of_app;
          apply truthyIn_insert; [right; by apply Hin|left; by subst].
Qed.

(* ===================================================================== *)
(** * Planning the library *)
(* ===================================================================== *)

(** The notebooks whose notes have been planned so far, in order. *)
Definition planInv (library : QvLibrary) (st : PlanState)
    (done : list QvNotebook) : Prop :=
  plannedNotes (newNotePathRecord st) (mjoin (nb_notes <$> done)) ∧
  ∀ uuid, uuid ∈ notebooksInMeta st →
    ∃ notebook, notebooksByUuid library !! uuid = Some notebook ∧
                (nb_notes notebook = [] ∨ notebook ∈ done).

Lemma mjoin_snoc {A} (ls : list (list A)) l : mjoin (ls ++ [l]) = mjoin ls ++ l.
Proof. rewrite join_app. simpl. by rewrite app_nil_r. Qed.

Lemma planNotes_inv library newPath notebook st r done :
  planNotes newPath (nb_notes notebook) (newNotePathRecord st) = Ok r →
  planInv library st done →
  ∀ inMeta,
    (∀ uuid, uuid ∈ inMeta → uuid = nb_uuid notebook ∨ uuid ∈ notebooksInMeta st) →
    notebooksByUuid library !! nb_uuid notebook = Some notebook →
    planInv library (mkPlan r.2 inMeta) (done ++ [notebook]).
Proof.
  destruct r as [names rec']. unfold planNotes.
  intros Hplan [Hdone HinMeta] inMeta Hin Hnb.
  eapply planNotes_from_Ok in Hplan as (Hp & _); [|exact Hdone].
  split; simpl.
  - rewrite fmap_app. cbn [fmap list_fmap]. by rewrite mjoin_snoc.
  - intros uuid [->|Hu]%Hin.
    + exists notebook. split; [done|]. right. apply elem_of_app. right. left.
    + destruct (HinMeta _ Hu) as (nb' & Hnb' & [Hempty|Hd]).
      * exists nb'. split; [done|by left].
      * exists nb'. split; [done|]. right. apply elem_of_app. by left.
Qed.

Lemma planInv_add_empty library st done notebook inMeta :
  planInv library st done →
  nb_notes notebook = [] →
  notebooksByUuid library !! nb_uuid notebook = Some notebook →
  (∀ uuid, uuid ∈ inMeta → uuid = nb_uuid notebook ∨ uuid ∈ notebooksInMeta st) →
  planInv library (mkPlan (newNotePathRecord st) inMeta) done.
Proof.
  intros [Hdone HinMeta] Hempty Hnb Hin. split; [done|]. simpl.
  intros uuid [->|Hu]%Hin; [|by apply HinMeta].
  exists notebook. split; [done|by left].
Qed.

Lemma planWalkedNotebook_inv library outputQuiverPath notebook parents st st' :
  notebooksByUuid library !! nb_uuid notebook = Some notebook →
  (∃ done, planInv library st done) →
  planWalkedNotebook library outputQuiverPath notebook parents st = Ok st' →
  ∃ done', planInv library st' done'.
Proof.
  intros Hnb [done Hinv]. unfold planWalkedNotebook.
  assert (Hin : ∀ uuid, uuid ∈ {[nb_uuid notebook]} ∪ notebooksInMeta st →
                        uuid = nb_uuid notebook ∨ uuid ∈ notebooksInMeta st).
  { intros uuid. rewrite elem_of_union, elem_of_singleton. tauto. }
  destruct (nb_notes notebook) as [|note notes] eqn:Hnotes.
  - rewrite bool_decide_eq_false_2 by (by intros ?). simpl.
    destruct (notebookHasChildren library (nb_uuid notebook)); simpl.
    all: intros [= <-]; exists done; by eapply planInv_add_empty.
  - rewrite bool_decide_eq_true_2 by done. simpl.
    destruct (planNotes _ (note :: notes) _) as [r|] eqn:Hplan; simpl; [|done].
    intros [= <-]. exists (done ++ [notebook]).
    rewrite <- Hnotes in Hplan. by eapply planNotes_inv.
Qed.

Lemma walk_plan_inv library outputQuiverPath st0 st' :
  (∃ done, planInv library st0.2 done) →
  Quiver_walkThroughNotebookHierarchty library
    (planWalkedNotebook library outputQuiverPath) st0 = Ok st' →
  ∃ done', planInv library st'.2 done'.
Proof.
  unfold Quiver_walkThroughNotebookHierarchty. intros Hinv Hwalk.
  eapply (forEach_invariant (λ st, ∃ done, planInv library st.2 done));
    [|exact Hinv|exact Hwalk].
  clear. intros st meta st' _ Hinv Hwalk. cbv beta in Hwalk.
  rewrite walk_visits in Hwalk.
  eapply (forEach_invariant (λ st, ∃ done, planInv library st.2 done));
    [|exact Hinv|exact Hwalk].
  clear. intros st v st' _ Hinv Hcb. cbv beta in Hcb.
  apply validatedCallback_Ok in Hcb as [->|(nb & parents & Hnb & Hcb)]; [done|].
  eapply planWalkedNotebook_inv; [|done..].
  by destruct (notebooksByUuid_Some _ _ _ Hnb) as [_ ->].
Qed.

Lemma orphans_plan_inv library outputQuiverPath l : ∀ st st' done,
  NoDup (nb_uuid <$> lib_notebooks library) →
  (∀ notebook, notebook ∈ l → notebook ∈ lib_notebooks library) →
  planInv library st done →
  forEach (planOrphanNotebook outputQuiverPath) l st = Ok st' →
  ∃ done', planInv library st' done' ∧
           (∀ notebook, notebook ∈ done → notebook ∈ done') ∧
           (∀ notebook, notebook ∈ l → nb_notes notebook = [] ∨ notebook ∈ done').
Proof.
  induction l as [|nb l IH]; intros st st' done Hnodup Hl Hinv.
  - simpl. intros [= <-]. exists done. split; [done|]. split; [done|].
    by intros ? ?%elem_of_nil.
  - cbn [forEach].
    assert (Hnb : notebooksByUuid library !! nb_uuid nb = Some nb).
    { apply notebooksByUuid_NoDup; [done|]. apply Hl. left. }
    assert (Hl' : ∀ notebook, notebook ∈ l → notebook ∈ lib_notebooks library).
    { intros ??. apply Hl. by right. }
    destruct (planOrphanNotebook outputQuiverPath st nb) as [st1|] eqn:Hstep;
      [|done].
    cbn [mbind result_bind]. intros Hrest.
    assert (∃ done1, planInv library st1 done1 ∧
              (∀ notebook, notebook ∈ done → notebook ∈ done1) ∧
              (nb_notes nb = [] ∨ nb ∈ done1)) as (done1 & Hinv1 & Hmono1 & Hcov1).
    { unfold planOrphanNotebook in Hstep.
      destruct (decide (nb_uuid nb ∈ notebooksInMeta st)) as [HinMeta|HinMeta];
        [|destruct (decide (nb_notes nb = [])) as [Hempty|Hnotes]].
      - injection Hstep as <-. exists done. split; [done|]. split; [done|].
        destruct Hinv as [_ Hmeta].
        destruct (Hmeta _ HinMeta) as (nb' & Hnb' & Hcase).
        rewrite Hnb in Hnb'. by injection Hnb' as <-.
      - injection Hstep as <-. exists done. split; [done|]. split; [done|].
        by left.
      - destruct (planNotes _ (nb_notes nb) _) as [r|] eqn:Hplan; [|done].
        cbn [mbind result_bind] in Hstep. injection Hstep as <-.
        exists (done ++ [nb]). split; [|split].
        + eapply planNotes_inv; [done..| |done]. intros ??. by right.
        + intros x Hx. apply elem_of_app. by left.
        + right. apply elem_of_app. right. left. }
    destruct (IH _ _ _ Hnodup Hl' Hinv1 Hrest) as (done' & Hinv' & Hmono & Hcov).
    exists done'. split; [done|]. split.
    + intros x Hx. by apply Hmono, Hmono1.
    + intros x [->|Hx]%elem_of_cons; [|by apply Hcov].
      destruct Hcov1 as [?|?]; [by left|right; by apply Hmono].
Qed.

(** When planning does not throw, the notes of every notebook found on disk
    have been planned, once. *)
Lemma planLibraryFrom_Ok library outputQuiverPath console st :
  NoDup (nb_uuid <$> lib_notebooks library) →
  planLibraryFrom library outputQuiverPath ∅ = Ok (console, st) →
  ∃ done,
    plannedNotes (newNotePathRecord st) (mjoin (nb_notes <$> done)) ∧
    ∀ notebook, notebook ∈ lib_notebooks library →
      nb_notes notebook = [] ∨ notebook ∈ done.
Proof.
  intros Hnodup. unfold planLibraryFrom.
  destruct (Quiver_walkThroughNotebookHierarchty _ _ _) as [[console1 st1]|]
    eqn:Hwalk; [|done].
  cbn [mbind result_bind].
  destruct (forEach _ (lib_notebooks library) st1) as [st2|] eqn:Horphans;
    [|done].
  cbn [mbind result_bind]. intros [= <- <-].
  apply walk_plan_inv in Hwalk as [done1 Hinv1].
  - eapply orphans_plan_inv in Horphans
      as (dn & [Hplanned _] & _ & Hcov); [|done|done|exact Hinv1].
    by exists dn.
  - exists []. split; simpl.
    + split; [constructor|]. by intros ? ?%elem_of_nil.
    + by intros ? ?%elem_of_empty.
Qed.

Lemma NoDup_mjoin_elem {A B} (g : A → list B) (l : list A) x :
  NoDup (mjoin (g <$> l)) → x ∈ l → NoDup (g x).
Proof.
  induction l as [|y l IH]; [by intros _ ?%elem_of_nil|].
  simpl. intros (Hy & _ & Hl)%NoDup_app [->|Hx]%elem_of_cons; auto.
Qed.

Lemma NoDup_mjoin_disjoint {A B} (g : A → list B) (l : list A) x y b :
  NoDup (mjoin (g <$> l)) → x ∈ l → y ∈ l → x ≠ y →
  b ∈ g x → b ∈ g y → False.
Proof.
  induction l as [|z l IH]; [by intros _ ?%elem_of_nil|].
  simpl. intros (Hz & Hdisj & Hl)%NoDup_app Hx Hy Hne Hbx Hby.
  apply elem_of_cons in Hx as [->|Hx]; apply elem_of_cons in Hy as [->|Hy].
  - done.
  - apply (Hdisj b Hbx). apply list_elem_of_join. exists (g y).
    split; [done|]. by apply list_elem_of_fmap_2.
  - apply (Hdisj b Hby). apply list_elem_of_join. exists (g x).
    split; [done|]. by apply list_elem_of_fmap_2.
  - by apply IH.
Qed.

Lemma NoDup_mjoin_covered {A B} (g : A → list B) (l done : list A) :
  NoDup l →
  (∀ x, x ∈ l → g x = [] ∨ x ∈ done) →
  NoDup (mjoin (g <$> done)) →
  NoDup (mjoin (g <$> l)).
Proof.
  intros Hl Hcov Hdone. induction l as [|x l IH]; [constructor|].
  apply NoDup_cons in Hl as [Hx Hl]. simpl. apply NoDup_app.
  assert (Hgx : ∀ b, b ∈ g x → x ∈ done).
  { intros b Hb. destruct (Hcov x) as [Hnil|?]; [left| |done].
    rewrite Hnil in Hb. by apply elem_of_nil in Hb. }
  split; [|split].
  - destruct (Hcov x) as [->|?]; [left|constructor|].
    by eapply NoDup_mjoin_elem.
  - intros b Hb (gy & Hby & (y & -> & Hy)%list_elem_of_fmap)%list_elem_of_join.
    eapply (NoDup_mjoin_disjoint g done x y b); try done.
    + by eapply Hgx.
    + destruct (Hcov y) as [Hnil|?]; [by right| |done].
      rewrite Hnil in Hby. by apply elem_of_nil in Hby.
    + by intros ->.
  - apply IH; [done|]. intros ??. apply Hcov. by right.
Qed.

Lemma fmap_mjoin {A B} (f : A → B) (ls : list (list A)) :
  f <$> mjoin ls = mjoin (fmap f <$> ls).
Proof.
  induction ls as [|l ls IH]; [done|]. simpl. by rewrite fmap_app, IH.
Qed.

(** When planning does not throw, no note uuid occurs twice on disk. *)
Lemma planLibraryFrom_Ok_NoDup library outputQuiverPath console st :
  NoDup (nb_uuid <$> lib_notebooks library) →
  planLibraryFrom library outputQuiverPath ∅ = Ok (console, st) →
  NoDup (note_uuid <$> libraryNotes library).
Proof.
  intros Hnodup Hplan.
  destruct (planLibraryFrom_Ok _ _ _ _ Hnodup Hplan) as (dn & [Hdn _] & Hcov).
  unfold libraryNotes. rewrite fmap_mjoin, <- list_fmap_compose.
  apply (NoDup_mjoin_covered _ _ dn).
  - by eapply NoDup_fmap_1.
  - intros nb Hnb. destruct (Hcov nb Hnb) as [Hnil|?]; [left|by right].
    simpl. by rewrite Hnil.
  - by rewrite fmap_mjoin, <- list_fmap_compose in Hdn.
Qed.

(** When planning does not throw, every note found on disk has an entry. *)
Lemma planLibraryFrom_Ok_covers library outputQuiverPath console st :
  NoDup (nb_uuid <$> lib_notebooks library) →
  planLibraryFrom library outputQuiverPath ∅ = Ok (console, st) →
  ∀ notebook note,
    notebook ∈ lib_notebooks library → note ∈ nb_notes notebook →
    truthyIn (newNotePathRecord st) (note_uuid note).
Proof.
  intros Hnodup Hplan nb note Hnb Hnote.
  destruct (planLibraryFrom_Ok _ _ _ _ Hnodup Hplan) as (dn & [_ Hdn] & Hcov).
  apply Hdn. apply list_elem_of_join. exists (nb_notes nb). split; [done|].
  apply list_elem_of_fmap_2. destruct (Hcov nb Hnb) as [Hnil|?]; [|done].
  rewrite Hnil in Hnote. by apply elem_of_nil in Hnote.
Qed.

(** ** The rename error needs more than 100 notes in one notebook *)

Lemma suffixed_ne noteName n : suffixed noteName n ≠ noteName.
Proof.
  intros H. apply (f_equal String.length) in H. unfold suffixed in H.
  rewrite !str_length_app in H. simpl in H. lia.
Qed.

Lemma planNote_RenameFailed newPath noteNames record note name :
  planNote newPath (noteNames, record) note = Err (RenameFailed name) →
  (100 ≤ length noteNames)%nat.
Proof.
  intros [[? _]|(_ & Hin%includes_true & Hnew)]%planNote_Err; [done|].
  set (t := sanitizeNoteTitle (note_title note)) in *.
  destruct (newDistinctNoteName_spec t noteNames 2)
    as [(n & _ & Hn & _)|[_ Hused]]; [congruence|].
  assert (Hsub : t :: (suffixed t <$> seqZ 2 99) ⊆+ noteNames).
  { apply NoDup_submseteq.
    - apply NoDup_cons. split.
      + intros (n & Hn & _)%list_elem_of_fmap. by eapply suffixed_ne.
      + apply NoDup_fmap_2; [apply suffixed_inj|apply NoDup_seqZ].
    - intros x [->|(n & -> & Hn%elem_of_seqZ)%list_elem_of_fmap]%elem_of_cons;
        [done|].
      apply Hused. unfold MAX_RENAME_COUNT. lia. }
  apply submseteq_length in Hsub. cbn [length] in Hsub.
  rewrite length_fmap, length_seqZ in Hsub. lia.
Qed.

Lemma planNotes_from_RenameFailed newPath notes : ∀ noteNames record name,
  forEach (planNote newPath) notes (noteNames, record)
    = Err (RenameFailed name) →
  (100 < length noteNames + length notes)%nat.
Proof.
  induction notes as [|note notes IH]; intros noteNames record name; [done|].
  cbn [forEach].
  destruct (planNote newPath (noteNames, record) note) as [[names1 rec1]|e]
    eqn:Hstep; cbn [mbind result_bind].
  - intros Hrest%IH.
    apply planNote_Ok in Hstep as (_ & name1 & -> & _).
    rewrite length_app in Hrest. simpl in *. lia.
  - intros [= ->]. apply planNote_RenameFailed in Hstep. simpl. lia.
Qed.

Lemma planLibraryFrom_RenameFailed library outputQuiverPath record name :
  planLibraryFrom library outputQuiverPath record = Err (RenameFailed name) →
  ∃ notebook, notebook ∈ lib_notebooks library ∧
              (100 < length (nb_notes notebook))%nat.
Proof.
  unfold planLibraryFrom.
  destruct (Quiver_walkThroughNotebookHierarchty _ _ _) as [[console1 st1]|e]
    eqn:Hwalk; cbn [mbind result_bind].
  - destruct (forEach _ (lib_notebooks library) st1) as [st2|e] eqn:Horphans;
      cbn [mbind result_bind]; [done|].
    intros [= ->]. apply forEach_Err in Horphans as (nb & st & Hnb & Hstep).
    exists nb. split; [done|]. unfold planOrphanNotebook in Hstep.
    repeat case_decide; try done.
    destruct (planNotes _ _ _) as [|e] eqn:Hplan; [done|].
    cbn [mbind result_bind] in Hstep. injection Hstep as ->.
    by apply planNotes_from_RenameFailed in Hplan.
  - intros [= ->]. unfold Quiver_walkThroughNotebookHierarchty in Hwalk.
    apply forEach_Err in Hwalk as (meta & st & _ & Hwalk). cbv beta in Hwalk.
    rewrite walk_visits in Hwalk.
    apply forEach_Err in Hwalk as (v & st' & _ & Hcb). cbv beta in Hcb.
    apply validatedCallback_Err in Hcb as (nb & parents & Hnb & Hcb).
    exists nb. split; [by apply notebooksByUuid_Some in Hnb as [? _]|].
    unfold planWalkedNotebook in Hcb.
    destruct (negb _ && negb _); [done|].
    destruct (bool_decide (nb_notes nb ≠ [])); [|done].
    destruct (planNotes _ _ _) as [|e] eqn:Hplan; [done|].
    cbn [mbind result_bind] in Hcb. injection Hcb as ->.
    by apply planNotes_from_RenameFailed in Hplan.
Qed.

Ltac by_compute := apply (bool_decide_unpack _); vm_compute; exact I.

Example libShared_plan :
  transformQvLibraryToObsidian libShared "/out" = Err (DuplicateNoteUuid "N1").
Proof. vm_compute. reflexivity. Qed.

Example libShadowed_plan :
  transformQvLibraryToObsidian libShadowed "/out" = Ok ([], mkPlan ∅ {["X"]}).
Proof. vm_compute. reflexivity. Qed.

Example libCrowded_plan :
  transformQvLibraryToObsidian libCrowded "/out" = Err (RenameFailed "t").
Proof. vm_compute. reflexivity. Qed.

Example libMissingParent_plan :
  transformQvLibraryToObsidian libMissingParent "/out"
  = Ok ([warnMissingNotebook "M"; warnMissingParent "M" "D"],
        mkPlan {["n1" := "/out/quiver/Drafts/t.md"]} ∅).
Proof. vm_compute. reflexivity. Qed.

(** C2 (as the code has it). The duplicate check is made against the one
    library-wide record before each insertion, whatever notebook the note is
    in.  So in a library whose notebooks have pairwise distinct uuids, and
    where the [notebooks] object of the walk is a map on the declared ids,
    if a note uuid occurs twice among the notes of all the notebooks on disk
    (walked or not), planning ends in a fatal error; it is the duplicate
    note error unless a notebook of more than 100 notes is involved, where
    the rename error can come first. *)
Theorem duplicate_note_uuid_is_fatal library outputPath :
  notebooksIsMap library →
  NoDup (nb_uuid <$> lib_notebooks library) →
  ¬ NoDup (note_uuid <$> libraryNotes library) →
  (∀ newPath noteNames record note,
     truthyIn record (note_uuid note) →
     planNote newPath (noteNames, record) note
       = Err (DuplicateNoteUuid (note_uuid note))) ∧
  (∃ e, transformQvLibraryToObsidian library outputPath = Err e ∧
        ((∀ notebook, notebook ∈ lib_notebooks library →
                      (length (nb_notes notebook) ≤ 100)%nat) →
         ∃ uuid, e = DuplicateNoteUuid uuid)).
Proof.
  intros _ Hnotebooks Hdup. split.
  - intros newPath noteNames record note (c & p & Hrec).
    unfold planNote. by rewrite Hrec.
  - unfold transformQvLibraryToObsidian.
    destruct (planLibraryFrom library _ ∅) as [[console st]|e] eqn:Hplan.
    + destruct Hdup. by eapply planLibraryFrom_Ok_NoDup.
    + exists e. split; [done|]. intros Hsmall.
      destruct e as [uuid|name]; [by exists uuid|].
      apply planLibraryFrom_RenameFailed in Hplan as (nb & Hnb & Hlen).
      specialize (Hsmall nb Hnb). lia.
Qed.

Lemma duplicate_note_uuid_is_fatal_witness :
  ∃ e, transformQvLibraryToObsidian libShared "/out" = Err e ∧
       ((∀ notebook, notebook ∈ lib_notebooks libShared →
                     (length (nb_notes notebook) ≤ 100)%nat) →
        ∃ uuid, e = DuplicateNoteUuid uuid).
Proof.
  apply (duplicate_note_uuid_is_fatal libShared "/out").
  - split; by_compute.
  - by_compute.
  - intros H. apply (bool_decide_pack _) in H. vm_compute in H. exact H.
Defined.

(** C2, counterexample: a uuid that occurs twice on disk without the
    duplicate note error.  In [libShadowed] the notebook holding it shares
    its uuid with another notebook and is never planned: planning succeeds.
    In [libCrowded] the rename error is raised before the second
    occurrence is reached. *)
Lemma duplicate_note_uuid_not_always_reported :
  (¬ NoDup (note_uuid <$> libraryNotes libShadowed) ∧
   transformQvLibraryToObsidian libShadowed "/out" = Ok ([], mkPlan ∅ {["X"]}))
  ∧
  (¬ NoDup (note_uuid <$> libraryNotes libCrowded) ∧
   transformQvLibraryToObsidian libCrowded "/out" = Err (RenameFailed "t")).
Proof.
  split; split.
  - intros H. apply (bool_decide_pack _) in H. vm_compute in H. exact H.
  - exact libShadowed_plan.
  - intros H. apply (bool_decide_pack _) in H. vm_compute in H. exact H.
  - exact libCrowded_plan.
Qed.

(** C4 (as the code has it). For a declared node whose id has no notebook on
    disk (and is not found in the [notebooks] object either: it names no
    property of [Object.prototype], and no notebook has the uuid
    [__proto__]), the walk of the subtree declared at that node prints one
    warning for every node of the subtree, the first one for the node
    itself, calls the visit callback for none of them (whatever the callback
    is: the caller's state comes back unchanged) and goes on without
    raising.  At these nodes the hierarchy walk therefore plans nothing; but
    a notebook of the subtree that does exist on disk has, like every
    notebook found on disk, all its notes in the export plan when planning
    succeeds. *)
Theorem missing_notebook_subtree_not_visited {State} library
    (callback : QvNotebook → list QvNotebook → State → result State)
    libraryMeta parents console s :
  "__proto__" ∉ (nb_uuid <$> lib_notebooks library) →
  meta_uuid libraryMeta ∉ objectPrototypeNames →
  notebooksByUuid library !! meta_uuid libraryMeta = None →
  (∃ warnings,
     walkThroughNotebookHierarchty (validatedCallback library callback)
       libraryMeta parents (console, s)
     = Ok (console ++ warnMissingNotebook (meta_uuid libraryMeta) :: warnings, s)
     ∧ S (length warnings) = length (visits libraryMeta parents)) ∧
  (∀ outputPath console' st,
     NoDup (nb_uuid <$> lib_notebooks library) →
     transformQvLibraryToObsidian library outputPath = Ok (console', st) →
     ∀ notebook note,
       notebook ∈ lib_notebooks library → note ∈ nb_notes notebook →
       ∃ c p, newNotePathRecord st !! note_uuid note = Some (String c p)).
Proof.
  intros _ _ Hmissing. split.
  - by apply walk_missing_subtree.
  - intros outputPath console' st Hnodup Hplan nb note Hnb Hnote.
    by eapply planLibraryFrom_Ok_covers.
Qed.

Lemma missing_notebook_subtree_not_visited_witness :
  ∃ warnings,
    walkThroughNotebookHierarchty
      (validatedCallback libMissingParent (@throwingCallback PlanState))
      (Meta "M" [Meta "D" []]) [] ([], mkPlan ∅ ∅)
    = Ok ([] ++ warnMissingNotebook "M" :: warnings, mkPlan ∅ ∅)
    ∧ S (length warnings) = length (visits (Meta "M" [Meta "D" []]) []).
Proof.
  apply (missing_notebook_subtree_not_visited libMissingParent
           throwingCallback (Meta "M" [Meta "D" []]) [] [] (mkPlan ∅ ∅)).
  - by_compute.
  - by_compute.
  - vm_compute. reflexivity.
Defined.

(** C4, counterexample: M is declared with the child D and only D is on
    disk.  The walk skips both, and D, a declared descendant of the missing
    M, contributes the entry of its note to the export plan. *)
Lemma missing_notebook_descendant_is_planned :
  lib_meta libMissingParent = Meta "root" [Meta "M" [Meta "D" []]] ∧
  notebooksByUuid libMissingParent !! "M" = None ∧
  ∃ console st,
    transformQvLibraryToObsidian libMissingParent "/out" = Ok (console, st) ∧
    newNotePathRecord st !! "n1" = Some "/out/quiver/Drafts/t.md".
Proof.
  split; [reflexivity|]. split; [vm_compute; reflexivity|].
  eexists _, _. split; [exact libMissingParent_plan|].
  vm_compute. reflexivity.
Qed.

(* ===================================================================== *)
(** * The file names of the notes of one notebook *)
(* ===================================================================== *)

Example planNotes_gap :
  planNotes "/out/quiver/NB" notesGap ∅
  = Ok (["a"; "a 2"; "a 3"],
        {[ "1" := "/out/quiver/NB/a.md"; "2" := "/out/quiver/NB/a 2.md";
           "3" := "/out/quiver/NB/a 3.md" ]}).
Proof. vm_compute. reflexivity. Qed.

Example planNotes_taken :
  planNotes "/out/quiver/NB" notesTaken ∅
  = Ok (["b"; "b 2"; "b 2 2"; "b 2 3"],
        {[ "1" := "/out/quiver/NB/b.md"; "2" := "/out/quiver/NB/b 2.md";
           "3" := "/out/quiver/NB/b 2 2.md"; "4" := "/out/quiver/NB/b 2 3.md" ]}).
Proof. vm_compute. reflexivity. Qed.

(** Every note gets the name chosen against the names given before it, and
    the record maps its uuid to that name with [.md], under [newPath]. *)
Lemma planNotes_lookup newPath notes : ∀ record noteNames record',
  planNotes newPath notes record = Ok (noteNames, record') →
  length noteNames = length notes ∧
  ∀ i note name,
    notes !! i = Some note → noteNames !! i = Some name →
    (record' !! note_uuid note = Some (path.join [newPath; name +:+ ".md"])) ∧
    chosenName (take i noteNames) (sanitizeNoteTitle (note_title note)) name.
Proof.
  unfold planNotes.
  induction notes as [|x notes IH] using rev_ind; intros record names record'.
  - simpl. intros [= <- <-]. split; [done|]. by intros i ?? ?.
  - rewrite forEach_snoc.
    destruct (forEach _ notes _) as [[names0 rec0]|] eqn:Hnotes; [|done].
    cbn [mbind result_bind]. intros Hx.
    destruct (IH _ _ _ Hnotes) as [Hlen Hchar].
    apply planNote_Ok in Hx as (Hfresh & name & -> & Hname & -> & Hchosen).
    split; [rewrite !length_app; simpl; lia|].
    intros i note nm Hnote Hnm.
    destruct (decide (i < length notes)%nat) as [Hi|Hi].
    + rewrite lookup_app_l in Hnote by done.
      rewrite lookup_app_l in Hnm by lia.
      destruct (Hchar _ _ _ Hnote Hnm) as [Hrec Hch]. split.
      * rewrite lookup_insert_ne; [done|]. intros Heq. apply Hfresh.
        rewrite Heq. unfold truthyIn. rewrite Hrec.
        pose proof (path_join_nonempty [newPath; nm +:+ ".md"]).
        destruct (path.join _) as [|c p]; [done|]. by exists c, p.
      * rewrite take_app_le by lia. done.
    + assert (i = length notes) as ->.
      { apply lookup_lt_Some in Hnote. rewrite length_app in Hnote.
        simpl in Hnote. lia. }
      rewrite list_lookup_middle in Hnote by done.
      rewrite list_lookup_middle in Hnm by done.
      injection Hnote as <-. injection Hnm as <-. split.
      * by rewrite lookup_insert_eq.
      * rewrite take_app_le by lia. rewrite take_ge by lia. done.
Qed.

Lemma nthName_S t j : nthName t (S j) = suffixed t (Z.of_nat (S j) + 1).
Proof. done. Qed.

Lemma nthName_inj t : Inj (=) (=) (nthName t).
Proof.
  intros [|i] [|j] H; [done| | |].
  - rewrite nthName_S in H. simpl in H. symmetry in H.
    by apply suffixed_ne in H.
  - rewrite nthName_S in H. simpl in H. by apply suffixed_ne in H.
  - rewrite !nthName_S in H. apply suffixed_inj in H. lia.
Qed.

(** With the names [t], ["t 2"], ..., up to the j-th already given and no
    other name of that family in use, the next note titled [t] gets the
    next name of the family. *)
Lemma chosenName_nthName t previous j name :
  (∀ x, x ∈ previous → x = t ∨ (∃ k, x = suffixed t k) →
        ∃ c, (c < j)%nat ∧ x = nthName t c) →
  (∀ c, (c < j)%nat → nthName t c ∈ previous) →
  chosenName previous t name →
  name = nthName t j.
Proof.
  intros Hfam Hall. unfold chosenName.
  destruct (includes previous t) eqn:Hin.
  - apply includes_true in Hin.
    destruct (Hfam t Hin) as (c0 & Hc0 & _); [by left|].
    destruct j as [|j]; [lia|].
    destruct (newDistinctNoteName_spec t previous 2)
      as [(n & Hn & -> & Hfresh & Hused)|[-> _]]; [|done].
    intros [= <-]. rewrite nthName_S. f_equal.
    destruct (decide (n ≤ Z.of_nat (S j))) as [Hle|Hgt].
    { destruct Hfresh.
      replace n with (Z.of_nat (S (Z.to_nat n - 2)) + 1) by lia.
      rewrite <- nthName_S. apply Hall. lia. }
    destruct (decide (n = Z.of_nat (S j) + 1)) as [->|Hne]; [done|].
    destruct (Hfam (suffixed t (Z.of_nat (S j) + 1))) as (c & Hc & Heq).
    { apply Hused. lia. }
    { right. by eexists. }
    rewrite <- nthName_S in Heq. apply nthName_inj in Heq. lia.
  - apply includes_false in Hin. intros ->.
    destruct j as [|j]; [done|]. destruct Hin. apply (Hall 0%nat). lia.
Qed.

Lemma countTitle_snoc t notes note :
  countTitle t (notes ++ [note]) =
  (countTitle t notes + if hasTitle t note then 1 else 0)%nat.
Proof.
  unfold countTitle. rewrite filter_app, length_app. f_equal.
  destruct (hasTitle t note) eqn:H.
  - by rewrite filter_cons_True.
  - rewrite filter_cons_False; [done|]. by rewrite H.
Qed.

(** The names given to the notes titled [t], in the order of the notes, when
    no other note of the notebook has a name of that family. *)
Lemma planNotes_sequence t notes noteNames :
  length noteNames = length notes →
  (∀ i note name,
     notes !! i = Some note → noteNames !! i = Some name →
     chosenName (take i noteNames) (sanitizeNoteTitle (note_title note)) name) →
  (∀ i note name,
     notes !! i = Some note → noteNames !! i = Some name →
     hasTitle t note = false → name ≠ t ∧ ∀ k, name ≠ suffixed t k) →
  ∀ i note name,
    notes !! i = Some note → noteNames !! i = Some name →
    hasTitle t note = true →
    name = nthName t (countTitle t (take i notes)).
Proof.
  intros Hlen Hchosen Hothers.
  assert (Hfam : ∀ i, (i ≤ length notes)%nat →
    (∀ x, x ∈ take i noteNames → x = t ∨ (∃ k, x = suffixed t k) →
          ∃ c, (c < countTitle t (take i notes))%nat ∧ x = nthName t c) ∧
    (∀ c, (c < countTitle t (take i notes))%nat →
          nthName t c ∈ take i noteNames)).
  { induction i as [|i IH]; intros Hi.
    - split; [by intros x ?%elem_of_nil|]. intros c Hc. simpl in Hc.
      unfold countTitle in Hc. simpl in Hc. lia.
    - destruct IH as [IH1 IH2]; [lia|].
      destruct (lookup_lt_is_Some_2 notes i) as [note Hnote]; [lia|].
      destruct (lookup_lt_is_Some_2 noteNames i) as [name Hname]; [lia|].
      rewrite (take_S_r _ _ _ Hnote), (take_S_r _ _ _ Hname), countTitle_snoc.
      destruct (hasTitle t note) eqn:Ht.
      + assert (Hnm : name = nthName t (countTitle t (take i notes))).
        { eapply chosenName_nthName; [exact IH1|exact IH2|].
          unfold hasTitle in Ht. apply bool_decide_eq_true in Ht as <-.
          by eapply Hchosen. }
        split.
        * intros x [Hx|Hx%list_elem_of_singleton]%elem_of_app Hf.
          -- destruct (IH1 x Hx Hf) as (c & Hc & ->). exists c. split; [lia|done].
          -- exists (countTitle t (take i notes)). split; [lia|congruence].
        * intros c Hc. apply elem_of_app.
          destruct (decide (c = countTitle t (take i notes))) as [->|Hne].
          -- right. rewrite <- Hnm. left.
          -- left. apply IH2. lia.
      + destruct (Hothers _ _ _ Hnote Hname Ht) as [Hne Hnk]. split.
        * intros x [Hx|Hx%list_elem_of_singleton]%elem_of_app Hf.
          -- destruct (IH1 x Hx Hf) as (c & Hc & ->). exists c. split; [lia|done].
          -- subst x. destruct Hf as [?|[k ?]]; [done|by destruct (Hnk k)].
        * intros c Hc. apply elem_of_app. left. apply IH2. lia. }
  intros i note name Hnote Hname Ht.
  destruct (Hfam i) as [H1 H2]; [apply lookup_lt_Some in Hnote; lia|].
  eapply chosenName_nthName; [exact H1|exact H2|].
  unfold hasTitle in Ht. apply bool_decide_eq_true in Ht as <-.
  by eapply Hchosen.
Qed.

Lemma str_app_inj_r u s t : s +:+ u = t +:+ u → s = t.
Proof.
  intros H. assert (Hlen : String.length s = String.length t).
  { apply (f_equal String.length) in H. rewrite !str_length_app in H. lia. }
  revert t H Hlen. induction s as [|a s IH]; intros [|b t]; try done.
  rewrite !str_app_cons. intros [= -> H] [= Hlen]. f_equal. by apply IH.
Qed.

Example planNotes_same :
  planNotes "/out/quiver/NB" notesSameTitle ∅
  = Ok (["a"; "a 2"; "a 3"],
        {[ "1" := "/out/quiver/NB/a.md"; "2" := "/out/quiver/NB/a 2.md";
           "3" := "/out/quiver/NB/a 3.md" ]}).
Proof. vm_compute. reflexivity. Qed.

(** The name chosen for a title: the title when it is not used yet, and
    else the first free ["t n"], n from 2 to 100. *)
Lemma chosenName_first_free previous t name :
  chosenName previous t name →
  ((t ∉ previous) ∧ name = t) ∨
  (t ∈ previous ∧
   ∃ n : Z, 2 ≤ n ≤ 100 ∧ name = t +:+ " " +:+ pretty n ∧
            (name ∉ previous) ∧
            ∀ m : Z, 2 ≤ m < n → t +:+ " " +:+ pretty m ∈ previous).
Proof.
  unfold chosenName. destruct (includes previous t) eqn:Hin.
  - apply includes_true in Hin. intros Hname. right. split; [done|].
    destruct (newDistinctNoteName_spec t previous 2)
      as [(n & Hn & Heq & Hfresh & Hused)|[Heq _]];
      [|by rewrite Heq in Hname].
    rewrite Heq in Hname. injection Hname as <-.
    exists n. unfold MAX_RENAME_COUNT, suffixed in *.
    split; [lia|]. split; [done|]. split; [done|]. exact Hused.
  - apply includes_false in Hin. intros ->. by left.
Qed.

(** C7 (as the code has it). When the notes of a notebook are planned
    without an error, they get pairwise distinct file names [name.md], which
    the record holds under the notebook's path.  A note whose sanitized
    title is not among the names given so far in the notebook gets that
    title; a note whose sanitized title is already used gets the first free
    ["Name n"], n from 2 on, among ALL the names given so far in the
    notebook.  So the notes sharing the sanitized title [t] get [t.md],
    ["t 2.md"], ["t 3.md"], ... in first-seen order provided that no other
    note of the notebook gets a name of that family. *)
Theorem note_file_names newPath notes record noteNames record' :
  planNotes newPath notes record = Ok (noteNames, record') →
  (length noteNames = length notes) ∧
  NoDup ((λ name, name +:+ ".md") <$> noteNames) ∧
  (∀ i note name,
     notes !! i = Some note → noteNames !! i = Some name →
     record' !! note_uuid note = Some (path.join [newPath; name +:+ ".md"])) ∧
  (∀ i note name,
     notes !! i = Some note → noteNames !! i = Some name →
     let t := sanitizeNoteTitle (note_title note) in
     ((t ∉ take i noteNames) ∧ name = t) ∨
     (t ∈ take i noteNames ∧
      ∃ n : Z, 2 ≤ n ≤ 100 ∧ name = t +:+ " " +:+ pretty n ∧
               (name ∉ take i noteNames) ∧
               ∀ m : Z, 2 ≤ m < n →
                        t +:+ " " +:+ pretty m ∈ take i noteNames)) ∧
  (∀ t,
     (∀ i note name,
        notes !! i = Some note → noteNames !! i = Some name →
        sanitizeNoteTitle (note_title note) ≠ t →
        name ≠ t ∧ ∀ k : Z, name ≠ t +:+ " " +:+ pretty k) →
     ∀ i note name,
       notes !! i = Some note → noteNames !! i = Some name →
       sanitizeNoteTitle (note_title note) = t →
       name = nthName t (countTitle t (take i notes))).
Proof.
  intros Hplan. destruct (planNotes_lookup _ _ _ _ _ Hplan) as [Hlen Hchar].
  split; [done|]. split; [|split; [|split]].
  - apply NoDup_fmap_2; [intros ??; apply str_app_inj_r|].
    unfold planNotes in Hplan.
    eapply (planNotes_from_Ok _ _ _ _ _ _ []) in Hplan as (_ & _ & Hnd & _).
    + apply Hnd. constructor.
    + split; [constructor|]. by intros ? ?%elem_of_nil.
  - intros i note name Hnote Hname. by destruct (Hchar _ _ _ Hnote Hname).
  - intros i note name Hnote Hname. cbv zeta.
    destruct (Hchar _ _ _ Hnote Hname) as [_ Hchosen].
    by apply chosenName_first_free.
  - intros t Hothers i note name Hnote Hname Ht.
    eapply (planNotes_sequence t notes noteNames); try done.
    + intros i' note' name' Hnote' Hname'.
      by destruct (Hchar _ _ _ Hnote' Hname').
    + intros i' note' name' Hnote' Hname' Ht'. eapply Hothers; [done..|].
      unfold hasTitle in Ht'. by apply bool_decide_eq_false in Ht'.
    + unfold hasTitle. by apply bool_decide_eq_true.
Qed.

Lemma note_file_names_witness :
  (length ["a"; "a 2"; "a 3"] = length notesSameTitle) ∧
  NoDup ["a.md"; "a 2.md"; "a 3.md"] ∧
  (["a"; "a 2"; "a 3"] !! 2%nat
     = Some (nthName "a" (countTitle "a" (take 2 notesSameTitle)))).
Proof.
  destruct (note_file_names "/out/quiver/NB" notesSameTitle ∅
              ["a"; "a 2"; "a 3"]
              {[ "1" := "/out/quiver/NB/a.md"; "2" := "/out/quiver/NB/a 2.md";
                 "3" := "/out/quiver/NB/a 3.md" ]})
    as (Hlen & Hnodup & _ & _ & Hseq).
  { vm_compute. reflexivity. }
  split; [exact Hlen|]. split; [exact Hnodup|].
  change (Some "a 3" = Some (nthName "a" (countTitle "a" (take 2 notesSameTitle)))).
  apply (f_equal Some). apply (Hseq "a" ltac:(
    intros [|[|[|i]]] note name Hn Hm Hne; simpl in Hn; try discriminate;
    injection Hn as <-; destruct Hne; reflexivity)
    2%nat (mkNote "3" "a")); reflexivity.
Defined.

(** C7, counterexample: the two notes titled a of [notesGap] get a.md and
    "a 3.md", because "a 2" is the title of another note; and the two notes
    titled "b 2" of [notesTaken] get "b 2 2.md" and "b 2 3.md", because
    "b 2" was given to the second note titled b. *)
Lemma note_file_names_not_always_consecutive :
  (planNotes "/out/quiver/NB" notesGap ∅
   = Ok (["a"; "a 2"; "a 3"],
         {[ "1" := "/out/quiver/NB/a.md"; "2" := "/out/quiver/NB/a 2.md";
            "3" := "/out/quiver/NB/a 3.md" ]}) ∧
   (sanitizeNoteTitle <$> (note_title <$> notesGap)) = ["a"; "a 2"; "a"]) ∧
  (planNotes "/out/quiver/NB" notesTaken ∅
   = Ok (["b"; "b 2"; "b 2 2"; "b 2 3"],
         {[ "1" := "/out/quiver/NB/b.md"; "2" := "/out/quiver/NB/b 2.md";
            "3" := "/out/quiver/NB/b 2 2.md";
            "4" := "/out/quiver/NB/b 2 3.md" ]}) ∧
   (sanitizeNoteTitle <$> (note_title <$> notesTaken))
   = ["b"; "b"; "b 2"; "b 2"]).
Proof.
  split; split;
    [exact planNotes_gap|reflexivity|exact planNotes_taken|reflexivity].
Qed.

(* ===================================================================== *)
(** * Characters and strings, continued *)
(* ===================================================================== *)

Ltac ascii_cases x :=
  destruct x as [[] [] [] [] [] [] [] []]; try reflexivity; try discriminate.

Lemma all_app p s t : Str.all p (s +:+ t) = Str.all p s && Str.all p t.
Proof.
  induction s as [|a s IH]; [done|]. rewrite str_app_cons. simpl.
  by rewrite IH, andb_assoc.
Qed.

Lemma all_impl (p q : ascii → bool) s :
  (∀ x, p x = true → q x = true) → Str.all p s = true → Str.all q s = true.
Proof.
  intros Hpq. induction s as [|a s IH]; [done|]. simpl.
  intros [Ha Hs]%andb_prop. by rewrite (Hpq a Ha), IH.
Qed.

Lemma all_and (p q : ascii → bool) s :
  Str.all p s = true → Str.all q s = true →
  Str.all (λ x, p x && q x) s = true.
Proof.
  induction s as [|a s IH]; [done|]. simpl.
  intros [-> Hp]%andb_prop [-> Hq]%andb_prop. by rewrite IH.
Qed.

Lemma any_not_all p s : Str.any p s = true → Str.all (λ x, negb (p x)) s = false.
Proof.
  induction s as [|a s IH]; [done|]. simpl.
  destruct (p a); simpl; [done|]. apply IH.
Qed.

Lemma take_app_length s t : Str.take (String.length s) (s +:+ t) = s.
Proof.
  induction s as [|a s IH]; [by destruct t|]. rewrite str_app_cons. simpl.
  by rewrite IH.
Qed.

Lemma take_length s : Str.take (String.length s) s = s.
Proof. rewrite <- (str_app_nil_r s) at 2. apply take_app_length. Qed.

Lemma drop_app_length s t : Str.drop (String.length s) (s +:+ t) = t.
Proof. induction s as [|a s IH]; [by destruct t|]. by rewrite str_app_cons. Qed.

Lemma drop_length s : Str.drop (String.length s) s = "".
Proof. rewrite <- (str_app_nil_r s) at 2. apply drop_app_length. Qed.

Lemma canon_false x : canon false x = x.
Proof. done. Qed.

Lemma isnt_ne c x : Str.isnt c x = true → c ≠ x.
Proof.
  unfold Str.isnt. intros H ->. by rewrite Ascii.eqb_refl in H.
Qed.

(** Under the [i] flag too, only [.] matches [.] and only [(] matches [(]. *)
Lemma canon_dot ci x : Str.isnt "." x = true → canon ci "." ≠ canon ci x.
Proof. destruct ci; [|apply isnt_ne]. by ascii_cases x. Qed.

Lemma canon_paren ci x : Str.isnt "(" x = true → canon ci "(" ≠ canon ci x.
Proof. destruct ci; [|apply isnt_ne]. by ascii_cases x. Qed.

Lemma upperHex_digitOrUpper x : upperHex x = true → digitOrUpper x = true.
Proof. by ascii_cases x. Qed.

Lemma digitOrUpper_isnt_dot x : digitOrUpper x = true → Str.isnt "." x = true.
Proof. by ascii_cases x. Qed.

Lemma digitOrUpper_isnt_paren x : digitOrUpper x = true → Str.isnt "(" x = true.
Proof. by ascii_cases x. Qed.

Lemma lower_not_digitOrUpper x : lower x = true → digitOrUpper x = false.
Proof. by ascii_cases x. Qed.

(* ===================================================================== *)
(** * The matcher *)
(* ===================================================================== *)

Lemma stripLit_head_ne ci a lit x s :
  canon ci a ≠ canon ci x → stripLit ci (String a lit) (String x s) = None.
Proof. intros H. simpl. by rewrite decide_False. Qed.

Lemma stripLit_app ci lit s : stripLit ci lit (lit +:+ s) = Some s.
Proof.
  induction lit as [|a lit IH]; [by destruct s|]. rewrite str_app_cons. simpl.
  by rewrite decide_True.
Qed.

Lemma stripLit_length ci lit s s' :
  stripLit ci lit s = Some s' →
  String.length s = (String.length lit + String.length s')%nat.
Proof.
  revert s. induction lit as [|a lit IH]; intros [|x s]; simpl; try done.
  - by intros [= <-].
  - by intros [= <-].
  - case_decide; [|done]. intros Hs%IH. lia.
Qed.

Lemma repeat_app n p i s1 s2 c k :
  String.length s1 = n → Str.all p s1 = true →
  repeat n p i (s1 +:+ s2) c k = k (mkState (i + n) s2 c).
Proof.
  revert i s1. induction n as [|n IH]; intros i [|a s1]; simpl; try done.
  - intros _ _. by rewrite Nat.add_0_r.
  - intros [= Hlen] [-> Hs1]%andb_prop. rewrite ?str_app_cons, IH by done.
    do 2 f_equal. lia.
Qed.

Lemma repeat_None n p i s c k :
  String.length s = n → Str.all p s = false → repeat n p i s c k = None.
Proof.
  revert i s. induction n as [|n IH]; intros i [|a s]; simpl; try done.
  intros [= Hlen]. destruct (p a); simpl; [|done]. by apply IH.
Qed.

(** A lazy [c*?] steps over the characters at which the rest of the pattern
    cannot start. *)
Lemma star_lazy_skip (q : ascii → bool) p i s1 s2 c k :
  (∀ i' x s', q x = true → k (mkState i' (String x s') c) = None) →
  Str.all p s1 = true → Str.all q s1 = true →
  star false p i (s1 +:+ s2) c k = star false p (i + String.length s1) s2 c k.
Proof.
  intros Hk. revert i. induction s1 as [|a s1 IH]; intros i; simpl.
  - intros _ _. by rewrite Nat.add_0_r.
  - intros [Hp Hs1]%andb_prop [Hq Hs1']%andb_prop. rewrite ?str_app_cons. simpl.
    rewrite (Hk _ _ _ Hq), Hp, IH by done. f_equal. lia.
Qed.

(** A lazy [c*?] stops where the rest of the pattern matches. *)
Lemma star_lazy_stop p i s c k r :
  k (mkState i s c) = Some r → star false p i s c k = Some r.
Proof. intros Hk. destruct s; simpl; by rewrite Hk. Qed.

(** [c*] and [c*?] fail when the rest of the pattern can start nowhere. *)
Lemma star_None (q : ascii → bool) greedy p i s c k :
  (∀ i', k (mkState i' "" c) = None) →
  (∀ i' x s', q x = true → k (mkState i' (String x s') c) = None) →
  Str.all q s = true →
  star greedy p i s c k = None.
Proof.
  intros Hend Hk. revert i. induction s as [|a s IH]; intros i; simpl.
  - intros _. apply Hend.
  - intros [Hq Hs]%andb_prop. rewrite (Hk _ _ _ Hq), (IH _ Hs).
    by destruct greedy, (p a).
Qed.

(** The defining equations of [run], as rewriting steps. *)
Lemma run_seq ci r1 r2 st k :
  run ci (r1 ⋅ r2) st k = run ci r1 st (λ st1, run ci r2 st1 k).
Proof. done. Qed.

Lemma run_group ci n r st k :
  run ci (Group n r) st k =
  run ci r st
    (λ st1, k (mkState (pos st1) (rest st1)
                 (<[n := Str.take (pos st1 - pos st) (rest st)]> (caps st1)))).
Proof. done. Qed.

Lemma run_star ci greedy p st k :
  run ci (Star greedy p) st k = star greedy p (pos st) (rest st) (caps st) k.
Proof. done. Qed.

Lemma run_repeat ci n p st k :
  run ci (Repeat n p) st k = repeat n p (pos st) (rest st) (caps st) k.
Proof. done. Qed.

Lemma run_alt ci r1 r2 st k :
  run ci (Alt r1 r2) st k =
  match run ci r1 st k with Some res => Some res | None => run ci r2 st k end.
Proof. done. Qed.

Lemma run_bol ci i s c k : run ci Bol (mkState i s c) k =
  if decide (i = 0%nat) then k (mkState i s c) else None.
Proof. done. Qed.

Lemma run_eol ci i s c k : run ci Eol (mkState i s c) k =
  match s with "" => k (mkState i s c) | _ => None end.
Proof. done. Qed.

Lemma run_lit ci lit i s c k :
  run ci (Lit lit) (mkState i s c) k =
  match stripLit ci lit s with
  | Some s' => k (mkState (i + String.length lit) s' c)
  | None => None
  end.
Proof. done. Qed.

Lemma run_lit_app ci lit i s c k :
  run ci (Lit lit) (mkState i (lit +:+ s) c) k =
  k (mkState (i + String.length lit) s c).
Proof. by rewrite run_lit, stripLit_app. Qed.

Lemma run_lit_nil ci i s c k :
  run ci (Lit "") (mkState i s c) k = k (mkState (i + 0) s c).
Proof. by destruct s. Qed.

(** A pattern that starts with a literal character cannot start at another
    character, nor at the end of the input. *)
Lemma run_lit_head_ne ci a lit r i x s c k :
  canon ci a ≠ canon ci x →
  run ci (Lit (String a lit) ⋅ r) (mkState i (String x s) c) k = None.
Proof. intros H. by rewrite run_seq, run_lit, stripLit_head_ne. Qed.

Lemma run_lit_end ci a lit r i c k :
  run ci (Lit (String a lit) ⋅ r) (mkState i "" c) k = None.
Proof. done. Qed.

Ltac run_head :=
  repeat first
    [ rewrite run_seq | rewrite run_group | rewrite run_star
    | rewrite run_repeat | rewrite run_lit_nil ];
  cbn [pos rest caps].

(* ===================================================================== *)
(** * Global replacement *)
(* ===================================================================== *)

Lemma replaceFrom_skip {St} ci r (f : matched → St → string * St) s1 :
  ∀ i s2 st,
    replaceFrom ci r f i (String.length s1) (s1 +:+ s2) st =
    replaceFrom ci r f (i + String.length s1) 0 s2 st.
Proof.
  induction s1 as [|a s1 IH]; intros i s2 st.
  - rewrite str_app_nil_l. simpl String.length. by rewrite Nat.add_0_r.
  - rewrite str_app_cons. simpl. rewrite IH. f_equal. lia.
Qed.

Lemma replaceFrom_miss {St} ci r (f : matched → St → string * St) i a s st :
  exec ci r i (String a s) = None →
  replaceFrom ci r f i 0 (String a s) st =
  let '(tail, st1) := replaceFrom ci r f (S i) 0 s st in (String a tail, st1).
Proof. intros H. simpl. by rewrite H. Qed.

(** A match of [s1] at the start of [s1 s2]: the replacer's output, then
    the replacement of what follows. *)
Lemma replaceFrom_match {St} ci r (f : matched → St → string * St)
    i s1 s2 st res :
  exec ci r i (s1 +:+ s2) = Some res →
  pos res = (i + String.length s1)%nat → s1 ≠ "" →
  replaceFrom ci r f i 0 (s1 +:+ s2) st =
  let '(out, st1) := f (matchedAt i (s1 +:+ s2) res) st in
  let '(tail, st2) := replaceFrom ci r f (i + String.length s1) 0 s2 st1 in
  (out +:+ tail, st2).
Proof.
  intros Hexec Hpos Hne. destruct s1 as [|a s1]; [done|].
  rewrite str_app_cons in *. simpl. rewrite Hexec.
  destruct (f _ st) as [out st1]. rewrite Hpos. simpl String.length.
  replace (i + S (String.length s1) - i - 1)%nat with (String.length s1) by lia.
  rewrite replaceFrom_skip.
  replace (S i + String.length s1)%nat with (i + S (String.length s1))%nat by lia.
  destruct (replaceFrom _ _ _ _ _ s2 st1) as [tail st2].
  rewrite decide_False by lia. done.
Qed.

(** The characters at which the pattern cannot start are copied. *)
Lemma replaceFrom_copy {St} (q : ascii → bool) ci r
    (f : matched → St → string * St) s1 :
  (∀ i x s, q x = true → exec ci r i (String x s) = None) →
  Str.all q s1 = true →
  ∀ i s2 st,
    replaceFrom ci r f i 0 (s1 +:+ s2) st =
    let '(tail, st1) := replaceFrom ci r f (i + String.length s1) 0 s2 st in
    (s1 +:+ tail, st1).
Proof.
  intros Hq. induction s1 as [|a s1 IH]; intros Hs1 i s2 st.
  - rewrite str_app_nil_l. simpl String.length. rewrite Nat.add_0_r.
    by destruct (replaceFrom _ _ _ _ _ s2 st).
  - simpl in Hs1. apply andb_prop in Hs1 as [Ha Hs1].
    rewrite str_app_cons, replaceFrom_miss by by apply Hq.
    rewrite (IH Hs1). simpl String.length.
    replace (S i + String.length s1)%nat with (i + S (String.length s1))%nat by lia.
    by destruct (replaceFrom _ _ _ _ _ s2 st).
Qed.

Lemma replaceFrom_no_match {St} (q : ascii → bool) ci r
    (f : matched → St → string * St) s i st :
  (∀ i x s, q x = true → exec ci r i (String x s) = None) →
  (∀ i, exec ci r i "" = None) →
  Str.all q s = true →
  replaceFrom ci r f i 0 s st = (s, st).
Proof.
  intros Hq Hend Hs. rewrite <- (str_app_nil_r s) at 1.
  rewrite (replaceFrom_copy q) by done. simpl. rewrite Hend.
  by rewrite str_app_nil_r.
Qed.

(** ** Patterns anchored with [^] *)

Lemma exec_bol ci r i s : i ≠ 0%nat → exec ci (Bol ⋅ r) i s = None.
Proof. intros H. unfold exec. by rewrite run_seq, run_bol, decide_False. Qed.

Lemma replaceFrom_anchored {St} ci r (f : matched → St → string * St) s :
  ∀ i k st, replaceFrom ci (Bol ⋅ r) f (S i) k s st = (Str.drop k s, st).
Proof.
  induction s as [|a s IH]; intros i k st.
  - destruct k; cbn [replaceFrom Str.drop]; [|done]. by rewrite exec_bol.
  - destruct k; cbn [replaceFrom Str.drop]; [|apply IH].
    by rewrite exec_bol, IH.
Qed.

(** An anchored pattern replaces at most one match, at index 0. *)
Lemma replace_anchored ci r f s :
  replace ci (Bol ⋅ r) f s =
  match exec ci (Bol ⋅ r) 0 s with
  | None => s
  | Some res => f (matchedAt 0 s res) +:+ Str.drop (pos res) s
  end.
Proof.
  unfold replace, replaceWith. destruct s as [|a s]; cbn [replaceFrom].
  - destruct (exec ci (Bol ⋅ r) 0 "") as [res|]; simpl; [|done].
    destruct (pos res); simpl; by rewrite str_app_nil_r.
  - destruct (exec ci (Bol ⋅ r) 0 (String a s)) as [res|].
    + rewrite replaceFrom_anchored. cbn [fst].
      destruct (pos res) as [|n]; simpl; [done|]. by rewrite Nat.sub_0_r.
    + by rewrite replaceFrom_anchored.
Qed.

(* ===================================================================== *)
(** * Resource names: file mode *)
(* ===================================================================== *)

Example replaceResourceName_query :
  replaceResourceName [] true "9FFEF50881EA1326EA55C1BC43EC9314.png&w=2048&q=75"
  = "9FFEF50881EA1326EA55C1BC43EC9314.png".
Proof. vm_compute. reflexivity. Qed.

Example replaceResourceName_awebp :
  replaceResourceName ["awebp"] true "9FFEF50881EA1326EA55C1BC43EC9314.AWEBP"
  = "9FFEF50881EA1326EA55C1BC43EC9314.png".
Proof. vm_compute. reflexivity. Qed.

Lemma digitOrUpper_dot x : digitOrUpper x = true → dot x = true.
Proof. by ascii_cases x. Qed.

(** Rules 1 and 2 need a [.] in the name. *)
Lemma clearSuffixReg_file_no_dot s :
  Str.all (Str.isnt ".") s = true →
  exec true (clearSuffixReg true) 0 s = None.
Proof.
  intros Hs. unfold exec, clearSuffixReg, prefix, suffix, resourceTag.
  rewrite run_seq, run_bol, decide_True by done. run_head.
  apply (star_None (Str.isnt ".")); [| |done].
  - intros i'. apply run_lit_end.
  - intros i' x s' Hx. apply run_lit_head_ne. by apply canon_dot.
Qed.

Lemma renameAwebpReg_file_no_dot exts s :
  Str.all (Str.isnt ".") s = true →
  exec true (renameAwebpReg exts true) 0 s = None.
Proof.
  intros Hs. unfold exec, renameAwebpReg, prefix, suffix, resourceTag.
  rewrite run_seq, run_bol, decide_True by done. run_head.
  apply (star_None (Str.isnt ".")); [| |done].
  - intros i'. apply run_lit_end.
  - intros i' x s' Hx. apply run_lit_head_ne. by apply canon_dot.
Qed.

Lemma replaceResourceName_file_no_dot exts s :
  Str.all (Str.isnt ".") s = true →
  replaceResourceName exts true s =
  replace false (addDefaultExtReg true) (λ m, group1 m +:+ ".png") s.
Proof.
  intros Hs. unfold replaceResourceName.
  assert (H1 : replace true (clearSuffixReg true) (λ m, group1 m) s = s).
  { unfold clearSuffixReg at 1, prefix. rewrite replace_anchored.
    fold (prefix true). fold (clearSuffixReg true).
    by rewrite clearSuffixReg_file_no_dot. }
  rewrite H1.
  assert (H2 : replace true (renameAwebpReg exts true)
                 (λ m, group1 m +:+ ".png") s = s).
  { unfold renameAwebpReg at 1, prefix. rewrite replace_anchored.
    fold (prefix true). fold (renameAwebpReg exts true).
    by rewrite renameAwebpReg_file_no_dot. }
  rewrite H2. by destruct exts.
Qed.

(** Rule 3 on a name of 32 characters. *)
Lemma addDefaultExtReg_file_32 s :
  String.length s = 32%nat → Str.all digitOrUpper s = true →
  exec false (addDefaultExtReg true) 0 s
  = Some (mkState 32 "" {[1%nat := s]}).
Proof.
  intros Hlen Hs. unfold exec, addDefaultExtReg, prefix, suffix, resourceTag.
  rewrite run_seq, run_bol, decide_True by done. run_head.
  rewrite <- (str_app_nil_r s) at 1. rewrite repeat_app by done.
  cbn [pos rest caps run]. change (0 + 0 + 32 - 0)%nat with 32%nat.
  by rewrite <- Hlen, take_length, insert_empty.
Qed.

Lemma addDefaultExtReg_file_other s :
  String.length s = 32%nat → Str.all digitOrUpper s = false →
  exec false (addDefaultExtReg true) 0 s = None.
Proof.
  intros Hlen Hs. unfold exec, addDefaultExtReg, prefix, suffix, resourceTag.
  rewrite run_seq, run_bol, decide_True by done. run_head.
  by apply repeat_None.
Qed.

Lemma replace_addDefaultExtReg_file f s :
  replace false (addDefaultExtReg true) f s =
  match exec false (addDefaultExtReg true) 0 s with
  | None => s
  | Some res => f (matchedAt 0 s res) +:+ Str.drop (pos res) s
  end.
Proof.
  unfold addDefaultExtReg at 1, prefix. rewrite replace_anchored.
  fold (prefix true). by fold (addDefaultExtReg true).
Qed.

(** The default-extension rule: a name of 32 characters of [[0-9A-Z]] gets
    [.png] appended, whatever extensions are configured. *)
Lemma replaceResourceName_file_32 exts s :
  String.length s = 32%nat → Str.all digitOrUpper s = true →
  replaceResourceName exts true s = s +:+ ".png".
Proof.
  intros Hlen Hs. rewrite replaceResourceName_file_no_dot
    by (eapply all_impl; [apply digitOrUpper_isnt_dot|done]).
  rewrite replace_addDefaultExtReg_file, addDefaultExtReg_file_32 by done.
  unfold group1, group, matchedAt. cbn [m_caps caps pos].
  rewrite lookup_singleton_eq. cbn [default].
  rewrite <- Hlen, drop_length. by rewrite str_app_assoc.
Qed.

(** C10. In file mode the default-extension rule fires for every name of
    exactly 32 characters drawn from the digits and the letters A-Z, not
    only hexadecimal digits (32 times Z gets [.png] too); a 32-character name
    without extension that contains a lowercase letter is left unchanged:
    the class [[0-9A-Z]] is matched case-sensitively. *)
Theorem default_ext_any_digit_or_upper exts name :
  plainExtNames exts →
  String.length name = 32%nat →
  (Str.all digitOrUpper name = true →
   replaceResourceName exts true name = name +:+ ".png") ∧
  (replaceResourceName exts true "ZZZZZZZZZZZZZZZZZZZZZZZZZZZZZZZZ"
   = "ZZZZZZZZZZZZZZZZZZZZZZZZZZZZZZZZ.png") ∧
  (Str.all (Str.isnt ".") name = true → Str.any lower name = true →
   replaceResourceName exts true name = name).
Proof.
  intros _ Hlen. split; [|split].
  - intros Hname. by apply replaceResourceName_file_32.
  - by apply replaceResourceName_file_32.
  - intros Hdot Hlower. rewrite replaceResourceName_file_no_dot by done.
    rewrite replace_addDefaultExtReg_file, addDefaultExtReg_file_other; try done.
    apply any_not_all in Hlower.
    destruct (Str.all digitOrUpper name) eqn:Hall; [|done].
    rewrite <- Hlower. symmetry. apply all_impl with (p := digitOrUpper); [|done].
    intros x Hx. destruct (lower x) eqn:Hl; [|done].
    apply lower_not_digitOrUpper in Hl. congruence.
Qed.

Lemma default_ext_any_digit_or_upper_witness :
  (replaceResourceName ["awebp"] true "0123456789ABCDEFGHIJKLMNOPQRSTUV"
   = "0123456789ABCDEFGHIJKLMNOPQRSTUV" +:+ ".png") ∧
  (replaceResourceName ["awebp"] true "0123456789abcdef0123456789ABCDEF"
   = "0123456789abcdef0123456789ABCDEF").
Proof.
  split.
  - apply (default_ext_any_digit_or_upper ["awebp"]
             "0123456789ABCDEFGHIJKLMNOPQRSTUV");
      [repeat constructor|reflexivity..].
  - apply (default_ext_any_digit_or_upper ["awebp"]
             "0123456789abcdef0123456789ABCDEF");
      [repeat constructor|reflexivity..].
Defined.

(* ===================================================================== *)
(** * Resource names: applying the file-mode rules twice *)
(* ===================================================================== *)

Lemma run_alts_Some ci l st k res :
  run ci (alts l) st k = Some res →
  ∃ e s', stripLit ci e (rest st) = Some s' ∧
          k (mkState (pos st + String.length e) s' (caps st)) = Some res.
Proof.
  destruct st as [i s c]. induction l as [|x l IH]; simpl alts.
  - rewrite run_lit. destruct (stripLit ci "" s) as [s'|] eqn:Hs; [|done].
    intros Hk. by exists "", s'.
  - destruct l as [|y l].
    + rewrite run_lit. destruct (stripLit ci x s) as [s'|] eqn:Hs; [|done].
      intros Hk. by exists x, s'.
    + rewrite run_alt, run_lit.
      destruct (stripLit ci x s) as [s'|] eqn:Hs.
      * destruct (k _) as [r|] eqn:Hk; [|apply IH].
        intros [= <-]. by exists x, s'.
      * apply IH.
Qed.

(** Rule 1 on [stem.png]: there is nothing after the extension. *)
Lemma clearSuffixReg_file_png stem :
  String.length stem = 32%nat → Str.all digitOrUpper stem = true →
  exec true (clearSuffixReg true) 0 (stem +:+ ".png") = None.
Proof.
  intros Hlen Hs. unfold exec, clearSuffixReg, prefix, suffix, resourceTag.
  rewrite run_seq, run_bol, decide_True by done. run_head.
  rewrite (star_lazy_skip (Str.isnt ".")).
  - rewrite Hlen. vm_compute. reflexivity.
  - intros i' x s' Hx. apply run_lit_head_ne. by apply canon_dot.
  - eapply all_impl; [apply digitOrUpper_dot|done].
  - eapply all_impl; [apply digitOrUpper_isnt_dot|done].
Qed.

(** Rule 2 on [stem.png]: a match, if any, is the whole name with [stem] as
    its first group. *)
Lemma renameAwebpReg_file_png exts stem res :
  String.length stem = 32%nat → Str.all digitOrUpper stem = true →
  exec true (renameAwebpReg exts true) 0 (stem +:+ ".png") = Some res →
  pos res = 36%nat ∧ caps res !! 1%nat = Some stem.
Proof.
  intros Hlen Hs. unfold exec, renameAwebpReg, prefix, suffix, resourceTag.
  rewrite run_seq, run_bol, decide_True by done. run_head.
  rewrite (star_lazy_skip (Str.isnt ".")).
  2: { intros i' x s' Hx. apply run_lit_head_ne. by apply canon_dot. }
  2: { eapply all_impl; [apply digitOrUpper_dot|done]. }
  2: { eapply all_impl; [apply digitOrUpper_isnt_dot|done]. }
  rewrite Hlen. change (0 + 0 + 32)%nat with 32%nat.
  cbn [star]. cbn [pos rest caps].
  assert (Htake : Str.take (32 - 0) (stem +:+ ".png") = stem).
  { change (32 - 0)%nat with 32%nat. rewrite <- Hlen. apply take_app_length. }
  rewrite Htake. clear Htake.
  change ".png" with ("." +:+ "png") at 1.
  rewrite run_seq, run_lit_app. cbn [String.length].
  rewrite run_seq, run_group. cbn [pos rest caps].
  destruct (run true (alts exts) _ _) as [r|] eqn:Hrun.
  - intros [= <-]. apply run_alts_Some in Hrun as (e & s' & He & Hk).
    cbn [pos rest caps] in He, Hk. rewrite run_eol in Hk.
    destruct s' as [|? ?]; [|done]. injection Hk as <-.
    apply stripLit_length in He. simpl in He. cbn [pos caps].
    split; [lia|]. rewrite lookup_insert_ne by done.
    by rewrite lookup_insert_eq.
  - rewrite !run_lit_head_ne by (vm_compute; congruence).
    rewrite run_lit_end. by repeat case_match.
Qed.

(** Rule 3 on [stem.png]: the name is longer than 32 characters. *)
Lemma addDefaultExtReg_file_png stem :
  String.length stem = 32%nat → Str.all digitOrUpper stem = true →
  exec false (addDefaultExtReg true) 0 (stem +:+ ".png") = None.
Proof.
  intros Hlen Hs. unfold exec, addDefaultExtReg, prefix, suffix, resourceTag.
  rewrite run_seq, run_bol, decide_True by done. run_head.
  by rewrite repeat_app.
Qed.

Lemma replaceResourceName_file_png exts stem :
  String.length stem = 32%nat → Str.all digitOrUpper stem = true →
  replaceResourceName exts true (stem +:+ ".png") = stem +:+ ".png".
Proof.
  intros Hlen Hs. unfold replaceResourceName.
  assert (H1 : replace true (clearSuffixReg true) (λ m, group1 m)
                 (stem +:+ ".png") = stem +:+ ".png").
  { unfold clearSuffixReg at 1, prefix. rewrite replace_anchored.
    fold (prefix true). fold (clearSuffixReg true).
    by rewrite clearSuffixReg_file_png. }
  rewrite H1.
  assert (H2 : replace true (renameAwebpReg exts true)
                 (λ m, group1 m +:+ ".png") (stem +:+ ".png")
               = stem +:+ ".png").
  { unfold renameAwebpReg at 1, prefix. rewrite replace_anchored.
    fold (prefix true). fold (renameAwebpReg exts true).
    destruct (exec true (renameAwebpReg exts true) 0 _) as [res|] eqn:Hexec;
      [|done].
    destruct (renameAwebpReg_file_png _ _ _ Hlen Hs Hexec) as [Hpos Hcap].
    unfold group1, group, matchedAt. cbn [m_caps]. rewrite Hcap, Hpos.
    cbn [default].
    replace 36%nat with (String.length (stem +:+ ".png"))
      by (rewrite str_length_app, Hlen; done).
    by rewrite drop_length, str_app_nil_r. }
  assert (H3 : replace false (addDefaultExtReg true)
                 (λ m, group1 m +:+ ".png") (stem +:+ ".png")
               = stem +:+ ".png").
  { by rewrite replace_addDefaultExtReg_file, addDefaultExtReg_file_png. }
  destruct exts; [by rewrite H3|by rewrite H2, H3].
Qed.

(** C8. In file mode (with any configured extension names) a name with no
    extension whose stem is 32 uppercase hexadecimal characters gets exactly
    [.png] appended, and normalizing the result again changes nothing. *)
Theorem hex_name_gets_png_once exts stem :
  plainExtNames exts →
  String.length stem = 32%nat → Str.all upperHex stem = true →
  (replaceResourceName exts true stem = stem +:+ ".png") ∧
  (replaceResourceName exts true (replaceResourceName exts true stem)
   = replaceResourceName exts true stem).
Proof.
  intros _ Hlen Hhex.
  assert (Hs : Str.all digitOrUpper stem = true)
    by (eapply all_impl; [apply upperHex_digitOrUpper|done]).
  rewrite replaceResourceName_file_32 by done. split; [done|].
  by apply replaceResourceName_file_png.
Qed.

Lemma hex_name_gets_png_once_witness :
  (replaceResourceName ["png"; "awebp"] true "BC8755B05A094564A25EA19E438B73B3"
   = "BC8755B05A094564A25EA19E438B73B3" +:+ ".png") ∧
  (replaceResourceName ["png"; "awebp"] true
     (replaceResourceName ["png"; "awebp"] true "BC8755B05A094564A25EA19E438B73B3")
   = replaceResourceName ["png"; "awebp"] true "BC8755B05A094564A25EA19E438B73B3").
Proof.
  apply (hex_name_gets_png_once ["png"; "awebp"]
           "BC8755B05A094564A25EA19E438B73B3");
    [repeat constructor|reflexivity..].
Defined.

(* ===================================================================== *)
(** * Resource names: content mode *)
(* ===================================================================== *)

Example replaceResourceName_content :
  replaceResourceName [] false
    "![](_resources/BC8755B05A094564A25EA19E438B73B3) _resources/BC8755B05A094564A25EA19E438B73B3"
  = "![](_resources/BC8755B05A094564A25EA19E438B73B3.png) _resources/BC8755B05A094564A25EA19E438B73B3".
Proof. vm_compute. reflexivity. Qed.

Lemma exec_paren_ne ci r i x s :
  Str.isnt "(" x = true → exec ci (Lit "(" ⋅ r) i (String x s) = None.
Proof. intros H. apply run_lit_head_ne. by apply canon_paren. Qed.

Lemma exec_paren_end ci r i : exec ci (Lit "(" ⋅ r) i "" = None.
Proof. done. Qed.

(** A pattern that starts with [\(] changes nothing in a text without [(]. *)
Lemma replace_no_paren ci r f s :
  Str.all (Str.isnt "(") s = true → replace ci (Lit "(" ⋅ r) f s = s.
Proof.
  intros Hs. unfold replace, replaceWith.
  rewrite (replaceFrom_no_match (Str.isnt "(")); [done| | |done].
  - intros. by apply exec_paren_ne.
  - intros. apply exec_paren_end.
Qed.

(** ... and nothing in a text whose only [(] is not the start of a match. *)
Lemma replace_paren_miss ci r f pre s :
  Str.all (Str.isnt "(") pre = true → Str.all (Str.isnt "(") s = true →
  exec ci (Lit "(" ⋅ r) (String.length pre) ("(" +:+ s) = None →
  replace ci (Lit "(" ⋅ r) f (pre +:+ "(" +:+ s) = pre +:+ "(" +:+ s.
Proof.
  intros Hpre Hs Hexec. unfold replace, replaceWith.
  rewrite (replaceFrom_copy (Str.isnt "(")); [| |done].
  2: { intros. by apply exec_paren_ne. }
  rewrite str_app_cons, str_app_nil_l in *.
  rewrite replaceFrom_miss by done.
  rewrite (replaceFrom_no_match (Str.isnt "(")); [done| | |done].
  - intros. by apply exec_paren_ne.
  - intros. apply exec_paren_end.
Qed.

Lemma clearSuffixReg_content_no_dot i t :
  Str.all (Str.isnt ".") t = true →
  exec true (clearSuffixReg false) i ("(" +:+ "_resources/" +:+ t) = None.
Proof.
  intros Hs. unfold exec, clearSuffixReg, prefix, suffix, resourceTag.
  rewrite run_seq, run_lit_app. rewrite run_seq, run_group, run_seq.
  cbn [pos rest caps]. rewrite run_lit_app. run_head.
  apply (star_None (Str.isnt ".")); [| |done].
  - intros i'. apply run_lit_end.
  - intros i' x s' Hx. apply run_lit_head_ne. by apply canon_dot.
Qed.

Lemma renameAwebpReg_content_no_dot exts i t :
  Str.all (Str.isnt ".") t = true →
  exec true (renameAwebpReg exts false) i ("(" +:+ "_resources/" +:+ t) = None.
Proof.
  intros Hs. unfold exec, renameAwebpReg, prefix, suffix, resourceTag.
  rewrite run_seq, run_lit_app. rewrite run_seq, run_group, run_seq.
  cbn [pos rest caps]. rewrite run_lit_app. run_head.
  apply (star_None (Str.isnt ".")); [| |done].
  - intros i'. apply run_lit_end.
  - intros i' x s' Hx. apply run_lit_head_ne. by apply canon_dot.
Qed.

Lemma addDefaultExtReg_content_32 i stem post :
  String.length stem = 32%nat → Str.all digitOrUpper stem = true →
  ∃ res,
    exec false (addDefaultExtReg false) i
      ("(" +:+ "_resources/" +:+ stem +:+ ")" +:+ post) = Some res ∧
    pos res = (i + 45)%nat ∧
    caps res !! 1%nat = Some ("_resources/" +:+ stem).
Proof.
  intros Hlen Hs. unfold exec, addDefaultExtReg, prefix, suffix, resourceTag.
  rewrite run_seq, run_lit_app. rewrite run_seq, run_group, run_seq.
  cbn [pos rest caps]. rewrite run_lit_app.
  rewrite run_repeat. cbn [pos rest caps]. rewrite repeat_app by done.
  cbn [pos rest caps]. rewrite run_lit_app.
  eexists. split; [done|]. cbn [pos caps String.length]. split; [lia|].
  rewrite lookup_insert_eq. f_equal.
  replace (i + 1 + 11 + 32 - (i + 1))%nat
    with (String.length ("_resources/" +:+ stem))
    by (rewrite str_length_app, Hlen; simpl; lia).
  by rewrite <- str_app_assoc, take_app_length.
Qed.

Lemma all_isnt_literal c lit : Str.all (Str.isnt c) lit = true →
  ∀ s, Str.all (Str.isnt c) s = true → Str.all (Str.isnt c) (lit +:+ s) = true.
Proof. intros Hl s Hs. by rewrite all_app, Hl, Hs. Qed.

(** The default-extension rule on a parenthesized reference inside a text
    with no other parenthesis and no [.] after it. *)
Lemma replaceResourceName_content_32 exts pre stem post :
  String.length stem = 32%nat → Str.all digitOrUpper stem = true →
  Str.all (Str.isnt "(") pre = true →
  Str.all (λ x, Str.isnt "(" x && Str.isnt "." x) post = true →
  replaceResourceName exts false (pre +:+ "(_resources/" +:+ stem +:+ ")" +:+ post)
  = pre +:+ "(_resources/" +:+ stem +:+ ".png)" +:+ post.
Proof.
  intros Hlen Hs Hpre Hpost.
  assert (Hpost1 : Str.all (Str.isnt "(") post = true).
  { eapply all_impl; [|exact Hpost]. by intros x [? _]%andb_prop. }
  assert (Hpost2 : Str.all (Str.isnt ".") post = true).
  { eapply all_impl; [|exact Hpost]. by intros x [_ ?]%andb_prop. }
  assert (Hstem1 : Str.all (Str.isnt "(") stem = true)
    by (eapply all_impl; [apply digitOrUpper_isnt_paren|done]).
  assert (Hstem2 : Str.all (Str.isnt ".") stem = true)
    by (eapply all_impl; [apply digitOrUpper_isnt_dot|done]).
  change ("(_resources/" +:+ stem +:+ ")" +:+ post)
    with ("(" +:+ "_resources/" +:+ stem +:+ ")" +:+ post).
  assert (Hin : Str.all (Str.isnt "(") ("_resources/" +:+ stem +:+ ")" +:+ post)
                = true).
  { apply all_isnt_literal; [done|]. rewrite all_app, Hstem1.
    by apply all_isnt_literal. }
  assert (Hdot : Str.all (Str.isnt ".") (stem +:+ ")" +:+ post) = true).
  { rewrite all_app, Hstem2. by apply all_isnt_literal. }
  unfold replaceResourceName.
  assert (H1 : ∀ f, replace true (clearSuffixReg false) f
                 (pre +:+ "(" +:+ "_resources/" +:+ stem +:+ ")" +:+ post)
               = pre +:+ "(" +:+ "_resources/" +:+ stem +:+ ")" +:+ post).
  { intros f. apply (replace_paren_miss true _ f pre); [done..|].
    by apply clearSuffixReg_content_no_dot. }
  assert (H2 : ∀ f, replace true (renameAwebpReg exts false) f
                 (pre +:+ "(" +:+ "_resources/" +:+ stem +:+ ")" +:+ post)
               = pre +:+ "(" +:+ "_resources/" +:+ stem +:+ ")" +:+ post).
  { intros f. apply (replace_paren_miss true _ f pre); [done..|].
    by apply renameAwebpReg_content_no_dot. }
  rewrite H1.
  assert (H3 : replace false (addDefaultExtReg false)
                 (λ m, "(" +:+ group1 m +:+ ".png)")
                 (pre +:+ "(" +:+ "_resources/" +:+ stem +:+ ")" +:+ post)
               = pre +:+ "(_resources/" +:+ stem +:+ ".png)" +:+ post).
  { unfold replace, replaceWith.
    rewrite (replaceFrom_copy (Str.isnt "(")); [| |done].
    2: { intros. by apply exec_paren_ne. }
    cbn [Nat.add].
    destruct (addDefaultExtReg_content_32 (String.length pre) stem post Hlen Hs)
      as (res & Hexec & Hpos & Hcap).
    assert (E : "(" +:+ "_resources/" +:+ stem +:+ ")" +:+ post
                = ("(_resources/" +:+ stem +:+ ")") +:+ post).
    { change ("(_resources/" +:+ stem +:+ ")")
        with ("(" +:+ "_resources/" +:+ (stem +:+ ")")).
      by rewrite !str_app_assoc. }
    rewrite E in Hexec |- *.
    assert (Hl : String.length ("(_resources/" +:+ stem +:+ ")") = 45%nat).
    { change ("(_resources/" +:+ stem +:+ ")")
        with ("(_resources/" +:+ (stem +:+ ")")).
      rewrite !str_length_app, Hlen. done. }
    erewrite (replaceFrom_match false _ _ _ ("(_resources/" +:+ stem +:+ ")"));
      [|exact Hexec|by rewrite Hl|done].
    unfold group1, group, matchedAt. cbn [m_caps]. rewrite Hcap. cbn [default].
    rewrite (replaceFrom_no_match (Str.isnt "(")); [| | |done].
    2: { intros. by apply exec_paren_ne. }
    2: { intros. apply exec_paren_end. }
    cbn [fst]. f_equal. change ("(_resources/" +:+ stem +:+ ".png)" +:+ post)
      with ("(" +:+ "_resources/" +:+ stem +:+ ".png)" +:+ post).
    by rewrite !str_app_assoc. }
  destruct exts; [exact H3|]. rewrite H2. exact H3.
Qed.

(** C9 (as the code has it). In content mode the three patterns of the
    Resource Namer are delimited by a literal [(] and [)]: they apply to
    parenthesis-delimited references only.  A text without [(], so any bare
    occurrence of the resource prefix, is returned unchanged, while the
    parenthesized [(_resources/<32 characters of 0-9A-Z>)] has [.png]
    appended. *)
Theorem namer_content_mode_parenthesized_only exts :
  plainExtNames exts →
  (∀ data, Str.all (Str.isnt "(") data = true →
           replaceResourceName exts false data = data) ∧
  (∀ pre stem post,
     String.length stem = 32%nat → Str.all digitOrUpper stem = true →
     Str.all (Str.isnt "(") pre = true →
     Str.all (λ x, Str.isnt "(" x && Str.isnt "." x) post = true →
     replaceResourceName exts false
       (pre +:+ "(_resources/" +:+ stem +:+ ")" +:+ post)
     = pre +:+ "(_resources/" +:+ stem +:+ ".png)" +:+ post).
Proof.
  intros _. split.
  - intros data Hdata. unfold replaceResourceName.
    assert (H1 : ∀ f, replace true (clearSuffixReg false) f data = data).
    { intros f. by apply replace_no_paren. }
    assert (H2 : ∀ f, replace true (renameAwebpReg exts false) f data = data).
    { intros f. by apply replace_no_paren. }
    assert (H3 : ∀ f, replace false (addDefaultExtReg false) f data = data).
    { intros f. by apply replace_no_paren. }
    rewrite H1. destruct exts; [apply H3|]. rewrite H2. apply H3.
  - intros pre stem post. apply replaceResourceName_content_32.
Qed.

Lemma namer_content_mode_parenthesized_only_witness :
  (replaceResourceName ["awebp"] false
     "see _resources/BC8755B05A094564A25EA19E438B73B3 and more"
   = "see _resources/BC8755B05A094564A25EA19E438B73B3 and more") ∧
  (replaceResourceName ["awebp"] false
     ("![]" +:+ "(_resources/" +:+ "BC8755B05A094564A25EA19E438B73B3" +:+ ")"
      +:+ " and more")
   = "![]" +:+ "(_resources/" +:+ "BC8755B05A094564A25EA19E438B73B3" +:+ ".png)"
     +:+ " and more").
Proof.
  destruct (namer_content_mode_parenthesized_only ["awebp"]) as [Hbare Hparen];
    [repeat constructor|].
  split.
  - apply Hbare. reflexivity.
  - apply Hparen; reflexivity.
Defined.

(** C9, counterexample: the bare reference is left as it is by the Resource
    Namer, the parenthesized one gets [.png]. *)
Lemma namer_content_mode_bare_unchanged :
  (replaceResourceName [] false "_resources/BC8755B05A094564A25EA19E438B73B3"
   = "_resources/BC8755B05A094564A25EA19E438B73B3") ∧
  (replaceResourceName [] false "(_resources/BC8755B05A094564A25EA19E438B73B3)"
   = "(_resources/BC8755B05A094564A25EA19E438B73B3.png)") ∧
  (transformQuiverResourceAndNoteLink [] ∅ ∅
     "quiver-image-url/BC8755B05A094564A25EA19E438B73B3 ![](quiver-image-url/BC8755B05A094564A25EA19E438B73B3)"
     (mkNote "N" "t") []
   = ("_resources/BC8755B05A094564A25EA19E438B73B3 ![](_resources/BC8755B05A094564A25EA19E438B73B3.png)",
      [])).
Proof. repeat split; vm_compute; reflexivity. Qed.

(* ===================================================================== *)
(** * Matching does not depend on the index *)
(* ===================================================================== *)

Lemma star_ext greedy p s : ∀ i c (k1 k2 : cont),
  (∀ st, k1 st = k2 st) → star greedy p i s c k1 = star greedy p i s c k2.
Proof.
  induction s as [|a s IH]; intros i c k1 k2 Hk; simpl; [apply Hk|].
  by rewrite (IH _ _ _ _ Hk), Hk.
Qed.

Lemma repeat_ext n p : ∀ i s c (k1 k2 : cont),
  (∀ st, k1 st = k2 st) → repeat n p i s c k1 = repeat n p i s c k2.
Proof.
  induction n as [|n IH]; intros i s c k1 k2 Hk; simpl; [apply Hk|].
  destruct s as [|a s]; [done|]. destruct (p a); [by apply IH|done].
Qed.

Lemma run_ext ci r : ∀ st (k1 k2 : cont),
  (∀ st, k1 st = k2 st) → run ci r st k1 = run ci r st k2.
Proof.
  induction r as [lit|p|r1 IH1 r2 IH2|r1 IH1 r2 IH2|g p|n p|r IH|n r IH| |];
    intros st k1 k2 Hk; simpl.
  - destruct (stripLit ci lit (rest st)); [apply Hk|done].
  - destruct (rest st) as [|a s']; [done|]. destruct (p a); [apply Hk|done].
  - apply IH1. intros st1. by apply IH2.
  - by rewrite (IH1 _ _ _ Hk), (IH2 _ _ _ Hk).
  - by apply star_ext.
  - by apply repeat_ext.
  - rewrite Hk. erewrite IH; [done|]. intros st1. simpl. by rewrite Hk.
  - apply IH. intros st1. apply Hk.
  - by rewrite Hk.
  - by rewrite Hk.
Qed.

Lemma star_shift d greedy p s : ∀ i c (k : cont),
  star greedy p (i + d) s c k = star greedy p i s c (λ st, k (shift d st)).
Proof.
  induction s as [|a s IH]; intros i c k; simpl; [done|].
  change (S (i + d)) with (S i + d)%nat. by rewrite IH.
Qed.

Lemma repeat_shift d n p : ∀ i s c (k : cont),
  repeat n p (i + d) s c k = repeat n p i s c (λ st, k (shift d st)).
Proof.
  induction n as [|n IH]; intros i s c k; simpl; [done|].
  destruct s as [|a s]; [done|]. change (S (i + d)) with (S i + d)%nat.
  by rewrite IH.
Qed.

Lemma run_shift ci d r : noBol r = true → ∀ st (k : cont),
  run ci r (shift d st) k = run ci r st (λ st', k (shift d st')).
Proof.
  induction r as [lit|p|r1 IH1 r2 IH2|r1 IH1 r2 IH2|g p|n p|r IH|n r IH| |];
    intros Hr st k; simpl in Hr |- *.
  - destruct (stripLit ci lit (rest st)); [|done]. unfold shift. simpl.
    do 2 f_equal. lia.
  - by destruct (rest st) as [|a s'].
  - apply andb_prop in Hr as [Hr1 Hr2]. rewrite IH1 by done.
    apply run_ext. intros st1. by apply IH2.
  - apply andb_prop in Hr as [Hr1 Hr2]. by rewrite IH1, IH2.
  - apply star_shift.
  - apply repeat_shift.
  - rewrite IH by done.
    erewrite run_ext; [done|]. intros st1. simpl.
    destruct (decide (pos st1 + d = pos st + d)%nat),
             (decide (pos st1 = pos st)); try done; lia.
  - rewrite IH by done. apply run_ext. intros st1. unfold shift. simpl.
    do 4 f_equal. lia.
  - done.
  - by destruct (rest st).
Qed.

Lemma star_fmap (g : mstate → mstate) greedy p s : ∀ i c (k : cont),
  star greedy p i s c (λ st, g <$> k st) = g <$> star greedy p i s c k.
Proof.
  induction s as [|a s IH]; intros i c k; simpl; [done|].
  rewrite IH. destruct greedy, (p a); simpl; try done.
  - by destruct (star true p (S i) s c k).
  - by destruct (k _).
  - by destruct (k _).
Qed.

Lemma repeat_fmap (g : mstate → mstate) n p : ∀ i s c (k : cont),
  repeat n p i s c (λ st, g <$> k st) = g <$> repeat n p i s c k.
Proof.
  induction n as [|n IH]; intros i s c k; simpl; [done|].
  destruct s as [|a s]; [done|]. destruct (p a); [apply IH|done].
Qed.

Lemma run_fmap (g : mstate → mstate) ci r : ∀ st (k : cont),
  run ci r st (λ st', g <$> k st') = g <$> run ci r st k.
Proof.
  induction r as [lit|p|r1 IH1 r2 IH2|r1 IH1 r2 IH2|gr p|n p|r IH|n r IH| |];
    intros st k; simpl.
  - by destruct (stripLit ci lit (rest st)).
  - destruct (rest st) as [|a s']; [done|]. by destruct (p a).
  - rewrite <- IH1. apply run_ext. intros st1. apply IH2.
  - rewrite IH1, IH2. by destruct (run ci r1 st k).
  - apply star_fmap.
  - apply repeat_fmap.
  - assert (E : run ci r st
                  (λ st1, if decide (pos st1 = pos st) then None
                          else g <$> k st1)
                = g <$> run ci r st
                    (λ st1, if decide (pos st1 = pos st) then None
                            else k st1)).
    { rewrite <- IH. apply run_ext. intros st1. by destruct (decide _). }
    rewrite E.
    by destruct (run ci r st
                   (λ st1, if decide (pos st1 = pos st) then None else k st1)).
  - apply IH.
  - by destruct (decide _).
  - by destruct (rest st).
Qed.

Lemma exec_shift ci d r i s :
  noBol r = true → exec ci r (i + d) s = shift d <$> exec ci r i s.
Proof.
  intros Hr. unfold exec.
  change (mkState (i + d) s ∅) with (shift d (mkState i s ∅)).
  rewrite run_shift by done. apply (run_fmap (shift d) ci r _ Some).
Qed.

Lemma replaceFrom_shift {St} ci r (f : matched → St → string * St) d s :
  noBol r = true →
  ∀ i k st, replaceFrom ci r f (i + d) k s st = replaceFrom ci r f i k s st.
Proof.
  intros Hr. induction s as [|a s IH]; intros i k st.
  - destruct k; cbn [replaceFrom]; [|done]. rewrite exec_shift by done.
    destruct (exec ci r i "") as [res|]; cbn [fmap option_fmap option_map]; [|done].
    unfold matchedAt, shift. cbn [pos caps].
    by replace (pos res + d - (i + d))%nat with (pos res - i)%nat by lia.
  - destruct k; cbn [replaceFrom].
    + rewrite exec_shift by done. change (S (i + d)) with (S i + d)%nat.
      destruct (exec ci r i (String a s)) as [res|];
        cbn [fmap option_fmap option_map].
      * unfold matchedAt, shift. cbn [pos caps].
        replace (pos res + d - (i + d))%nat with (pos res - i)%nat by lia.
        destruct (f _ st) as [out st1]. rewrite IH.
        replace (pos res - i - 1)%nat with (pos res - i - 1)%nat by lia.
        destruct (replaceFrom _ _ _ _ _ s st1) as [tail st2].
        destruct (decide (pos res + d = i + d)%nat),
                 (decide (pos res = i)); try done; lia.
      * by rewrite IH.
    + change (S (i + d)) with (S i + d)%nat. apply IH.
Qed.

(* ===================================================================== *)
(** * Note links *)
(* ===================================================================== *)


Example cellLinked_rewritten :
  transformQuiverResourceAndNoteLink [] ∅
    {[ "D2A1CC36-CC97-4701-A895-EFC98EF47026" := "/out/quiver/Work/Title.md";
       "0B5FDF0E-1FA0-4E6C-9C2C-3B5D1A0E8F11" := "/out/quiver/Work/Index.md" ]}
    cellLinked (mkNote "0B5FDF0E-1FA0-4E6C-9C2C-3B5D1A0E8F11" "Index") []
  = ("see  [[Title.md]] and  [[FFFFFFFF-0000-4000-8000-000000000000]].",
     [mkBrokenLink "Index" "0B5FDF0E-1FA0-4E6C-9C2C-3B5D1A0E8F11"
        "FFFFFFFF-0000-4000-8000-000000000000"]).
Proof. vm_compute. reflexivity. Qed.

Lemma isUuid_length uuid : isUuid uuid → String.length uuid = 36%nat.
Proof.
  intros (a & b & c & d & e & -> & (Ha & Hb & Hc & Hd & He) & _).
  rewrite !str_length_app, Ha, Hb, Hc, Hd, He. done.
Qed.

(** The UUID pattern consumes a UUID. *)
Lemma run_uuidReg uuid i tail c k :
  isUuid uuid →
  run false uuidReg (mkState i (uuid +:+ tail) c) k
  = k (mkState (i + 36) tail c).
Proof.
  intros (a & b & c' & d & e & -> & (Ha & Hb & Hc & Hd & He)
          & Ha' & Hb' & Hc' & Hd' & He').
  rewrite !str_app_assoc. unfold uuidReg.
  rewrite run_seq, run_repeat. cbn [pos rest caps]. rewrite repeat_app by done.
  rewrite run_seq, run_lit_app.
  rewrite run_seq, run_repeat. cbn [pos rest caps]. rewrite repeat_app by done.
  rewrite run_seq, run_lit_app.
  rewrite run_seq, run_repeat. cbn [pos rest caps]. rewrite repeat_app by done.
  rewrite run_seq, run_lit_app.
  rewrite run_seq, run_repeat. cbn [pos rest caps]. rewrite repeat_app by done.
  rewrite run_seq, run_lit_app.
  rewrite run_repeat. cbn [pos rest caps]. rewrite repeat_app by done.
  cbn [String.length]. do 2 f_equal. lia.
Qed.

(** The scheme alternatives consume a scheme when the rest matches. *)
Lemma run_noteScheme scheme i tail c k res :
  isNoteScheme scheme →
  k (mkState (i + String.length scheme) tail c) = Some res →
  run false (Alt (Lit "quiver-note-url") (Lit "quiver:///notes"))
    (mkState i (scheme +:+ tail) c) k = Some res.
Proof.
  intros [->| ->] Hk; rewrite run_alt.
  - by rewrite run_lit_app, Hk.
  - assert (Hfirst : run false (Lit "quiver-note-url")
                       (mkState i ("quiver:///notes" +:+ tail) c) k = None)
      by reflexivity.
    by rewrite Hfirst, run_lit_app, Hk.
Qed.

Lemma linkText_app label scheme uuid post :
  linkText label scheme uuid +:+ post
  = "[" +:+ label +:+ "](" +:+ scheme +:+ "/" +:+ uuid +:+ ")" +:+ post.
Proof. unfold linkText. by rewrite !str_app_assoc. Qed.

Lemma exec_bracket_ne r i x s :
  Str.isnt "[" x = true → exec false (Lit "[" ⋅ r) i (String x s) = None.
Proof.
  intros H. apply run_lit_head_ne. rewrite !canon_false. by apply isnt_ne.
Qed.

Lemma noteLinkReplacer_uuid record note m uuid brokenLinks :
  group 2 m = Some uuid →
  noteLinkReplacer record note m brokenLinks
  = (" [[" +:+ linkTarget record uuid +:+ "]]",
     brokenLinks ++ linkBroken record note uuid).
Proof.
  intros Hm. unfold noteLinkReplacer, linkTarget, linkBroken. rewrite Hm.
  cbn [from_option id].
  by destruct (record !! uuid) as [[|c p]|]; rewrite ?app_nil_r.
Qed.

Lemma transform_rewriteResources needReplaceExtNames currentNoteResourceMap
    newNotePathRecord data note brokenLinks :
  transformQuiverResourceAndNoteLink needReplaceExtNames currentNoteResourceMap
    newNotePathRecord data note brokenLinks
  = replaceNoteLinks newNotePathRecord note
      (rewriteResources needReplaceExtNames currentNoteResourceMap data)
      brokenLinks.
Proof. reflexivity. Qed.



Lemma wholeLines_suffix l1 l2 :
  wholeLines (l1 +:+ l2) = true → l2 ≠ "" → wholeLines l2 = true.
Proof.
  induction l1 as [|a l1 IH]; [done|]. rewrite str_app_cons. intros H Hl2.
  apply IH; [|done]. destruct (l1 +:+ l2) as [|b t] eqn:E; [|done].
  destruct l1; [|done]. by rewrite str_app_nil_l in E.
Qed.

Lemma wholeLines_last s :
  wholeLines s = true → s ≠ "" →
  ∃ w x, s = w +:+ String x "" ∧ Str.isLineTerminator x = true.
Proof.
  induction s as [|a s IH]; [done|]. intros H _.
  destruct s as [|b s].
  - by exists "", a.
  - destruct IH as (w & x & -> & Hx); [done..|].
    exists (String a w), x. by rewrite str_app_cons.
Qed.

(* ===================================================================== *)
(** * The matcher: characters a match does not go over *)
(* ===================================================================== *)

(** No match of the pattern holds the character [x]. *)
Fixpoint avoids (x : ascii) (ci : bool) (r : regex) : bool :=
  match r with
  | Lit s => Str.all (λ a, bool_decide (canon ci a ≠ canon ci x)) s
  | Class p | Star _ p | Repeat _ p => negb (p x)
  | Seq r1 r2 | Alt r1 r2 => avoids x ci r1 && avoids x ci r2
  | Opt r | Group _ r => avoids x ci r
  | Bol | Eol => true
  end.

(** What follows [x] does not matter to the rest of the pattern. *)
Definition cutAt (x : ascii) (s2 u : string) (k k' : cont) : Prop :=
  ∀ s1 i c c',
    is_Some (k (mkState i (s1 +:+ String x s2) c)) →
    is_Some (k' (mkState i (s1 +:+ u) c')).

Lemma stripLit_cut ci lit x : ∀ s1 s2 t,
  Str.all (λ a, bool_decide (canon ci a ≠ canon ci x)) lit = true →
  stripLit ci lit (s1 +:+ String x s2) = Some t →
  ∃ s1', t = s1' +:+ String x s2 ∧
         ∀ u, stripLit ci lit (s1 +:+ u) = Some (s1' +:+ u).
Proof.
  induction lit as [|a lit IH]; intros s1 s2 t Hlit.
  - intros H. exists s1. split.
    + destruct (s1 +:+ String x s2); by injection H.
    + intros u. by destruct (s1 +:+ u).
  - cbn [Str.all] in Hlit.
    apply andb_prop in Hlit as [Ha%bool_decide_eq_true Hlit].
    destruct s1 as [|b s1].
    + rewrite str_app_nil_l. cbn [stripLit]. by rewrite decide_False.
    + rewrite str_app_cons. cbn [stripLit]. case_decide; [|done].
      intros (s1' & -> & Hu)%IH; [|done]. exists s1'. split; [done|].
      intros u. rewrite str_app_cons. cbn [stripLit].
      by rewrite decide_True.
Qed.

Lemma star_stop greedy p i s c (k : cont) :
  is_Some (k (mkState i s c)) → is_Some (star greedy p i s c k).
Proof.
  intros [res Hk]. destruct s as [|a s]; cbn [star]; [by rewrite Hk|].
  destruct greedy.
  - destruct (p a); [|by rewrite Hk].
    destruct (star true p (S i) s c k); by rewrite ?Hk.
  - by rewrite Hk.
Qed.

Lemma star_cut greedy p x s2 u (k k' : cont) :
  p x = false → cutAt x s2 u k k' →
  ∀ s1 i c c',
    is_Some (star greedy p i (s1 +:+ String x s2) c k) →
    is_Some (star greedy p i (s1 +:+ u) c' k').
Proof.
  intros Hx Hk. induction s1 as [|a s1 IH]; intros i c c'.
  - rewrite !str_app_nil_l. cbn [star]. intros H. apply star_stop.
    apply (Hk "" i c c'). rewrite str_app_nil_l.
    destruct greedy; rewrite Hx in H; [done|].
    by destruct (k (mkState i (String x s2) c)).
  - rewrite !str_app_cons. cbn [star]. rewrite <- !str_app_cons.
    intros H. destruct greedy.
    + destruct (p a).
      * destruct (star true p (S i) (s1 +:+ String x s2) c k) as [r|] eqn:E.
        -- destruct (IH (S i) c c') as [r' ->]; [by rewrite E|]. done.
        -- destruct (star true p (S i) (s1 +:+ u) c' k'); [done|].
           by apply (Hk (String a s1) i c c').
      * by apply (Hk (String a s1) i c c').
    + destruct (k (mkState i (String a s1 +:+ String x s2) c)) as [r|] eqn:E.
      * destruct (Hk (String a s1) i c c') as [r' ->]; [by rewrite E|]. done.
      * destruct (k' (mkState i (String a s1 +:+ u) c')); [done|].
        destruct (p a); [|by destruct H]. by apply (IH (S i) c c').
Qed.

Lemma repeat_cut n p x s2 u (k k' : cont) :
  p x = false → cutAt x s2 u k k' →
  ∀ s1 i c c',
    is_Some (repeat n p i (s1 +:+ String x s2) c k) →
    is_Some (repeat n p i (s1 +:+ u) c' k').
Proof.
  intros Hx Hk. induction n as [|n IH]; intros s1 i c c'; cbn [repeat].
  - apply Hk.
  - destruct s1 as [|a s1].
    + rewrite !str_app_nil_l. rewrite Hx. by intros [? ?].
    + rewrite !str_app_cons. destruct (p a); [apply IH|by intros [? ?]].
Qed.

(** A match in [s1 x s2] of a pattern that avoids [x] is a match in
    [s1 u], whatever [u] is. *)
Lemma run_cut ci x s2 u r : ∀ (k k' : cont),
  avoids x ci r = true → cutAt x s2 u k k' →
  ∀ s1 i c c',
    is_Some (run ci r (mkState i (s1 +:+ String x s2) c) k) →
    is_Some (run ci r (mkState i (s1 +:+ u) c') k').
Proof.
  induction r as [lit|p|r1 IH1 r2 IH2|r1 IH1 r2 IH2|greedy p|n p|r IH|n r IH| |];
    intros k k' Hr Hk s1 i c c'; cbn [avoids] in Hr.
  - rewrite !run_lit.
    destruct (stripLit ci lit (s1 +:+ String x s2)) as [t|] eqn:E;
      [|by intros [? ?]].
    apply stripLit_cut in E as (s1' & -> & Hu); [|done].
    rewrite Hu. apply Hk.
  - cbn [run pos rest caps]. apply negb_true_iff in Hr.
    destruct s1 as [|a s1].
    + rewrite !str_app_nil_l. rewrite Hr. by intros [? ?].
    + rewrite !str_app_cons. destruct (p a); [apply Hk|by intros [? ?]].
  - apply andb_prop in Hr as [Hr1 Hr2]. rewrite !run_seq.
    apply IH1; [done|]. intros t j d d'. by apply IH2.
  - apply andb_prop in Hr as [Hr1 Hr2]. rewrite !run_alt. intros H.
    destruct (run ci r1 (mkState i (s1 +:+ String x s2) c) k) as [res|] eqn:E.
    + destruct (IH1 k k' Hr1 Hk s1 i c c') as [res' ->]; [by rewrite E|]. done.
    + destruct (run ci r1 (mkState i (s1 +:+ u) c') k'); [done|].
      by apply (IH2 k k' Hr2 Hk s1 i c c').
  - rewrite !run_star. cbn [pos rest caps]. apply negb_true_iff in Hr.
    by apply star_cut.
  - rewrite !run_repeat. cbn [pos rest caps]. apply negb_true_iff in Hr.
    by apply repeat_cut.
  - cbn [run pos]. intros H.
    assert (Hk0 : cutAt x s2 u
              (λ st1, if decide (pos st1 = i) then None else k st1)
              (λ st1, if decide (pos st1 = i) then None else k' st1)).
    { intros t j d d'. cbn [pos]. case_decide; [by intros [? ?]|apply Hk]. }
    destruct (run ci r (mkState i (s1 +:+ String x s2) c) _) as [res|] eqn:E.
    + destruct (IH _ _ Hr Hk0 s1 i c c') as [res' ->]; [by rewrite E|]. done.
    + destruct (run ci r (mkState i (s1 +:+ u) c') _); [done|].
      by apply (Hk s1 i c c').
  - rewrite !run_group. apply IH; [done|].
    intros t j d d'. cbn [pos rest caps]. apply Hk.
  - rewrite !run_bol. case_decide; [apply Hk|by intros [? ?]].
  - cbn [run rest]. destruct s1; by intros [? ?].
Qed.

(* ===================================================================== *)
(** * Note links: where the pattern matches *)
(* ===================================================================== *)

Lemma noteLinkReg_linkEndReg :
  noteLinkReg = Lit "[" ⋅ Star false dot ⋅ linkEndReg.
Proof. reflexivity. Qed.

Lemma matchesNowhere_tail ci r a s :
  matchesNowhere ci r (String a s) = true → matchesNowhere ci r s = true.
Proof. cbn [matchesNowhere]. by destruct (exec ci r 0 (String a s)). Qed.

Lemma matchesNowhere_suffix ci r l1 l2 :
  matchesNowhere ci r (l1 +:+ l2) = true → matchesNowhere ci r l2 = true.
Proof.
  induction l1 as [|a l1 IH]; [done|]. rewrite str_app_cons.
  intros H%matchesNowhere_tail. by apply IH.
Qed.

Lemma matchesNowhere_head ci r i s :
  noBol r = true → matchesNowhere ci r s = true → exec ci r i s = None.
Proof.
  intros Hr H. rewrite <- (Nat.add_0_l i), exec_shift by done.
  destruct s; cbn [matchesNowhere] in H; by destruct (exec ci r 0 _).
Qed.

(** Inside the label: the end of the pattern goes over no [[]] but its
    first character, so that a match that starts in the label ends in
    it. *)
Lemma exec_linkEndReg_label label l1 l2 tl i :
  matchesNowhere false linkEndReg label = true →
  label = l1 +:+ l2 → l2 ≠ "" →
  exec false linkEndReg i (l2 +:+ String "]" tl) = None.
Proof.
  intros Hlabel -> Hl2. apply matchesNowhere_suffix in Hlabel.
  apply (matchesNowhere_head _ _ i) in Hlabel; [|done].
  destruct (exec false linkEndReg i (l2 +:+ String "]" tl)) as [res|] eqn:E;
    [|done].
  assert (Hsome : is_Some (exec false linkEndReg i l2));
    [|by rewrite Hlabel in Hsome; destruct Hsome].
  clear Hlabel. unfold exec, linkEndReg in *.
  rewrite run_seq, run_lit in E. rewrite run_seq, run_lit.
  cbn [pos rest caps] in *.
  destruct l2 as [|a [|b l2]]; [done| |].
  - cbn in E. by destruct (decide ("]" = a)%char).
  - rewrite !str_app_cons in E. cbn [stripLit] in *.
    case_decide; [|done]. case_decide; [|done].
    rewrite <- (str_app_nil_r l2) at 1.
    eapply (run_cut false "]" tl ""); [| |by rewrite E].
    + by vm_compute.
    + intros t j d d'. rewrite str_app_nil_r.
      intros [r Hr]. by eexists.
Qed.

(** Inside whole lines: the pattern goes over no line terminator. *)
Lemma exec_noteLinkReg_lines lines l1 l2 tl i :
  matchesNowhere false noteLinkReg lines = true → wholeLines lines = true →
  lines = l1 +:+ l2 → l2 ≠ "" →
  exec false noteLinkReg i (l2 +:+ tl) = None.
Proof.
  intros Hnone Hlines -> Hl2. apply matchesNowhere_suffix in Hnone.
  apply (matchesNowhere_head _ _ i) in Hnone; [|done].
  apply wholeLines_suffix in Hlines; [|done].
  destruct (wholeLines_last _ Hlines Hl2) as (w & x & -> & Hx).
  rewrite str_app_assoc, str_app_cons, str_app_nil_l.
  destruct (exec false noteLinkReg i (w +:+ String x tl)) as [res|] eqn:E;
    [|done].
  assert (Hsome : is_Some (exec false noteLinkReg i (w +:+ String x "")));
    [|by rewrite Hnone in Hsome; destruct Hsome].
  unfold exec in *.
  eapply (run_cut false x tl (String x "")); [| |by rewrite E].
  - clear -Hx. revert Hx. by ascii_cases x.
  - intros t j d d'. by intros [r [= <-]].
Qed.

(** [c*?] goes over a text in which the rest of the pattern matches
    nowhere. *)
Lemma star_lazy_skip_ends p c (k : cont) s2 : ∀ s1 i,
  Str.all p s1 = true →
  (∀ l1 l2 i', s1 = l1 +:+ l2 → l2 ≠ "" →
     k (mkState i' (l2 +:+ s2) c) = None) →
  star false p i (s1 +:+ s2) c k = star false p (i + String.length s1) s2 c k.
Proof.
  induction s1 as [|a s1 IH]; intros i Hp Hk.
  - rewrite str_app_nil_l. simpl. by rewrite Nat.add_0_r.
  - apply andb_prop in Hp as [Ha Hp]. rewrite str_app_cons. cbn [star].
    rewrite <- str_app_cons, (Hk "" (String a s1)) by done.
    rewrite Ha, IH; [simpl; f_equal; lia|done|].
    intros l1 l2 i' -> Hl2. apply (Hk (String a l1)); [done|done].
Qed.

(** A text in two parts, the pattern matching nowhere in the first. *)
Lemma replaceFrom_copy_ends {St} ci r (f : matched → St → string * St) s2 :
  ∀ s1,
    (∀ l1 l2 i, s1 = l1 +:+ l2 → l2 ≠ "" → exec ci r i (l2 +:+ s2) = None) →
    ∀ i st,
      replaceFrom ci r f i 0 (s1 +:+ s2) st =
      let '(tail, st1) := replaceFrom ci r f (i + String.length s1) 0 s2 st in
      (s1 +:+ tail, st1).
Proof.
  induction s1 as [|a s1 IH]; intros Hexec i st.
  - rewrite str_app_nil_l. simpl String.length. rewrite Nat.add_0_r.
    by destruct (replaceFrom _ _ _ _ _ _ _).
  - rewrite str_app_cons, replaceFrom_miss.
    2: { rewrite <- str_app_cons. by apply (Hexec ""). }
    rewrite IH.
    2: { intros l1 l2 j -> Hl2. by apply (Hexec (String a l1)). }
    simpl String.length.
    replace (S i + String.length s1)%nat with (i + S (String.length s1))%nat
      by lia.
    by destruct (replaceFrom _ _ _ _ _ _ _).
Qed.


(** At a note link whose label has no line break and holds no end of a
    note link, the pattern matches exactly the link and captures its
    uuid. *)
Lemma noteLinkReg_first i label scheme uuid post :
  Str.all dot label = true →
  matchesNowhere false linkEndReg label = true →
  isNoteScheme scheme → isUuid uuid →
  ∃ res,
    exec false noteLinkReg i (linkText label scheme uuid +:+ post) = Some res ∧
    pos res = (i + String.length (linkText label scheme uuid))%nat ∧
    caps res !! 2%nat = Some uuid.
Proof.
  intros Hdot Hlabel Hscheme Huuid.
  rewrite linkText_app. unfold exec. rewrite noteLinkReg_linkEndReg.
  rewrite run_seq, run_lit_app. rewrite run_seq, run_star.
  cbn [pos rest caps]. rewrite star_lazy_skip_ends; [|done|].
  2: { intros l1 l2 i' Heq Hl2. by eapply exec_linkEndReg_label. }
  eexists. split; [|split]; cycle 1.
  3: { apply star_lazy_stop. unfold linkEndReg. rewrite run_seq, run_lit_app.
       rewrite run_seq, run_group. cbn [pos rest caps].
       apply run_noteScheme; [done|]. cbn [pos rest caps].
       rewrite run_seq, run_lit_app. rewrite run_seq, run_group.
       cbn [pos rest caps]. rewrite run_uuidReg by done.
       cbn [pos rest caps]. rewrite run_lit_app. reflexivity. }
  - cbn [pos String.length]. unfold linkText.
    rewrite !str_length_app, (isUuid_length _ Huuid). simpl String.length. lia.
  - cbn [caps]. rewrite lookup_insert_eq. f_equal.
    match goal with |- Str.take ?n _ = _ =>
      replace n with (String.length uuid)
        by (rewrite (isUuid_length _ Huuid); cbn [String.length]; lia) end.
    apply take_app_length.
Qed.

(** The first note link of a text: the lines before it hold no note link,
    no [[] comes before it on its line, and its label, from the first [[]
    of the line on, has no line break and holds no end of a note link.  It
    is replaced by the wikilink, and what follows is rewritten in turn. *)
Lemma replaceNoteLinks_first record note earlier pre label scheme uuid post
    brokenLinks :
  wholeLines earlier = true →
  matchesNowhere false noteLinkReg earlier = true →
  Str.all (Str.isnt "[") pre = true →
  Str.all dot label = true →
  matchesNowhere false linkEndReg label = true →
  isNoteScheme scheme → isUuid uuid →
  replaceNoteLinks record note
    (earlier +:+ pre +:+ "[" +:+ label +:+ "](" +:+ scheme +:+ "/" +:+ uuid
     +:+ ")" +:+ post) brokenLinks
  = let '(out, brokenLinks') :=
      replaceNoteLinks record note post
        (brokenLinks ++ linkBroken record note uuid) in
    (earlier +:+ pre +:+ " [[" +:+ linkTarget record uuid +:+ "]]" +:+ out,
     brokenLinks').
Proof.
  intros Hlines Hearlier Hpre Hdot Hlabel Hscheme Huuid.
  unfold replaceNoteLinks, replaceWith.
  rewrite <- linkText_app.
  rewrite replaceFrom_copy_ends.
  2: { intros l1 l2 i Heq Hl2. by apply (exec_noteLinkReg_lines earlier l1). }
  rewrite (replaceFrom_copy (Str.isnt "[")); [| |done].
  2: { intros. by apply exec_bracket_ne. }
  cbn [Nat.add].
  destruct (noteLinkReg_first (String.length earlier + String.length pre)
              label scheme uuid post Hdot Hlabel Hscheme Huuid)
    as (res & Hexec & Hpos & Hcap).
  rewrite (replaceFrom_match _ _ _ _ _ _ _ _ Hexec Hpos) by done.
  rewrite (noteLinkReplacer_uuid _ _ _ uuid) by done.
  rewrite <- (Nat.add_0_l (String.length earlier + _ + _)).
  rewrite replaceFrom_shift by done.
  destruct (replaceFrom _ _ _ 0 0 post _) as [out bl].
  by rewrite !str_app_assoc.
Qed.

(* ===================================================================== *)
(** * A text without resource references *)
(* ===================================================================== *)

(** Where the pattern matches no end of the text, nothing is replaced. *)
Lemma replaceFrom_ends {St} (P : string → bool) ci r
    (f : matched → St → string * St) :
  (∀ a s, P (String a s) = true → P s = true) →
  (∀ i s, P s = true → exec ci r i s = None) →
  ∀ s i st, P s = true → replaceFrom ci r f i 0 s st = (s, st).
Proof.
  intros Htail Hexec. induction s as [|a s IH]; intros i st Hs.
  - cbn [replaceFrom]. by rewrite Hexec.
  - cbn [replaceFrom]. rewrite Hexec by done.
    by rewrite IH by (by eapply Htail).
Qed.











(* ===================================================================== *)
(** * Splitting, joining and trimming *)
(* ===================================================================== *)

Lemma split_nonempty sep s : Str.split sep s ≠ [].
Proof.
  destruct s as [|c s]; simpl; [done|].
  case_decide; [done|]. by destruct (Str.split sep s).
Qed.

(** No component of a split holds the separator. *)
Lemma split_all_isnt sep s :
  Forall (λ x, Str.all (Str.isnt sep) x = true) (Str.split sep s).
Proof.
  induction s as [|c s IH]; simpl; [by repeat constructor|].
  case_decide as Hc; [by constructor|].
  assert (Hisnt : Str.isnt sep c = true).
  { unfold Str.isnt. by apply negb_true_iff, Ascii.eqb_neq. }
  destruct (Str.split sep s) as [|x xs].
  - repeat constructor. simpl. by rewrite Hisnt.
  - apply Forall_cons in IH as [Hx Hxs]. constructor; [|done]. simpl.
    by rewrite Hx, Hisnt.
Qed.

Lemma join_cons sep x l :
  l ≠ [] → Str.join sep (x :: l) = x +:+ sep +:+ Str.join sep l.
Proof. by destruct l. Qed.

(** [s.split(sep).join(sep)] is [s]. *)
Lemma join_split sep s : Str.join (String sep "") (Str.split sep s) = s.
Proof.
  induction s as [|c s IH]; [done|]. cbn [Str.split].
  pose proof (split_nonempty sep s) as Hne.
  case_decide as Hc.
  - subst. rewrite join_cons by done. by rewrite IH.
  - destruct (Str.split sep s) as [|x xs]; [done|].
    destruct xs as [|y ys].
    + simpl in *. by rewrite IH.
    + rewrite join_cons by done. rewrite join_cons in IH by done.
      rewrite <- IH. reflexivity.
Qed.

Lemma split_app_sep sep x s :
  Str.all (Str.isnt sep) x = true →
  Str.split sep (x +:+ String sep s) = x :: Str.split sep s.
Proof.
  induction x as [|c x IH]; simpl.
  - intros _. by rewrite decide_True.
  - intros [Hc Hx]%andb_prop.
    rewrite decide_False by (intros ->; by apply isnt_ne in Hc).
    by rewrite IH.
Qed.

Lemma split_one sep x :
  Str.all (Str.isnt sep) x = true → Str.split sep x = [x].
Proof.
  induction x as [|c x IH]; simpl; [done|].
  intros [Hc Hx]%andb_prop.
  rewrite decide_False by (intros ->; by apply isnt_ne in Hc).
  by rewrite IH.
Qed.

(** [l.join(sep).split(sep)] is [l], for a non-empty [l] whose elements do
    not hold the separator. *)
Lemma split_join sep l :
  l ≠ [] → Forall (λ x, Str.all (Str.isnt sep) x = true) l →
  Str.split sep (Str.join (String sep "") l) = l.
Proof.
  induction l as [|x l IH]; [done|]. intros _ [Hx Hl]%Forall_cons.
  destruct l as [|y l]; [by apply split_one|].
  rewrite join_cons by done. change (String sep "" +:+ ?s) with (String sep s).
  rewrite split_app_sep by done. by rewrite IH.
Qed.

Lemma trimStart_all p s :
  Str.all p s = true → Str.all p (Str.trimStart s) = true.
Proof.
  induction s as [|c s IH]; simpl; [done|].
  intros H. destruct (Str.isWhiteSpace c); [|done].
  apply andb_prop in H as [_ H]. by apply IH.
Qed.

Lemma trimEnd_all p s :
  Str.all p s = true → Str.all p (Str.trimEnd s) = true.
Proof.
  induction s as [|c s IH]; simpl; [done|].
  intros [Hc Hs]%andb_prop. specialize (IH Hs).
  destruct (Str.trimEnd s) as [|d t]; [|by simpl in *; rewrite Hc].
  destruct (Str.isWhiteSpace c); simpl; [done|by rewrite Hc].
Qed.

Lemma trim_all p s : Str.all p s = true → Str.all p (Str.trim s) = true.
Proof. intros H. by apply trimEnd_all, trimStart_all. Qed.

(** What is left of a trimmed string starts and ends with a character that is
    not white space. *)
Definition trimmed (s : string) : Prop :=
  Str.trimStart s = s ∧ Str.trimEnd s = s.

Lemma trimStart_idemp s : Str.trimStart (Str.trimStart s) = Str.trimStart s.
Proof.
  induction s as [|c s IH]; simpl; [done|].
  destruct (Str.isWhiteSpace c) eqn:Hc; [done|]. simpl. by rewrite Hc.
Qed.

Lemma trimEnd_idemp s : Str.trimEnd (Str.trimEnd s) = Str.trimEnd s.
Proof.
  induction s as [|c s IH]; simpl; [done|].
  destruct (Str.trimEnd s) as [|d t] eqn:Ht.
  - destruct (Str.isWhiteSpace c) eqn:Hc; simpl; [done|]. by rewrite Hc.
  - cbn [Str.trimEnd]. cbn [Str.trimEnd] in IH. by rewrite IH.
Qed.

(** Trimming the end keeps a first character that is not white space. *)
Lemma trimEnd_head c s :
  Str.isWhiteSpace c = false → ∃ t, Str.trimEnd (String c s) = String c t.
Proof.
  intros Hc. simpl. destruct (Str.trimEnd s); rewrite ?Hc; by eexists.
Qed.

Lemma trimStart_trimEnd s :
  Str.trimStart (Str.trimEnd (Str.trimStart s)) = Str.trimEnd (Str.trimStart s).
Proof.
  induction s as [|c s IH]; [done|]. cbn [Str.trimStart].
  destruct (Str.isWhiteSpace c) eqn:Hc; [done|].
  destruct (trimEnd_head c s Hc) as [t ->]. simpl. by rewrite Hc.
Qed.

Lemma trim_trimmed s : trimmed (Str.trim s).
Proof.
  unfold trimmed, Str.trim. split;
    [apply trimStart_trimEnd|apply trimEnd_idemp].
Qed.

Lemma trim_idemp s : Str.trim (Str.trim s) = Str.trim s.
Proof.
  destruct (trim_trimmed s) as [H1 H2]. unfold Str.trim at 1.
  by rewrite H1, H2.
Qed.

(** A character map that sends white space to white space and the rest to the
    rest commutes with trimming. *)
Lemma trimStart_map f s :
  (∀ c, Str.isWhiteSpace (f c) = Str.isWhiteSpace c) →
  Str.trimStart (Str.map f s) = Str.map f (Str.trimStart s).
Proof.
  intros Hf. induction s as [|c s IH]; simpl; [done|].
  rewrite Hf. by destruct (Str.isWhiteSpace c).
Qed.

Lemma trimEnd_map f s :
  (∀ c, Str.isWhiteSpace (f c) = Str.isWhiteSpace c) →
  Str.trimEnd (Str.map f s) = Str.map f (Str.trimEnd s).
Proof.
  intros Hf. induction s as [|c s IH]; simpl; [done|].
  rewrite IH, Hf. destruct (Str.trimEnd s); simpl; [|done].
  by destruct (Str.isWhiteSpace c).
Qed.

Lemma trim_map f s :
  (∀ c, Str.isWhiteSpace (f c) = Str.isWhiteSpace c) →
  Str.trim (Str.map f s) = Str.map f (Str.trim s).
Proof.
  intros Hf. unfold Str.trim. by rewrite trimStart_map, trimEnd_map.
Qed.

Lemma map_map f g s : Str.map f (Str.map g s) = Str.map (f ∘ g) s.
Proof. induction s as [|c s IH]; simpl; [done|]. by rewrite IH. Qed.

Lemma map_ext f g s : (∀ c, f c = g c) → Str.map f s = Str.map g s.
Proof. intros H. induction s as [|c s IH]; simpl; [done|]. by rewrite H, IH. Qed.

Lemma map_all (p : ascii → bool) f s :
  (∀ c, p (f c) = true) → Str.all p (Str.map f s) = true.
Proof. intros H. induction s as [|c s IH]; simpl; [done|]. by rewrite H, IH. Qed.

(* ===================================================================== *)
(** * Note titles and notebook names *)
(* ===================================================================== *)

(** The character map of [replace(/\//g, '-')]. *)
Definition slashToDash (c : ascii) : ascii :=
  if decide (c = "/"%char) then "-"%char else c.

Lemma slashToDash_space c :
  Str.isWhiteSpace (slashToDash c) = Str.isWhiteSpace c.
Proof. unfold slashToDash. case_decide; [by subst|done]. Qed.

Lemma slashToDash_idemp c : slashToDash (slashToDash c) = slashToDash c.
Proof. unfold slashToDash. by repeat case_decide. Qed.

Lemma slashToDash_isnt c : Str.isnt "/" (slashToDash c) = true.
Proof.
  unfold slashToDash. case_decide as Hc; [done|].
  unfold Str.isnt. by apply negb_true_iff, Ascii.eqb_neq.
Qed.

(** X1. [sanitizeNoteTitle] gives a name that holds no [/], so it is one
    path component; the name has no white space at either end; and
    sanitizing a sanitized title changes nothing. *)
Theorem sanitizeNoteTitle_component title :
  (Str.all (Str.isnt "/") (sanitizeNoteTitle title) = true) ∧
  (Str.trim (sanitizeNoteTitle title) = sanitizeNoteTitle title) ∧
  (sanitizeNoteTitle (sanitizeNoteTitle title) = sanitizeNoteTitle title).
Proof.
  unfold sanitizeNoteTitle. fold slashToDash.
  assert (Htrim : Str.trim (Str.map slashToDash (Str.trim title))
                  = Str.map slashToDash (Str.trim title)).
  { rewrite trim_map by apply slashToDash_space. by rewrite trim_idemp. }
  split; [apply map_all, slashToDash_isnt|]. split; [done|].
  rewrite Htrim, map_map. apply map_ext. intros c. apply slashToDash_idemp.
Qed.

(** X2. [normalizePath] keeps the [/]-separated components of a notebook
    name, each trimmed: splitting its result gives the trimmed components
    back, and normalizing twice is normalizing once. *)
Theorem normalizePath_components pathName :
  (Str.split "/" (normalizePath pathName)
   = Str.trim <$> Str.split "/" pathName) ∧
  (normalizePath (normalizePath pathName) = normalizePath pathName).
Proof.
  assert (Hsplit : Str.split "/" (normalizePath pathName)
                   = Str.trim <$> Str.split "/" pathName).
  { unfold normalizePath. apply split_join.
    - pose proof (split_nonempty "/" pathName).
      by destruct (Str.split "/" pathName).
    - apply Forall_fmap. eapply Forall_impl; [apply split_all_isnt|].
      intros x Hx. by apply trim_all. }
  split; [done|]. unfold normalizePath at 1. rewrite Hsplit.
  rewrite <- list_fmap_compose. unfold normalizePath. f_equal.
  apply list_fmap_ext. intros _ x _. apply trim_idemp.
Qed.

(* ===================================================================== *)
(** * The hierarchy: who has children *)
(* ===================================================================== *)

Lemma firstWith_cons uuid node l :
  firstWith uuid (node :: l) =
  if decide (meta_uuid node = uuid) then Some node else firstWith uuid l.
Proof.
  unfold firstWith. simpl. case_decide; [done|].
  by destruct (list_find _ l) as [[]|].
Qed.

Lemma firstWith_app uuid l1 l2 :
  firstWith uuid (l1 ++ l2) =
  match firstWith uuid l1 with
  | Some node => Some node
  | None => firstWith uuid l2
  end.
Proof.
  induction l1 as [|x l1 IH]; [done|].
  rewrite <- app_comm_cons, !firstWith_cons. by case_decide.
Qed.

Lemma findInMeta_firstNode uuid libraryMeta :
  findInMeta uuid libraryMeta =
  (λ node, bool_decide (meta_children node ≠ [])) <$> firstNode uuid libraryMeta.
Proof.
  unfold firstNode.
  induction libraryMeta as [u children IH] using QvLibraryMeta_forall_ind.
  cbn [findInMeta nodes]. rewrite firstWith_cons. cbn [meta_uuid].
  destruct (decide (u = uuid)) as [->|Hne]; [done|].
  induction IH as [|meta children Hmeta _ IHc]; [done|].
  rewrite Hmeta, firstWith_app.
  destruct (firstWith uuid (nodes meta)) as [node|]; [done|].
  apply IHc.
Qed.

(** X3. [notebookHasChildren(uuid)] looks at the first node of the whole
    declared tree, the root included, that has the uuid, in pre-order: it is
    true when that node has at least one child, and false when it has none
    or when no node has the uuid. *)
Theorem notebookHasChildren_first_node library uuid :
  notebookHasChildren library uuid =
  match firstNode uuid (lib_meta library) with
  | Some node => bool_decide (meta_children node ≠ [])
  | None => false
  end.
Proof.
  unfold notebookHasChildren. rewrite findInMeta_firstNode.
  destruct (firstNode uuid (lib_meta library)) as [node|]; simpl; [|done].
  destruct (bool_decide (meta_children node ≠ [])) eqn:H.
  - by rewrite bool_decide_eq_true_2.
  - by rewrite bool_decide_eq_false_2.
Qed.

(* ===================================================================== *)
(** * The walk of the class: what the callback is called with *)
(* ===================================================================== *)

Lemma forEach_mjoin {A B St} (f : St → B → result St) (g : A → list B) l s :
  forEach (λ s x, forEach f (g x) s) l s = forEach f (mjoin (g <$> l)) s.
Proof.
  revert s. induction l as [|x l IH]; intros s; [done|].
  cbn [forEach fmap list_fmap mjoin list_join]. rewrite forEach_app.
  destruct (forEach f (g x) s); cbn [mbind result_bind]; [apply IH|done].
Qed.

Lemma forEach_ext {A St} (f g : St → A → result St) l s :
  (∀ s x, f s x = g s x) → forEach f l s = forEach g l s.
Proof.
  intros H. revert s. induction l as [|x l IH]; intros s; [done|].
  cbn [forEach]. rewrite H. destruct (g s x); cbn [mbind result_bind]; auto.
Qed.

(** The walk of the class is one loop over the declared nodes. *)
Lemma Quiver_walk_declared {St} library
    (callback : QvNotebook → list QvNotebook → St → result St) st :
  Quiver_walkThroughNotebookHierarchty library callback st =
  forEach (λ st v, validatedCallback library callback v.1 v.2 st)
    (declared library) st.
Proof.
  unfold Quiver_walkThroughNotebookHierarchty, declared.
  rewrite <- forEach_mjoin. apply forEach_ext. intros s meta.
  apply walk_visits.
Qed.

(** One call of the validated callback: a call of the callback, or a
    warning. *)
Lemma validatedCallback_resolve {St} library
    (callback : QvNotebook → list QvNotebook → St → result St) v console s :
  validatedCallback library callback v.1 v.2 (console, s) =
  match resolve library v, warningOf library v with
  | Some c, _ => s' ← callback c.1 c.2 s; Ok (console, s')
  | None, Some warning => Ok (console ++ [warning], s)
  | None, None => Ok (console, s)
  end.
Proof.
  unfold validatedCallback, resolve, warningOf.
  destruct (notebooksByUuid library !! v.1) as [notebook|]; [|done].
  by destruct (parentNotebooksOf _ v.2) as [name|parents].
Qed.

Lemma resolve_or_warning library v :
  is_Some (resolve library v) ↔ warningOf library v = None.
Proof.
  unfold resolve, warningOf.
  destruct (notebooksByUuid library !! v.1); [|by split; [intros []|]].
  destruct (parentNotebooksOf _ v.2); split; try done; by intros [].
Qed.

Lemma forEach_validated {St} library
    (callback : QvNotebook → list QvNotebook → St → result St) l :
  ∀ console s,
    forEach (λ st v, validatedCallback library callback v.1 v.2 st) l
      (console, s) =
    (s' ← forEach (λ s c, callback c.1 c.2 s) (omap (resolve library) l) s;
     Ok (console ++ omap (warningOf library) l, s')).
Proof.
  induction l as [|v l IH]; intros console s.
  - simpl. by rewrite app_nil_r.
  - cbn [forEach omap list_omap]. rewrite validatedCallback_resolve.
    pose proof (resolve_or_warning library v) as Hv.
    destruct (resolve library v) as [c|], (warningOf library v) as [w|].
    + destruct Hv as [Hv _]. by discriminate Hv.
    + cbn [forEach]. destruct (callback c.1 c.2 s) as [s1|];
        cbn [mbind result_bind]; [apply IH|done].
    + cbn [mbind result_bind]. rewrite IH.
      destruct (forEach _ _ s); cbn [mbind result_bind]; [|done].
      by rewrite <- app_assoc.
    + destruct Hv as [_ [? Hv]]; [done|discriminate].
Qed.


(** The callback is called with notebooks found on disk, under the declared
    uuid. *)
Lemma resolve_Some library v notebook parents :
  resolve library v = Some (notebook, parents) →
  notebooksByUuid library !! v.1 = Some notebook ∧
  notebook ∈ lib_notebooks library ∧ nb_uuid notebook = v.1.
Proof.
  unfold resolve.
  destruct (notebooksByUuid library !! v.1) as [nb|] eqn:Hnb; [|done].
  destruct (parentNotebooksOf _ v.2); [done|]. intros [= <- <-].
  split; [done|]. by apply notebooksByUuid_Some.
Qed.

Lemma walked_on_disk library notebook parents :
  (notebook, parents) ∈ walked library →
  notebooksByUuid library !! nb_uuid notebook = Some notebook ∧
  notebook ∈ lib_notebooks library.
Proof.
  unfold walked. intros (v & _ & Hv)%list_elem_of_omap.
  apply resolve_Some in Hv as (Hnb & Hin & Hu). by rewrite Hu.
Qed.



(* ===================================================================== *)
(** * Paths: the last component *)
(* ===================================================================== *)

(** A path component that [path.normalize] keeps as it is. *)
Definition properSegment (x : string) : Prop :=
  Str.all (Str.isnt "/") x = true ∧ x ≠ "" ∧ x ≠ "." ∧ x ≠ "..".

Lemma split_app sep s t :
  Str.split sep (s +:+ String sep t) =
  match Str.split sep s with
  | [] => Str.split sep t
  | x :: xs => (x :: xs) ++ Str.split sep t
  end.
Proof.
  induction s as [|c s IH].
  - simpl. by rewrite decide_True.
  - rewrite str_app_cons. cbn [Str.split]. rewrite IH.
    pose proof (split_nonempty sep s).
    destruct (Str.split sep s) as [|x xs]; [done|]. by case_decide.
Qed.

Lemma split_snoc sep s x :
  Str.all (Str.isnt sep) x = true →
  Str.split sep (s +:+ String sep x) = Str.split sep s ++ [x].
Proof.
  intros Hx. rewrite split_app, (split_one sep x) by done.
  pose proof (split_nonempty sep s). by destruct (Str.split sep s).
Qed.

Lemma normalizeSegments_app allowAboveRoot l1 l2 : ∀ res,
  path.normalizeSegments allowAboveRoot res (l1 ++ l2) =
  path.normalizeSegments allowAboveRoot
    (path.normalizeSegments allowAboveRoot res l1) l2.
Proof.
  induction l1 as [|seg l1 IH]; intros res; [done|].
  rewrite <- app_comm_cons. cbn [path.normalizeSegments].
  repeat case_decide; try apply IH. destruct (last res); [|apply IH].
  case_decide; apply IH.
Qed.

Lemma normalizeSegments_proper allowAboveRoot res x :
  properSegment x →
  path.normalizeSegments allowAboveRoot res [x] = res ++ [x].
Proof.
  intros (_ & H1 & H2 & H3). cbn [path.normalizeSegments].
  rewrite decide_False by (by intros [|]). by rewrite decide_False.
Qed.

Lemma Forall_removelast {A} (P : A → Prop) l :
  Forall P l → Forall P (removelast l).
Proof.
  induction l as [|x l IH]; [done|]. intros [Hx Hl]%Forall_cons.
  simpl. destruct l; [constructor|]. constructor; [done|by apply IH].
Qed.

Lemma normalizeSegments_all allowAboveRoot segs : ∀ res,
  Forall (λ x, Str.all (Str.isnt "/") x = true) res →
  Forall (λ x, Str.all (Str.isnt "/") x = true) segs →
  Forall (λ x, Str.all (Str.isnt "/") x = true)
    (path.normalizeSegments allowAboveRoot res segs).
Proof.
  induction segs as [|seg segs IH]; intros res Hres Hsegs; [done|].
  apply Forall_cons in Hsegs as [Hseg Hsegs]. cbn [path.normalizeSegments].
  case_decide; [by apply IH|]. case_decide.
  - destruct (last res); [case_decide|]; apply IH; try done.
    + destruct allowAboveRoot; [|done]. apply Forall_app. by repeat constructor.
    + by apply Forall_removelast.
    + destruct allowAboveRoot; by repeat constructor.
  - apply IH; [|done]. apply Forall_app. by repeat constructor.
Qed.

Lemma join_snoc_nonempty sep l x : x ≠ "" → Str.join sep (l ++ [x]) ≠ "".
Proof.
  intros Hx. induction l as [|y l IH]; [done|].
  rewrite <- app_comm_cons, join_cons by (by destruct l).
  destruct y; [|done]. by destruct sep.
Qed.

Lemma last_filter_snoc {A} (P : A → Prop) `{∀ x, Decision (P x)} l x :
  P x → last (filter P (l ++ [x])) = Some x.
Proof.
  intros Hx. rewrite filter_app, filter_cons_True by done.
  by rewrite filter_nil, last_snoc.
Qed.

(** The last component of a normalized path that was built with a proper
    last component is that component. *)
Lemma basename_normalize_snoc q x :
  properSegment x →
  (q = x ∨ ∃ dir, q = dir +:+ String "/" x) →
  path.basename (path.normalize q) = x.
Proof.
  intros Hx Hq. pose proof Hx as (Hslash & Hne & _).
  assert (∃ segs, Str.split "/" q = segs ++ [x]) as [segs Hsegs].
  { destruct Hq as [->|[dir ->]].
    - exists []. by apply split_one.
    - eexists. by apply split_snoc. }
  unfold path.normalize. destruct q as [|c q'] eqn:Eq.
  { destruct Hq as [<-|[[|??] ?]]; done. }
  rewrite <- Eq in *.
  cbv zeta. rewrite Hsegs, normalizeSegments_app, normalizeSegments_proper by done.
  set (res := path.normalizeSegments _ [] segs).
  assert (Hres : Forall (λ x, Str.all (Str.isnt "/") x = true) res).
  { apply normalizeSegments_all; [constructor|].
    pose proof (split_all_isnt "/" q) as Hall. rewrite Hsegs in Hall.
    by apply Forall_app in Hall as [? _]. }
  assert (Hend : path.endsWithSlash q = false).
  { unfold path.endsWithSlash. rewrite Hsegs, last_snoc.
    by destruct x as [|? [|]]. }
  rewrite Hend.
  pose proof (join_snoc_nonempty "/" res x Hne) as Hbody.
  assert (Hsplit : Str.split "/" (Str.join "/" (res ++ [x])) = res ++ [x]).
  { apply split_join; [by destruct res|].
    apply Forall_app. split; [done|by repeat constructor]. }
  destruct (Str.join "/" (res ++ [x])) as [|b body] eqn:Hjoin; [done|].
  unfold path.basename. destruct (bool_decide (c = "/"%char)).
  - change ("/" +:+ String b body) with ("" +:+ String "/" (String b body)).
    rewrite split_app. change (Str.split "/" "") with [""]. rewrite Hsplit.
    change ([""] ++ res ++ [x]) with (("" :: res) ++ [x]).
    by rewrite last_filter_snoc.
  - rewrite Hsplit. by rewrite last_filter_snoc.
Qed.

Lemma basename_join dir x :
  properSegment x → path.basename (path.join [dir; x]) = x.
Proof.
  intros Hx. pose proof Hx as (_ & Hne & _). unfold path.join.
  destruct (decide (dir = "")) as [->|Hdir].
  - rewrite filter_cons_False by (by intros ?).
    rewrite filter_cons_True by done. rewrite filter_nil.
    cbn [Str.join]. apply basename_normalize_snoc; [done|by left].
  - rewrite !filter_cons_True by done. rewrite filter_nil.
    cbn [Str.join]. apply basename_normalize_snoc; [done|].
    right. by exists dir.
Qed.

(** A name without [/], followed by [.md], is a proper component. *)
Lemma properSegment_md name :
  Str.all (Str.isnt "/") name = true → properSegment (name +:+ ".md").
Proof.
  intros Hname. split; [by rewrite all_app, Hname|].
  assert (3 ≤ String.length (name +:+ ".md"))%nat as Hlen.
  { rewrite str_length_app. simpl. lia. }
  repeat split; intros Heq; rewrite Heq in Hlen; simpl in Hlen; lia.
Qed.

(* ===================================================================== *)
(** * The planned file of a note *)
(* ===================================================================== *)

Lemma pretty_N_go_all (q : ascii → bool) x : ∀ s,
  (∀ d, q (pretty_N_char d) = true) →
  Str.all q s = true → Str.all q (pretty_N_go x s) = true.
Proof.
  intros s Hq. revert s.
  induction (N.lt_wf_0 x) as [x _ IH]; intros s Hs.
  assert (x = 0 ∨ 0 < x)%N as [->|Hx] by lia.
  - by rewrite pretty_N_go_0.
  - rewrite pretty_N_go_step by done. apply IH.
    + by apply N.div_lt.
    + simpl. by rewrite Hq, Hs.
Qed.

Lemma pretty_N_char_isnt_slash d : Str.isnt "/" (pretty_N_char d) = true.
Proof. unfold pretty_N_char. by repeat case_match. Qed.

Lemma pretty_Z_no_slash (n : Z) : Str.all (Str.isnt "/") (pretty n) = true.
Proof.
  assert (HN : ∀ x : N, Str.all (Str.isnt "/") (pretty x) = true).
  { intros x. unfold pretty, pretty_N. case_decide; [done|].
    apply pretty_N_go_all; [apply pretty_N_char_isnt_slash|done]. }
  destruct n as [|p|p]; [done|apply HN|].
  unfold pretty, pretty_Z. rewrite all_app. simpl. apply HN.
Qed.

Lemma sanitizeNoteTitle_no_slash title :
  Str.all (Str.isnt "/") (sanitizeNoteTitle title) = true.
Proof. apply map_all, slashToDash_isnt. Qed.

(** Every name the planner gives to a note is free of [/]. *)
Lemma chosenName_no_slash previous title name :
  chosenName previous (sanitizeNoteTitle title) name →
  Str.all (Str.isnt "/") name = true.
Proof.
  unfold chosenName. case_match.
  - destruct (newDistinctNoteName_spec (sanitizeNoteTitle title) previous 2)
      as [(n & _ & -> & _)|[-> _]]; [|done].
    intros [= <-]. unfold suffixed.
    by rewrite !all_app, sanitizeNoteTitle_no_slash, pretty_Z_no_slash.
  - intros ->. apply sanitizeNoteTitle_no_slash.
Qed.

Lemma NoDup_fmap_lookup {A B} (f : A → B) (l : list A) (l' : list B) :
  length l = length l' →
  (∀ i x y, l !! i = Some x → l' !! i = Some y → f x = y) →
  f <$> l = l'.
Proof.
  revert l'. induction l as [|x l IH]; intros [|y l']; try done.
  simpl. intros [= Hlen] H. f_equal.
  - by apply (H 0%nat).
  - apply IH; [done|]. intros i. apply (H (S i)).
Qed.

(** X5. When the notes of a notebook are planned without an error, the
    planned path of every note ends in the file name [name.md] of the name
    chosen for it: joining it to the notebook's path does not alter it; and
    the notes of the notebook get pairwise different paths. *)
Theorem planned_paths_distinct newPath notes record noteNames record' :
  planNotes newPath notes record = Ok (noteNames, record') →
  (∀ i note name,
     notes !! i = Some note → noteNames !! i = Some name →
     ∃ notePath, (record' !! note_uuid note = Some notePath) ∧
                 (path.basename notePath = name +:+ ".md")) ∧
  NoDup ((λ note, record' !! note_uuid note) <$> notes).
Proof.
  intros Hplan. destruct (planNotes_lookup _ _ _ _ _ Hplan) as [Hlen Hchar].
  assert (Hbase : ∀ i note name,
    notes !! i = Some note → noteNames !! i = Some name →
    path.basename (path.join [newPath; name +:+ ".md"]) = name +:+ ".md").
  { intros i note name Hnote Hname.
    destruct (Hchar _ _ _ Hnote Hname) as [_ Hch].
    apply basename_join, properSegment_md. by eapply chosenName_no_slash. }
  split.
  - intros i note name Hnote Hname.
    destruct (Hchar _ _ _ Hnote Hname) as [Hrec _].
    eexists. split; [exact Hrec|]. by eapply Hbase.
  - assert (Hnd : NoDup noteNames).
    { unfold planNotes in Hplan.
      eapply (planNotes_from_Ok _ _ _ _ _ _ []) in Hplan as (_ & _ & Hnd & _).
      + apply Hnd. constructor.
      + split; [constructor|]. by intros ? ?%elem_of_nil. }
    assert (Heq : (λ note, record' !! note_uuid note) <$> notes =
                  (λ name, Some (path.join [newPath; name +:+ ".md"]))
                    <$> noteNames).
    { apply NoDup_fmap_lookup; [by rewrite length_fmap|].
      intros i note y Hnote Hy.
      apply list_lookup_fmap_Some in Hy as (name & -> & Hname).
      by destruct (Hchar _ _ _ Hnote Hname) as [-> _]. }
    rewrite Heq. apply NoDup_fmap_2_strong; [|done].
    intros ni nj Hni Hnj [= Hp].
    apply list_elem_of_lookup in Hni as [i Hi], Hnj as [j Hj].
    destruct (lookup_lt_is_Some_2 notes i) as [notei Hnotei];
      [apply lookup_lt_Some in Hi; lia|].
    destruct (lookup_lt_is_Some_2 notes j) as [notej Hnotej];
      [apply lookup_lt_Some in Hj; lia|].
    apply (f_equal path.basename) in Hp.
    rewrite (Hbase _ _ _ Hnotei Hi), (Hbase _ _ _ Hnotej Hj) in Hp.
    by apply str_app_inj_r in Hp.
Qed.

Lemma planned_paths_distinct_witness :
  NoDup ((λ note,
            ({[ "1" := "/out/quiver/NB/a.md"; "2" := "/out/quiver/NB/a 2.md";
                "3" := "/out/quiver/NB/a 3.md" ]} : gmap string string)
              !! note_uuid note) <$> notesSameTitle).
Proof.
  destruct (planned_paths_distinct "/out/quiver/NB" notesSameTitle ∅
              ["a"; "a 2"; "a 3"]
              {[ "1" := "/out/quiver/NB/a.md"; "2" := "/out/quiver/NB/a 2.md";
                 "3" := "/out/quiver/NB/a 3.md" ]})
    as [_ Hnodup].
  - vm_compute. reflexivity.
  - exact Hnodup.
Defined.

(* ===================================================================== *)
(** * The plan of a library: what the record holds *)
(* ===================================================================== *)

(** Every entry of the record is for a note found on disk, and its path ends
    in a file name made from the title of that note. *)
Definition recordOnDisk (library : QvLibrary) (record : gmap string string)
    : Prop :=
  ∀ uuid notePath, record !! uuid = Some notePath →
    ∃ notebook note name,
      notebook ∈ lib_notebooks library ∧ note ∈ nb_notes notebook ∧
      note_uuid note = uuid ∧ nameOf note name ∧
      path.basename notePath = name +:+ ".md".

Lemma nameOf_no_slash note name :
  nameOf note name → Str.all (Str.isnt "/") name = true.
Proof.
  intros [->|(n & _ & ->)]; [apply sanitizeNoteTitle_no_slash|].
  by rewrite !all_app, sanitizeNoteTitle_no_slash, pretty_Z_no_slash.
Qed.

Lemma planNote_nameOf newPath noteNames record note noteNames' record' :
  planNote newPath (noteNames, record) note = Ok (noteNames', record') →
  ∃ name, nameOf note name ∧
    record' = <[note_uuid note := path.join [newPath; name +:+ ".md"]]> record.
Proof.
  intros (_ & name & _ & _ & -> & Hname)%planNote_Ok.
  exists name. split; [|done]. destruct (includes _ _).
  - destruct (newDistinctNoteName_spec (sanitizeNoteTitle (note_title note))
                noteNames 2) as [(n & Hn & Heq & _)|[Heq _]];
      rewrite Heq in Hname; [|done].
    injection Hname as <-. right. exists n. by unfold MAX_RENAME_COUNT in Hn.
  - by left.
Qed.

Lemma planNotes_onDisk library newPath notebook record r :
  notebook ∈ lib_notebooks library →
  planNotes newPath (nb_notes notebook) record = Ok r →
  recordOnDisk library record → recordOnDisk library r.2.
Proof.
  intros Hnb Hplan Hrec. unfold planNotes in Hplan.
  eapply (forEach_invariant (λ st, recordOnDisk library st.2) _ _ ([], record));
    [|exact Hrec|exact Hplan].
  clear -Hnb. intros [names rec] note [names' rec'] Hnote Hinv Hstep.
  apply planNote_nameOf in Hstep as (name & Hname & ->).
  intros uuid p. simpl. destruct (decide (note_uuid note = uuid)) as [<-|Hne].
  - rewrite lookup_insert_eq. intros [= <-].
    exists notebook, note, name. do 4 (split; [done|]).
    apply basename_join, properSegment_md. by eapply nameOf_no_slash.
  - rewrite lookup_insert_ne by done. apply Hinv.
Qed.

Lemma planLibraryFrom_walked library outputQuiverPath record0 :
  planLibraryFrom library outputQuiverPath record0 =
  (st ← forEach (λ st c, planWalkedNotebook library outputQuiverPath c.1 c.2 st)
         (walked library) (mkPlan record0 ∅);
   st' ← forEach (planOrphanNotebook outputQuiverPath)
           (lib_notebooks library) st;
   Ok (walkWarnings library, st')).
Proof.
  unfold planLibraryFrom.
  rewrite Quiver_walk_declared, forEach_validated. fold (walked library).
  fold (walkWarnings library).
  destruct (forEach _ (walked library) _) as [st|]; [|done].
  cbn [mbind result_bind app].
  by destruct (forEach _ (lib_notebooks library) st).
Qed.

Lemma planLibraryFrom_onDisk library outputQuiverPath console st :
  planLibraryFrom library outputQuiverPath ∅ = Ok (console, st) →
  recordOnDisk library (newNotePathRecord st).
Proof.
  rewrite planLibraryFrom_walked.
  destruct (forEach _ (walked library) _) as [st1|] eqn:Hwalk; [|done].
  cbn [mbind result_bind].
  destruct (forEach _ (lib_notebooks library) st1) as [st2|] eqn:Horphans;
    [|done].
  cbn [mbind result_bind]. intros [= _ <-].
  eapply (forEach_invariant (λ st, recordOnDisk library (newNotePathRecord st)));
    [| |exact Horphans].
  - clear. intros st nb st' Hnb Hinv. unfold planOrphanNotebook.
    repeat case_decide; try by intros [= <-].
    destruct (planNotes _ _ _) as [r|] eqn:Hplan; [|done].
    cbn [mbind result_bind]. intros [= <-]. by eapply planNotes_onDisk.
  - eapply (forEach_invariant
              (λ st, recordOnDisk library (newNotePathRecord st)));
      [| |exact Hwalk].
    + clear. intros st [nb parents] st' Hnb%walked_on_disk Hinv.
      destruct Hnb as [_ Hnb]. cbn [fst snd]. unfold planWalkedNotebook.
      destruct (negb _ && negb _); [by intros [= <-]|].
      destruct (bool_decide _); [|by intros [= <-]].
      destruct (planNotes _ _ _) as [r|] eqn:Hplan; [|done].
      cbn [mbind result_bind]. intros [= <-]. by eapply planNotes_onDisk.
    + intros uuid p. simpl. by rewrite lookup_empty.
Qed.

Lemma NoDup_fmap_inj_on {A B} (f : A → B) (l : list A) x y :
  NoDup (f <$> l) → x ∈ l → y ∈ l → f x = f y → x = y.
Proof.
  induction l as [|z l IH]; [by intros _ ?%elem_of_nil|].
  rewrite fmap_cons. intros [Hz Hl]%NoDup_cons Hx Hy Heq.
  apply elem_of_cons in Hx as [->|Hx]; apply elem_of_cons in Hy as [->|Hy].
  - done.
  - destruct Hz. rewrite Heq. by apply list_elem_of_fmap_2.
  - destruct Hz. rewrite <- Heq. by apply list_elem_of_fmap_2.
  - by apply IH.
Qed.

Lemma libraryNotes_elem library note :
  note ∈ libraryNotes library ↔
  ∃ notebook, notebook ∈ lib_notebooks library ∧ note ∈ nb_notes notebook.
Proof.
  unfold libraryNotes. rewrite list_elem_of_join. split.
  - intros (l & Hnote & (nb & -> & Hnb)%list_elem_of_fmap). by exists nb.
  - intros (nb & Hnb & Hnote). exists (nb_notes nb). split; [done|].
    by apply list_elem_of_fmap_2.
Qed.

(** X6. After a plan that did not throw, for a library whose notebooks have
    pairwise different uuids, the first note link of the text that the
    steps on resources leave (see C1 for [earlier], [pre] and [label]; the
    configured extension names being plain) is rewritten from the plan: a
    link to the uuid of a note found on disk becomes the wikilink of that
    note's file name, [name.md] with [name] the sanitized title of the note
    or that title followed by a space and a number from 2 to 100, and no
    broken link is recorded; a link to any other uuid becomes the wikilink
    of the uuid and is recorded as broken.  What follows the link is
    rewritten in turn. *)
Theorem planned_links_resolve library outputPath console st
    needReplaceExtNames currentNoteResourceMap source data earlier pre label
    scheme uuid post brokenLinks :
  NoDup (nb_uuid <$> lib_notebooks library) →
  transformQvLibraryToObsidian library outputPath = Ok (console, st) →
  plainExtNames needReplaceExtNames →
  rewriteResources needReplaceExtNames currentNoteResourceMap data
  = earlier +:+ pre +:+ "[" +:+ label +:+ "](" +:+ scheme +:+ "/" +:+ uuid
    +:+ ")" +:+ post →
  wholeLines earlier = true →
  matchesNowhere false noteLinkReg earlier = true →
  Str.all (Str.isnt "[") pre = true →
  Str.all dot label = true →
  matchesNowhere false linkEndReg label = true →
  isNoteScheme scheme → isUuid uuid →
  (∀ note, note ∈ libraryNotes library → note_uuid note = uuid →
     ∃ name, nameOf note name ∧
       transformQuiverResourceAndNoteLink needReplaceExtNames
         currentNoteResourceMap (newNotePathRecord st) data source brokenLinks
       = let '(out, brokenLinks') :=
           replaceNoteLinks (newNotePathRecord st) source post brokenLinks in
         (earlier +:+ pre +:+ " [[" +:+ name +:+ ".md]]" +:+ out,
          brokenLinks')) ∧
  (uuid ∉ note_uuid <$> libraryNotes library →
     transformQuiverResourceAndNoteLink needReplaceExtNames
       currentNoteResourceMap (newNotePathRecord st) data source brokenLinks
     = let '(out, brokenLinks') :=
         replaceNoteLinks (newNotePathRecord st) source post
           (brokenLinks
            ++ [mkBrokenLink (note_title source) (note_uuid source) uuid]) in
       (earlier +:+ pre +:+ " [[" +:+ uuid +:+ "]]" +:+ out, brokenLinks')).
Proof.
  unfold transformQvLibraryToObsidian.
  intros Hnodup Hplan _ Hdata Hlines Hearlier Hpre Hdot Hlabel Hscheme Huuid.
  rewrite transform_rewriteResources, Hdata.
  rewrite replaceNoteLinks_first by done.
  pose proof (planLibraryFrom_onDisk _ _ _ _ Hplan) as HonDisk.
  unfold linkTarget, linkBroken. split.
  - intros note (nb & Hnb & Hnote)%libraryNotes_elem Hu.
    destruct (planLibraryFrom_Ok_covers _ _ _ _ Hnodup Hplan nb note Hnb Hnote)
      as (c & p & Hrec).
    rewrite Hu in Hrec. rewrite Hrec, app_nil_r.
    destruct (HonDisk _ _ Hrec)
      as (nb' & note' & name & Hnb' & Hnote' & Hu' & Hname & ->).
    assert (note' = note) as ->.
    { eapply (NoDup_fmap_inj_on note_uuid (libraryNotes library)).
      - by eapply planLibraryFrom_Ok_NoDup.
      - apply libraryNotes_elem. by exists nb'.
      - apply libraryNotes_elem. by exists nb.
      - congruence. }
    exists name. split; [done|].
    destruct (replaceNoteLinks _ _ post _) as [out bl].
    by rewrite !str_app_assoc.
  - intros Hnot.
    destruct (newNotePathRecord st !! uuid) as [p|] eqn:Hrec.
    + destruct Hnot.
      destruct (HonDisk _ _ Hrec) as (nb & note & _ & Hnb & Hnote & <- & _).
      apply list_elem_of_fmap_2, libraryNotes_elem. by exists nb.
    + done.
Qed.

Lemma planned_links_resolve_witness :
  transformQuiverResourceAndNoteLink [] ∅
    {[ "D2A1CC36-CC97-4701-A895-EFC98EF47026" := "/out/quiver/Work/Title.md";
       "0B5FDF0E-1FA0-4E6C-9C2C-3B5D1A0E8F11" := "/out/quiver/Work/Index.md" ]}
    "see [gone](quiver-note-url/FFFFFFFF-0000-4000-8000-000000000000)."
    (mkNote "0B5FDF0E-1FA0-4E6C-9C2C-3B5D1A0E8F11" "Index") []
  = ("see  [[FFFFFFFF-0000-4000-8000-000000000000]].",
     [mkBrokenLink "Index" "0B5FDF0E-1FA0-4E6C-9C2C-3B5D1A0E8F11"
        "FFFFFFFF-0000-4000-8000-000000000000"]).
Proof.
  destruct (planned_links_resolve libLinked "/out" []
    (mkPlan
       {[ "D2A1CC36-CC97-4701-A895-EFC98EF47026" := "/out/quiver/Work/Title.md";
          "0B5FDF0E-1FA0-4E6C-9C2C-3B5D1A0E8F11" := "/out/quiver/Work/Index.md" ]}
       {["A"]})
    [] ∅ (mkNote "0B5FDF0E-1FA0-4E6C-9C2C-3B5D1A0E8F11" "Index")
    "see [gone](quiver-note-url/FFFFFFFF-0000-4000-8000-000000000000)."
    "" "see " "gone" "quiver-note-url"
    "FFFFFFFF-0000-4000-8000-000000000000" "." []) as [_ Hbroken].
  - vm_compute. repeat constructor; by apply not_elem_of_nil.
  - vm_compute. reflexivity.
  - constructor.
  - vm_compute. reflexivity.
  - reflexivity.
  - vm_compute. reflexivity.
  - reflexivity.
  - reflexivity.
  - vm_compute. reflexivity.
  - by left.
  - exists "FFFFFFFF", "0000", "4000", "8000", "000000000000".
    repeat split; reflexivity.
  - cbn [newNotePathRecord] in Hbroken. rewrite Hbroken.
    + vm_compute. reflexivity.
    + vm_compute.
      intros H. repeat (apply elem_of_cons in H as [H|H]; [discriminate H|]).
      by apply elem_of_nil in H.
Defined.

(** X7. After a plan that did not throw, for a library whose notebooks have
    pairwise different uuids, [noteCount], the total of the progress bar, is
    the number of notes found on disk, and the record has an entry for
    exactly the uuids of these notes. *)
Theorem noteCount_all_notes library outputPath console st :
  NoDup (nb_uuid <$> lib_notebooks library) →
  transformQvLibraryToObsidian library outputPath = Ok (console, st) →
  (noteCount st = length (libraryNotes library)) ∧
  (∀ uuid, is_Some (newNotePathRecord st !! uuid) ↔
           uuid ∈ note_uuid <$> libraryNotes library).
Proof.
  unfold transformQvLibraryToObsidian. intros Hnodup Hplan.
  pose proof (planLibraryFrom_onDisk _ _ _ _ Hplan) as HonDisk.
  pose proof (planLibraryFrom_Ok_NoDup _ _ _ _ Hnodup Hplan) as Hnd.
  assert (Hdom : ∀ uuid, is_Some (newNotePathRecord st !! uuid) ↔
                         uuid ∈ note_uuid <$> libraryNotes library).
  { intros uuid. split.
    - intros [p Hrec].
      destruct (HonDisk _ _ Hrec) as (nb & note & _ & Hnb & Hnote & <- & _).
      apply list_elem_of_fmap_2, libraryNotes_elem. by exists nb.
    - intros (note & -> & (nb & Hnb & Hnote)%libraryNotes_elem)%list_elem_of_fmap.
      destruct (planLibraryFrom_Ok_covers _ _ _ _ Hnodup Hplan nb note Hnb Hnote)
        as (c & p & Hrec). by eexists. }
  split; [|done]. unfold noteCount.
  rewrite <- size_dom, <- (length_fmap note_uuid).
  rewrite <- (size_list_to_set (C := gset string)) by done. f_equal.
  apply set_eq. intros uuid. rewrite elem_of_dom, elem_of_list_to_set.
  apply Hdom.
Qed.

Lemma noteCount_all_notes_witness :
  noteCount
    (mkPlan
       {[ "D2A1CC36-CC97-4701-A895-EFC98EF47026" := "/out/quiver/Work/Title.md";
          "0B5FDF0E-1FA0-4E6C-9C2C-3B5D1A0E8F11" := "/out/quiver/Work/Index.md" ]}
       {["A"]})
  = 2%nat.
Proof.
  destruct (noteCount_all_notes libLinked "/out" []
    (mkPlan
       {[ "D2A1CC36-CC97-4701-A895-EFC98EF47026" := "/out/quiver/Work/Title.md";
          "0B5FDF0E-1FA0-4E6C-9C2C-3B5D1A0E8F11" := "/out/quiver/Work/Index.md" ]}
       {["A"]})) as [Hcount _].
  - vm_compute. repeat constructor; by apply not_elem_of_nil.
  - vm_compute. reflexivity.
  - rewrite Hcount. reflexivity.
Defined.

(* ===================================================================== *)
(** * index.ts: writeLibrary and writeNotebook *)
(* ===================================================================== *)

(** Two loops over the same list, the second one following the first. *)
Lemma forEach_lockstep {A S1 S2} (R : S1 → S2 → Prop)
    (f : S1 → A → result S1) (g : S2 → A → result S2) l :
  (∀ x s1 s2 s1', x ∈ l → R s1 s2 → f s1 x = Ok s1' →
     ∃ s2', g s2 x = Ok s2' ∧ R s1' s2') →
  ∀ s1 s2 s1', R s1 s2 → forEach f l s1 = Ok s1' →
    ∃ s2', forEach g l s2 = Ok s2' ∧ R s1' s2'.
Proof.
  induction l as [|x l IH]; intros Hstep s1 s2 s1' HR; cbn [forEach].
  - intros [= <-]. by exists s2.
  - destruct (f s1 x) as [t1|] eqn:Hf; cbn [mbind result_bind]; [|done].
    destruct (Hstep x s1 s2 t1) as (t2 & -> & HR'); [left|done..|].
    cbn [mbind result_bind]. apply IH; [|done].
    intros y ????. apply Hstep. by right.
Qed.

(** Planning the notes of a notebook keeps the entries there are. *)
Lemma planNotes_preserves newPath notes record r :
  planNotes newPath notes record = Ok r →
  ∀ uuid notePath, record !! uuid = Some notePath → notePath ≠ "" →
    r.2 !! uuid = Some notePath.
Proof.
  unfold planNotes. intros Hplan uuid p Hrec Hp.
  eapply (forEach_invariant (λ st, st.2 !! uuid = Some p) _ _ ([], record));
    [|exact Hrec|exact Hplan].
  clear -Hp. intros [names rec] note [names' rec'] _ Hinv Hstep.
  apply planNote_Ok in Hstep as (Hfresh & name & _ & _ & -> & _).
  simpl in *. rewrite lookup_insert_ne; [done|]. intros <-.
  apply Hfresh. destruct p as [|c p]; [done|]. by exists c, p.
Qed.

(** It adds entries for the notes of the notebook only. *)
Lemma planNotes_keys newPath notes record r :
  planNotes newPath notes record = Ok r →
  ∀ uuid, is_Some (r.2 !! uuid) →
    is_Some (record !! uuid) ∨ uuid ∈ note_uuid <$> notes.
Proof.
  unfold planNotes. intros Hplan uuid.
  eapply (forEach_invariant
    (λ st, is_Some (st.2 !! uuid) →
           is_Some (record !! uuid) ∨ uuid ∈ note_uuid <$> notes)
    _ _ ([], record)); [|by left|exact Hplan].
  clear. intros [names rec] note [names' rec'] Hnote Hinv Hstep.
  apply planNote_Ok in Hstep as (_ & name & _ & _ & -> & _). simpl in *.
  destruct (decide (note_uuid note = uuid)) as [<-|Hne].
  - intros _. right. by apply list_elem_of_fmap_2.
  - by rewrite lookup_insert_ne.
Qed.

(** Every note of the notebook gets an entry under the notebook's path. *)
Lemma planNotes_entries newPath notes record r :
  planNotes newPath notes record = Ok r →
  ∀ note, note ∈ notes →
    ∃ name, nameOf note name ∧
      r.2 !! note_uuid note = Some (path.join [newPath; name +:+ ".md"]).
Proof.
  destruct r as [names record']. intros Hplan note Hnote.
  destruct (planNotes_lookup _ _ _ _ _ Hplan) as [Hlen Hchar].
  apply list_elem_of_lookup in Hnote as [i Hi].
  destruct (lookup_lt_is_Some_2 names i) as [name Hname];
    [apply lookup_lt_Some in Hi; lia|].
  destruct (Hchar _ _ _ Hi Hname) as [Hrec Hch]. exists name.
  split; [|done]. unfold chosenName in Hch. destruct (includes _ _).
  - destruct (newDistinctNoteName_spec (sanitizeNoteTitle (note_title note))
                (take i names) 2) as [(n & Hn & Heq & _)|[Heq _]];
      rewrite Heq in Hch; [|done].
    injection Hch as <-. right. exists n. by unfold MAX_RENAME_COUNT in Hn.
  - by left.
Qed.

(** What the two passes over the notebooks share: the notebooks listed for
    writing are the notebooks whose notes were planned, in the same order,
    each under the path its notes were planned under. *)
Definition written (library : QvLibrary) (st : PlanState)
    (wst : list NotebookInfo * gset string) : Prop :=
  notebooksInMeta st = wst.2 ∧
  plannedNotes (newNotePathRecord st)
    (mjoin (nb_notes ∘ info_notebook <$> wst.1)) ∧
  (∀ uuid, is_Some (newNotePathRecord st !! uuid) →
     uuid ∈ note_uuid <$> mjoin (nb_notes ∘ info_notebook <$> wst.1)) ∧
  Forall (λ info,
    nb_notes (info_notebook info) ≠ [] ∧
    info_notebook info ∈ lib_notebooks library ∧
    ∀ note, note ∈ nb_notes (info_notebook info) →
      ∃ name, nameOf note name ∧
        newNotePathRecord st !! note_uuid note
        = Some (path.join [info_notebookPath info; name +:+ ".md"])) wst.1.

Lemma written_meta library st infos inMeta inMeta' :
  written library st (infos, inMeta) →
  written library (mkPlan (newNotePathRecord st) inMeta') (infos, inMeta').
Proof.
  intros (_ & H2 & H3 & H4).
  split; [done|]. split; [exact H2|]. split; [exact H3|exact H4].
Qed.

Lemma written_add library st infos inMeta inMeta' newPath notebook r :
  written library st (infos, inMeta) →
  notebook ∈ lib_notebooks library → nb_notes notebook ≠ [] →
  planNotes newPath (nb_notes notebook) (newNotePathRecord st) = Ok r →
  written library (mkPlan r.2 inMeta')
    (infos ++ [mkNotebookInfo notebook newPath], inMeta').
Proof.
  intros (_ & Hplanned & Hkeys & Hinfos) Hnb Hnotes Hplan.
  assert (Hjoin : mjoin (nb_notes ∘ info_notebook <$>
                           infos ++ [mkNotebookInfo notebook newPath])
                  = mjoin (nb_notes ∘ info_notebook <$> infos)
                      ++ nb_notes notebook).
  { rewrite fmap_app. cbn [fmap list_fmap]. by rewrite mjoin_snoc. }
  split; [done|]. cbn [fst snd newNotePathRecord]. rewrite Hjoin.
  split; [|split].
  - destruct r as [names record']. unfold planNotes in Hplan.
    by eapply planNotes_from_Ok in Hplan as [? _].
  - intros uuid Hu. rewrite fmap_app. apply elem_of_app.
    destruct (planNotes_keys _ _ _ _ Hplan uuid Hu) as [?|?]; auto.
  - apply Forall_app. split.
    + eapply Forall_impl; [exact Hinfos|]. cbv beta.
      intros info (? & ? & Hentries). do 2 (split; [done|]).
      intros note Hnote. destruct (Hentries note Hnote) as (name & ? & Hrec).
      exists name. split; [done|].
      eapply planNotes_preserves; [done..|apply path_join_nonempty].
    + repeat constructor; [done..|]. cbn [info_notebook info_notebookPath].
      by eapply planNotes_entries.
Qed.

Lemma written_walked library outputQuiverPath notebook parents st wst st' :
  notebook ∈ lib_notebooks library →
  written library st wst →
  planWalkedNotebook library outputQuiverPath notebook parents st = Ok st' →
  ∃ wst', listWalkedNotebook library outputQuiverPath notebook parents wst
            = Ok wst' ∧ written library st' wst'.
Proof.
  intros Hnb Hw. destruct wst as [infos inMeta].
  unfold planWalkedNotebook, listWalkedNotebook.
  pose proof Hw as [HinMeta _]. cbn [snd] in HinMeta. rewrite HinMeta.
  destruct (negb _ && negb _).
  { intros [= <-]. eexists. split; [done|]. by eapply written_meta. }
  destruct (bool_decide (nb_notes notebook ≠ [])) eqn:Hnotes.
  - apply bool_decide_eq_true in Hnotes.
    destruct (planNotes _ _ _) as [r|] eqn:Hplan; [|done].
    cbn [mbind result_bind]. intros [= <-]. eexists. split; [done|].
    by eapply written_add.
  - intros [= <-]. eexists. split; [done|]. by eapply written_meta.
Qed.

Lemma written_orphan library outputQuiverPath notebook st wst st' :
  notebook ∈ lib_notebooks library →
  written library st wst →
  planOrphanNotebook outputQuiverPath st notebook = Ok st' →
  ∃ wst', listOrphanNotebook outputQuiverPath wst notebook = Ok wst' ∧
          written library st' wst'.
Proof.
  intros Hnb Hw. destruct wst as [infos inMeta].
  unfold planOrphanNotebook, listOrphanNotebook.
  pose proof Hw as [HinMeta _]. cbn [snd] in HinMeta. rewrite HinMeta.
  destruct (decide _); [intros [= <-]; by eexists|].
  destruct (decide _) as [|Hnotes]; [intros [= <-]; by eexists|].
  destruct (planNotes _ _ _) as [r|] eqn:Hplan; [|done].
  cbn [mbind result_bind]. intros [= <-]. eexists. split; [done|].
  rewrite <- HinMeta. by eapply written_add.
Qed.

Lemma writeLibrary_walked library outputQuiverPath record :
  writeLibrary library outputQuiverPath record =
  (st ← forEach (λ st c, listWalkedNotebook library outputQuiverPath c.1 c.2 st)
         (walked library) ([], ∅);
   '(infos, _) ← forEach (listOrphanNotebook outputQuiverPath)
                   (lib_notebooks library) st;
   Ok (walkWarnings library,
       writeNotebook record <$> (infos : list NotebookInfo))).
Proof.
  unfold writeLibrary.
  rewrite Quiver_walk_declared, forEach_validated. fold (walked library).
  fold (walkWarnings library).
  destruct (forEach _ (walked library) _) as [st|]; [|done].
  cbn [mbind result_bind app].
  by destruct (forEach _ (lib_notebooks library) st) as [[]|].
Qed.

(** The notebooks listed by [writeLibrary] after a plan that did not throw. *)
Lemma writeLibrary_written library outputQuiverPath console st :
  planLibraryFrom library outputQuiverPath ∅ = Ok (console, st) →
  ∃ infos,
    writeLibrary library outputQuiverPath (newNotePathRecord st)
    = Ok (console, writeNotebook (newNotePathRecord st) <$> infos) ∧
    written library st (infos, notebooksInMeta st).
Proof.
  rewrite planLibraryFrom_walked, writeLibrary_walked.
  destruct (forEach _ (walked library) _) as [st1|] eqn:Hwalk; [|done].
  cbn [mbind result_bind].
  destruct (forEach _ (lib_notebooks library) st1) as [st2|] eqn:Horphans;
    [|done].
  cbn [mbind result_bind]. intros [= <- <-].
  eapply (forEach_lockstep (written library)) in Hwalk
    as (wst1 & -> & Hw1).
  - cbn [mbind result_bind].
    eapply (forEach_lockstep (written library)) in Horphans
      as ([infos inMeta] & -> & Hw2); [|by intros; eapply written_orphan|done].
    cbn [mbind result_bind fst]. exists infos. split; [done|].
    pose proof Hw2 as [HinMeta _]. cbn [snd] in HinMeta. by rewrite HinMeta.
  - intros [nb parents] s1 s2 s1' [_ Hnb]%walked_on_disk. cbn [fst snd].
    by apply written_walked.
  - repeat split; simpl; [constructor|by intros ? ?%elem_of_nil| |constructor].
    intros uuid [p Hp]. by rewrite lookup_empty in Hp.
Qed.

(** X8. After a plan that did not throw, [writeLibrary] prints the warnings
    of the plan a second time, and then every [writeNotebook] it starts is
    for a notebook with notes, found on disk, and hands every note of that
    notebook to [writeNote] with a path that is defined: the one planned for
    the note, a file [name.md] directly under the directory that
    [writeNotebook] prepares, [name] being made from the title of the note. *)
Theorem writeLibrary_follows_plan library outputPath console st :
  transformQvLibraryToObsidian library outputPath = Ok (console, st) →
  ∃ calls,
    (writeLibrary library (path.join [outputPath; "quiver"])
       (newNotePathRecord st) = Ok (console, calls)) ∧
    Forall (λ call,
      (call.2 ≠ []) ∧
      Forall (λ job,
        ∃ notebook name,
          notebook ∈ lib_notebooks library ∧ job.1 ∈ nb_notes notebook ∧
          nameOf job.1 name ∧
          (job.2 = Some (path.join [call.1; name +:+ ".md"])) ∧
          (newNotePathRecord st !! note_uuid job.1 = job.2)) call.2) calls.
Proof.
  unfold transformQvLibraryToObsidian.
  intros (infos & Hwrite & _ & _ & _ & Hinfos)%writeLibrary_written.
  eexists. split; [exact Hwrite|]. cbn [fst] in Hinfos.
  apply Forall_fmap. eapply Forall_impl; [exact Hinfos|]. cbv beta.
  intros [nb dir] (Hnotes & Hnb & Hentries). unfold writeNotebook.
  cbn [fst snd info_notebook info_notebookPath] in *. split.
  - by intros Hnil%fmap_nil_inv.
  - apply Forall_fmap, Forall_forall. intros note Hnote. cbn [fst snd].
    destruct (Hentries note Hnote) as (name & Hname & Hrec).
    exists nb, name. by rewrite Hrec.
Qed.

Lemma writeLibrary_follows_plan_witness :
  ∃ calls,
    writeLibrary libMissingParent (path.join ["/out"; "quiver"])
      {[ "n1" := "/out/quiver/Drafts/t.md" ]}
    = Ok (["Warning: Notebook M referenced in meta.json but not found in filesystem. Skipping.";
        "Warning: Parent notebook M not found in filesystem. Skipping notebook D."],
          calls)
    ∧ Forall (λ call, call.2 ≠ []) calls.
Proof.
  destruct (writeLibrary_follows_plan libMissingParent "/out"
    ["Warning: Notebook M referenced in meta.json but not found in filesystem. Skipping.";
        "Warning: Parent notebook M not found in filesystem. Skipping notebook D."]
    (mkPlan {[ "n1" := "/out/quiver/Drafts/t.md" ]} ∅))
    as (calls & Hwrite & Hcalls).
  - vm_compute. reflexivity.
  - exists calls. split; [exact Hwrite|].
    eapply Forall_impl; [exact Hcalls|]. by intros call [? _].
Defined.

(** X9. After a plan that did not throw, for a library whose notebooks have
    pairwise different uuids, the notes that [writeLibrary] hands to
    [writeNote] are the notes found on disk, each exactly once. *)
Theorem writeLibrary_writes_every_note library outputPath console st calls :
  NoDup (nb_uuid <$> lib_notebooks library) →
  transformQvLibraryToObsidian library outputPath = Ok (console, st) →
  writeLibrary library (path.join [outputPath; "quiver"])
    (newNotePathRecord st) = Ok (console, calls) →
  mjoin ((λ call, fst <$> call.2) <$> calls) ≡ₚ libraryNotes library.
Proof.
  unfold transformQvLibraryToObsidian. intros Hnodup Hplan.
  destruct (writeLibrary_written _ _ _ _ Hplan)
    as (infos & -> & _ & [Hnd Hplanned] & Hkeys & Hinfos).
  intros [= <-]. cbn [fst] in *.
  assert (Heq : mjoin ((λ call, fst <$> call.2)
                         <$> (writeNotebook (newNotePathRecord st) <$> infos))
                = mjoin (nb_notes ∘ info_notebook <$> infos)).
  { f_equal. rewrite <- list_fmap_compose. apply list_fmap_ext.
    intros _ info _. unfold writeNotebook. simpl.
    rewrite <- list_fmap_compose. apply list_fmap_id. }
  rewrite Heq. clear Heq.
  pose proof (planLibraryFrom_Ok_NoDup _ _ _ _ Hnodup Hplan) as Hdisk.
  apply NoDup_Permutation.
  - by eapply NoDup_fmap_1.
  - by eapply NoDup_fmap_1.
  - intros note. split.
    + intros (l & Hnote & (info & -> & Hinfo)%list_elem_of_fmap)%list_elem_of_join.
      rewrite Forall_forall in Hinfos.
      destruct (Hinfos info Hinfo) as (_ & Hnb & _).
      apply libraryNotes_elem. by eexists.
    + intros Hnote. pose proof Hnote as (nb & Hnb & Hin)%libraryNotes_elem.
      destruct (planLibraryFrom_Ok_covers _ _ _ _ Hnodup Hplan nb note Hnb Hin)
        as (c & p & Hrec).
      assert (Hkey : note_uuid note ∈
        note_uuid <$> mjoin (nb_notes ∘ info_notebook <$> infos))
        by (apply Hkeys; by eexists).
      apply list_elem_of_fmap in Hkey as (note' & Hu & Hnote').
      assert (note' = note) as ->; [|done].
      eapply (NoDup_fmap_inj_on note_uuid (libraryNotes library)); try done.
      apply list_elem_of_join in Hnote'
        as (l & Hnote' & (info & -> & Hinfo)%list_elem_of_fmap).
      rewrite Forall_forall in Hinfos.
      destruct (Hinfos info Hinfo) as (_ & Hnb' & _).
      apply libraryNotes_elem. by eexists.
Qed.

Lemma writeLibrary_writes_every_note_witness :
  [mkNote "D2A1CC36-CC97-4701-A895-EFC98EF47026" "Title";
   mkNote "0B5FDF0E-1FA0-4E6C-9C2C-3B5D1A0E8F11" "Index"]
  ≡ₚ libraryNotes libLinked.
Proof.
  apply (writeLibrary_writes_every_note libLinked "/out" []
    (mkPlan
       {[ "D2A1CC36-CC97-4701-A895-EFC98EF47026" := "/out/quiver/Work/Title.md";
          "0B5FDF0E-1FA0-4E6C-9C2C-3B5D1A0E8F11" := "/out/quiver/Work/Index.md" ]}
       {["A"]})
    [("/out/quiver/Work",
      [(mkNote "D2A1CC36-CC97-4701-A895-EFC98EF47026" "Title",
        Some "/out/quiver/Work/Title.md");
       (mkNote "0B5FDF0E-1FA0-4E6C-9C2C-3B5D1A0E8F11" "Index",
        Some "/out/quiver/Work/Index.md")])]).
  - vm_compute. repeat constructor; by apply not_elem_of_nil.
  - vm_compute. reflexivity.
  - vm_compute. reflexivity.
Defined.

(* ===================================================================== *)
(** * The matcher: where a match ends *)
(* ===================================================================== *)

(** The state [st1] is reached from [st] by reading characters. *)
Definition advances (st st1 : mstate) : Prop :=
  ∃ read, rest st = read +:+ rest st1 ∧
          pos st1 = (pos st + String.length read)%nat.

Lemma advances_refl st : advances st st.
Proof. exists "". split; [done|]. simpl. lia. Qed.

Lemma advances_trans st1 st2 st3 :
  advances st1 st2 → advances st2 st3 → advances st1 st3.
Proof.
  intros (r1 & H1 & P1) (r2 & H2 & P2). exists (r1 +:+ r2).
  rewrite H1, H2, str_app_assoc, str_length_app. split; [done|lia].
Qed.

Lemma stripLit_read ci lit s s' :
  stripLit ci lit s = Some s' →
  ∃ read, s = read +:+ s' ∧ String.length read = String.length lit.
Proof.
  revert s. induction lit as [|a lit IH]; intros s.
  - destruct s; intros [= <-]; by exists "".
  - destruct s as [|x s]; simpl; [done|]. case_decide; [|done].
    intros (read & -> & Hlen)%IH. exists (String x read).
    split; [done|]. simpl. by rewrite Hlen.
Qed.

Lemma star_read greedy p s : ∀ i c (k : cont) res,
  star greedy p i s c k = Some res →
  ∃ read s', s = read +:+ s' ∧
             k (mkState (i + String.length read) s' c) = Some res.
Proof.
  assert (Hhere : ∀ i s c (k : cont) res, k (mkState i s c) = Some res →
    ∃ read s', s = read +:+ s' ∧
               k (mkState (i + String.length read) s' c) = Some res).
  { intros i s0 c k res Hk. exists "", s0. split; [done|].
    simpl. by rewrite Nat.add_0_r. }
  assert (Hnext : ∀ a s i c (k : cont) res,
    (∃ read s', s = read +:+ s' ∧
                k (mkState (S i + String.length read) s' c) = Some res) →
    ∃ read s', String a s = read +:+ s' ∧
               k (mkState (i + String.length read) s' c) = Some res).
  { intros a s0 i c k res (read & s' & -> & Hk). exists (String a read), s'.
    split; [done|]. simpl. by rewrite Nat.add_succ_r. }
  induction s as [|a s IH]; intros i c k res; simpl.
  - apply Hhere.
  - destruct greedy.
    + destruct (p a); [|apply Hhere].
      destruct (star true p (S i) s c k) as [r|] eqn:Hstar.
      * intros [= <-]. apply Hnext. by apply IH.
      * apply Hhere.
    + destruct (k (mkState i (String a s) c)) as [r|] eqn:Hk.
      * intros [= <-]. by apply Hhere.
      * destruct (p a); [|done]. intros H. apply Hnext. by apply IH.
Qed.

Lemma repeat_read n p : ∀ i s c (k : cont) res,
  repeat n p i s c k = Some res →
  ∃ read s', s = read +:+ s' ∧
             k (mkState (i + String.length read) s' c) = Some res.
Proof.
  induction n as [|n IH]; intros i s c k res; simpl.
  - intros Hk. exists "", s. split; [done|]. simpl. by rewrite Nat.add_0_r.
  - destruct s as [|a s]; [done|]. destruct (p a); [|done].
    intros (read & s' & -> & Hk)%IH. exists (String a read), s'.
    split; [done|]. simpl. by rewrite Nat.add_succ_r.
Qed.

(** The rest of the pattern is tried on states reached by reading. *)
Lemma run_advances ci r : ∀ st (k : cont) res,
  run ci r st k = Some res →
  ∃ st1, advances st st1 ∧ k st1 = Some res.
Proof.
  induction r as [lit|p|r1 IH1 r2 IH2|r1 IH1 r2 IH2|greedy p|n p|r IH|n r IH| |];
    intros st k res; cbn [run].
  - destruct (stripLit ci lit (rest st)) as [s'|] eqn:Hs; [|done].
    intros Hk. eexists. split; [|exact Hk].
    apply stripLit_read in Hs as (read & Hs & Hlen).
    exists read. cbn [pos rest]. by rewrite Hlen.
  - destruct (rest st) as [|a s'] eqn:Hs; [done|]. destruct (p a); [|done].
    intros Hk. eexists. split; [|exact Hk]. exists (String a "").
    cbn [pos rest]. rewrite Hs. split; [done|]. simpl. lia.
  - intros (st1 & H1 & (st2 & H2 & Hk)%IH2)%IH1. exists st2.
    split; [by eapply advances_trans|done].
  - destruct (run ci r1 st k) as [r|] eqn:Hr1.
    + intros [= <-]. by apply IH1.
    + apply IH2.
  - intros (read & s' & Hs & Hk)%star_read. eexists. split; [|exact Hk].
    by exists read.
  - intros (read & s' & Hs & Hk)%repeat_read. eexists. split; [|exact Hk].
    by exists read.
  - destruct (run ci r st _) as [r'|] eqn:Hr.
    + intros [= <-]. apply IH in Hr as (st1 & H1 & Hk).
      exists st1. split; [done|]. by case_decide.
    + intros Hk. exists st. split; [apply advances_refl|done].
  - intros (st1 & H1 & Hk)%IH. eexists. split; [|exact Hk]. exact H1.
  - case_decide; [|done]. intros Hk. exists st. split; [apply advances_refl|done].
  - destruct (rest st) eqn:Hs; [|done]. intros Hk. exists st.
    split; [apply advances_refl|done].
Qed.

(** A match that starts at index [i] of the input ends at an index between
    [i] and the end of the input. *)
Lemma exec_advances ci r i s res :
  exec ci r i s = Some res →
  ∃ read, s = read +:+ rest res ∧ pos res = (i + String.length read)%nat.
Proof.
  unfold exec. intros (st1 & (read & Hs & Hpos) & [= <-])%run_advances.
  by exists read.
Qed.

Lemma take_drop n s : Str.take n s +:+ Str.drop n s = s.
Proof.
  revert s. induction n as [|n IH]; intros [|a s]; try done.
  cbn [Str.take Str.drop]. by rewrite str_app_cons, IH.
Qed.

(** Replacing every match by itself gives the input back. *)
Lemma replaceFrom_same {St} ci r (f : matched → St → string * St) :
  (∀ m st, f m st = (m_text m, st)) →
  ∀ s i skip st, replaceFrom ci r f i skip s st = (Str.drop skip s, st).
Proof.
  intros Hf. induction s as [|a s IH]; intros i skip st.
  - destruct skip; cbn [replaceFrom Str.drop]; [|done].
    destruct (exec ci r i "") as [res|]; [|done].
    rewrite Hf. unfold matchedAt. cbn [m_text]. by destruct (pos res - i)%nat.
  - destruct skip; cbn [replaceFrom Str.drop]; [|apply IH].
    destruct (exec ci r i (String a s)) as [res|] eqn:Hexec.
    + rewrite Hf, IH. unfold matchedAt. cbn [m_text].
      apply exec_advances in Hexec as (read & _ & ->).
      replace (i + String.length read - i)%nat with (String.length read) by lia.
      destruct (String.length read) as [|n]; simpl.
      * by rewrite decide_True by lia.
      * rewrite decide_False by lia.
        by rewrite Nat.sub_0_r, str_app_cons, take_drop.
    + by rewrite IH.
Qed.

Lemma replace_same ci r f s :
  (∀ m, f m = m_text m) → replace ci r f s = s.
Proof.
  intros Hf. unfold replace, replaceWith. rewrite replaceFrom_same; [done|].
  intros m []. by rewrite Hf.
Qed.

(** X10. With an empty resource map (no resource copied for the note), the
    step that updates resource links to the final file names changes
    nothing: the transformation is the two scheme replacements, the
    resource-name rules and the note-link rewriting. *)
Theorem no_resources_links_kept needReplaceExtNames newNotePathRecord data note
    brokenLinks :
  transformQuiverResourceAndNoteLink needReplaceExtNames ∅ newNotePathRecord
    data note brokenLinks =
  replaceNoteLinks newNotePathRecord note
    (replaceResourceName needReplaceExtNames false
       (replace false (Lit "quiver-file-url/") (λ _, "_resources/")
          (replace false (Lit "quiver-image-url/") (λ _, "_resources/") data)))
    brokenLinks.
Proof.
  unfold transformQuiverResourceAndNoteLink. cbv zeta.
  rewrite (replace_same false resourceLinkReg); [done|].
  intros m. unfold resourceLinkReplacer. by rewrite !lookup_empty.
Qed.

(* ===================================================================== *)
(** * The matcher: characters a match cannot do without *)
(* ===================================================================== *)

(** The 256 code units. *)
Definition allAscii : list ascii := ascii_of_nat <$> seq 0 256.

Lemma allAscii_elem x : x ∈ allAscii.
Proof.
  unfold allAscii. rewrite <- (ascii_nat_embedding x).
  apply list_elem_of_fmap_2, elem_of_seq. pose proof (nat_ascii_bounded x). lia.
Qed.

Lemma forallb_allAscii (p : ascii → bool) :
  forallb p allAscii = true → ∀ x, p x = true.
Proof.
  intros H x. rewrite forallb_forall in H. apply H.
  apply list_elem_of_In, allAscii_elem.
Qed.

(** [requires φ ci r]: by the shape of [r], every match of [r] reads a
    character at which [φ] is false. *)
Fixpoint requires (φ : ascii → bool) (ci : bool) (r : regex) : bool :=
  match r with
  | Lit s =>
      Str.any (λ a, forallb (λ x, implb (bool_decide (canon ci a = canon ci x))
                                        (negb (φ x))) allAscii) s
  | Class p => forallb (λ x, implb (p x) (negb (φ x))) allAscii
  | Seq r1 r2 => requires φ ci r1 || requires φ ci r2
  | Alt r1 r2 => requires φ ci r1 && requires φ ci r2
  | Group _ r => requires φ ci r
  | _ => false
  end.

(** A pattern whose rest fails wherever [φ] holds of all that is left fails
    on an input of which [φ] holds throughout. *)
Lemma run_free φ ci r st (k : cont) :
  Str.all φ (rest st) = true →
  (∀ st1, Str.all φ (rest st1) = true → k st1 = None) →
  run ci r st k = None.
Proof.
  intros Hst Hk. destruct (run ci r st k) as [res|] eqn:Hrun; [|done].
  apply run_advances in Hrun as (st1 & (read & Hread & _) & Hres).
  rewrite Hk in Hres; [done|]. rewrite Hread, all_app in Hst.
  by apply andb_prop in Hst as [_ ?].
Qed.

Lemma stripLit_requires φ ci lit : ∀ s,
  Str.any (λ a, forallb (λ x, implb (bool_decide (canon ci a = canon ci x))
                                    (negb (φ x))) allAscii) lit = true →
  Str.all φ s = true → stripLit ci lit s = None.
Proof.
  induction lit as [|a lit IH]; intros s; [done|]. cbn [Str.any].
  intros Hlit Hs. destruct s as [|x s]; [done|]. cbn [stripLit].
  apply andb_prop in Hs as [Hx Hs]. case_decide as Hax; [|done].
  apply orb_prop in Hlit as [Ha|Hlit]; [|by apply IH].
  pose proof (forallb_allAscii _ Ha x) as Himp. cbv beta in Himp.
  rewrite bool_decide_eq_true_2, Hx in Himp by done. done.
Qed.

Lemma run_requires φ ci r : ∀ st (k : cont),
  requires φ ci r = true → Str.all φ (rest st) = true →
  run ci r st k = None.
Proof.
  induction r as [lit|p|r1 IH1 r2 IH2|r1 IH1 r2 IH2|greedy p|n p|r IH|n r IH| |];
    intros st k; cbn [requires run]; try done.
  - intros Hlit Hst. by rewrite (stripLit_requires φ).
  - intros Hp Hst. destruct (rest st) as [|a s]; [done|].
    apply andb_prop in Hst as [Ha _].
    pose proof (forallb_allAscii _ Hp a) as Himp. cbv beta in Himp.
    destruct (p a); [|done]. by rewrite Ha in Himp.
  - intros [H1|H2]%orb_prop Hst; [by apply IH1|].
    apply (run_free φ); [done|]. intros st1 Hst1. by apply IH2.
  - intros [H1 H2]%andb_prop Hst. by rewrite IH1, IH2.
  - intros Hr Hst. by apply IH.
Qed.

Lemma exec_requires φ ci r i s :
  requires φ ci r = true → Str.all φ s = true → exec ci r i s = None.
Proof. intros Hr Hs. by apply (run_requires φ). Qed.

(** Where the pattern matches nowhere, nothing is replaced. *)
Lemma replaceFrom_free {St} φ ci r (f : matched → St → string * St) :
  (∀ i s, Str.all φ s = true → exec ci r i s = None) →
  ∀ s i st, Str.all φ s = true → replaceFrom ci r f i 0 s st = (s, st).
Proof.
  intros Hexec. induction s as [|a s IH]; intros i st Hs.
  - cbn [replaceFrom]. by rewrite Hexec.
  - cbn [replaceFrom]. rewrite Hexec by done.
    apply andb_prop in Hs as [_ Hs]. by rewrite IH.
Qed.

Lemma replaceWith_requires {St} φ ci r (f : matched → St → string * St) s st :
  requires φ ci r = true → Str.all φ s = true →
  replaceWith ci r f s st = (s, st).
Proof.
  intros Hr Hs. apply (replaceFrom_free φ); [|done].
  intros i s' Hs'. by apply (exec_requires φ).
Qed.

Lemma replace_requires φ ci r f s :
  requires φ ci r = true → Str.all φ s = true → replace ci r f s = s.
Proof.
  intros Hr Hs. unfold replace. by rewrite (replaceWith_requires φ).
Qed.

(** X11. A cell text that holds no [/] is left as it is by the whole
    transformation, whatever the resource map and the record, and whatever
    extension names are configured among the plain ones (letters and
    digits); no broken link is recorded: every pattern of the
    transformation needs a [/]. *)
Theorem text_without_slash_kept needReplaceExtNames currentNoteResourceMap
    newNotePathRecord data note brokenLinks :
  plainExtNames needReplaceExtNames →
  Str.all (Str.isnt "/") data = true →
  transformQuiverResourceAndNoteLink needReplaceExtNames currentNoteResourceMap
    newNotePathRecord data note brokenLinks = (data, brokenLinks).
Proof.
  intros _ Hdata. unfold transformQuiverResourceAndNoteLink. cbv zeta.
  rewrite (replace_requires (Str.isnt "/") false (Lit "quiver-image-url/"))
    by (done || by vm_compute).
  rewrite (replace_requires (Str.isnt "/") false (Lit "quiver-file-url/"))
    by (done || by vm_compute).
  assert (Hnames : replaceResourceName needReplaceExtNames false data = data).
  { unfold replaceResourceName.
    rewrite (replace_requires (Str.isnt "/") true (clearSuffixReg false))
      by (done || by vm_compute).
    assert (H2 : replace true (renameAwebpReg needReplaceExtNames false)
                   (λ m, "(" +:+ group1 m +:+ ".png)") data = data).
    { apply (replace_requires (Str.isnt "/")); [|done].
      unfold renameAwebpReg, prefix, resourceTag. cbn [requires].
      apply orb_true_iff. right. apply orb_true_iff. left.
      apply orb_true_iff. left. by vm_compute. }
    rewrite H2.
    assert (H3 : replace false (addDefaultExtReg false)
                   (λ m, "(" +:+ group1 m +:+ ".png)") data = data).
    { apply (replace_requires (Str.isnt "/")); [by vm_compute|done]. }
    by destruct needReplaceExtNames. }
  rewrite Hnames.
  rewrite (replace_requires (Str.isnt "/") false resourceLinkReg)
    by (done || by vm_compute).
  unfold replaceNoteLinks.
  apply (replaceWith_requires (Str.isnt "/")); [by vm_compute|done].
Qed.

Lemma text_without_slash_kept_witness :
  transformQuiverResourceAndNoteLink ["awebp"]
    {[ "A.png" := "A_1.png" ]} ∅ "see (A.png) and [x](y)"
    (mkNote "1" "t") []
  = ("see (A.png) and [x](y)", []).
Proof.
  apply (text_without_slash_kept ["awebp"] {[ "A.png" := "A_1.png" ]} ∅
           "see (A.png) and [x](y)" (mkNote "1" "t") []).
  - repeat constructor.
  - reflexivity.
Defined.

(* ===================================================================== *)
(** * Resource names: file names that are kept, URL arguments *)
(* ===================================================================== *)

Lemma repeat_Some n p : ∀ i s c (k : cont) res,
  repeat n p i s c k = Some res →
  ∃ read s', s = read +:+ s' ∧ String.length read = n ∧
             Str.all p read = true ∧
             k (mkState (i + n) s' c) = Some res.
Proof.
  induction n as [|n IH]; intros i s c k res; simpl.
  - intros Hk. exists "", s. rewrite Nat.add_0_r. by repeat split.
  - destruct s as [|a s]; [done|]. destruct (p a) eqn:Ha; [|done].
    intros (read & s' & -> & Hlen & Hall & Hk)%IH. exists (String a read), s'.
    simpl. rewrite Ha, Hlen, Hall. repeat split; try done.
    by rewrite <- Nat.add_succ_comm.
Qed.

(** Rule 3 in file mode matches the names of exactly 32 characters of
    [[0-9A-Z]] only. *)
Lemma addDefaultExtReg_file_None s :
  ¬ (String.length s = 32%nat ∧ Str.all digitOrUpper s = true) →
  exec false (addDefaultExtReg true) 0 s = None.
Proof.
  intros Hs. unfold exec, addDefaultExtReg, prefix, suffix, resourceTag.
  rewrite run_seq, run_bol, decide_True by done. run_head.
  destruct (repeat 32 digitOrUpper _ s _ _) as [res|] eqn:Hrep; [|done].
  apply repeat_Some in Hrep as (read & s' & -> & Hlen & Hall & Hk).
  cbn [pos rest caps run] in Hk. destruct s' as [|? ?]; [|done].
  destruct Hs. by rewrite str_app_nil_r.
Qed.

(** X12. With no extension names configured, the file-mode rules keep a
    resource file name as it is when it holds no white space, [&] or [?]
    (nothing that starts URL arguments) and is not made of exactly 32
    characters of [[0-9A-Z]]. *)
Theorem resource_file_name_kept name :
  Str.all (λ c, negb (urlArgStart c)) name = true →
  ¬ (String.length name = 32%nat ∧ Str.all digitOrUpper name = true) →
  replaceResourceName [] true name = name.
Proof.
  intros Hname H32. unfold replaceResourceName.
  rewrite (replace_requires (λ c, negb (urlArgStart c)) true
             (clearSuffixReg true)) by (done || by vm_compute).
  by rewrite replace_addDefaultExtReg_file, addDefaultExtReg_file_None.
Qed.

Lemma resource_file_name_kept_witness :
  replaceResourceName [] true "2F5A1C0E.heic" = "2F5A1C0E.heic".
Proof.
  apply (resource_file_name_kept "2F5A1C0E.heic").
  - reflexivity.
  - intros [Hlen _]. vm_compute in Hlen. discriminate Hlen.
Defined.

(** Two literals that differ, under [canon], at a position they both have. *)
Fixpoint mismatch (ci : bool) (lit ext : string) : bool :=
  match lit, ext with
  | String a lit', String b ext' =>
      if decide (canon ci a = canon ci b) then mismatch ci lit' ext' else true
  | _, _ => false
  end.

Lemma stripLit_mismatch ci lit : ∀ ext e t,
  Str.map (canon ci) ext = Str.map (canon ci) e →
  mismatch ci lit e = true → stripLit ci lit (ext +:+ t) = None.
Proof.
  induction lit as [|a lit IH]; intros [|b ext] [|b' e] t; try done.
  cbn [Str.map mismatch]. intros [= Hb Hext]. rewrite str_app_cons.
  cbn [stripLit]. rewrite Hb. case_decide; [|done]. by eapply IH.
Qed.

Lemma stripLit_canon ci lit : ∀ ext t,
  Str.map (canon ci) ext = Str.map (canon ci) lit →
  stripLit ci lit (ext +:+ t) = Some t.
Proof.
  induction lit as [|a lit IH]; intros [|b ext] t; try done.
  cbn [Str.map]. intros [= Hb Hext]. rewrite str_app_cons. cbn [stripLit].
  rewrite decide_True by done. by apply IH.
Qed.

Lemma mismatch_refl ci e : mismatch ci e e = false.
Proof. induction e as [|a e IH]; simpl; [done|]. by rewrite decide_True. Qed.

Lemma map_length f s : String.length (Str.map f s) = String.length s.
Proof. induction s as [|a s IH]; simpl; [done|]. by rewrite IH. Qed.

(** Among alternatives that pairwise differ at some position, the one that
    spells the input is the one that matches. *)
Lemma run_alts_pick ci l e ext t i c (k : cont) :
  e ∈ l →
  Forall (λ e', e' = e ∨ mismatch ci e' e = true) l →
  Str.map (canon ci) ext = Str.map (canon ci) e →
  run ci (alts l) (mkState i (ext +:+ t) c) k =
  k (mkState (i + String.length ext) t c).
Proof.
  intros He Hl Hext.
  assert (Hlen : String.length e = String.length ext).
  { apply (f_equal String.length) in Hext. by rewrite !map_length in Hext. }
  assert (Hone : ∀ e', e' = e ∨ mismatch ci e' e = true →
    run ci (Lit e') (mkState i (ext +:+ t) c) k =
    if decide (e' = e) then k (mkState (i + String.length ext) t c) else None).
  { intros e' [->|Hmis]; rewrite run_lit.
    - rewrite decide_True, stripLit_canon, Hlen by done. done.
    - rewrite (stripLit_mismatch ci e' ext e) by done.
      case_decide as Heq; [|done]. subst. by rewrite mismatch_refl in Hmis. }
  assert (Hnone : ∀ l', l' ≠ [] → e ∉ l' →
    Forall (λ e', e' = e ∨ mismatch ci e' e = true) l' →
    run ci (alts l') (mkState i (ext +:+ t) c) k = None).
  { clear -Hone. induction l' as [|z l' IH]; [done|].
    intros _ [Hze Hnin]%not_elem_of_cons [Hz Hl']%Forall_cons.
    destruct l' as [|z' l''].
    - cbn [alts]. by rewrite Hone, decide_False.
    - change (alts (z :: z' :: l'')) with (Alt (Lit z) (alts (z' :: l''))).
      rewrite run_alt, Hone, decide_False by done. by apply IH. }
  induction l as [|x l IH]; [by apply elem_of_nil in He|].
  apply Forall_cons in Hl as [Hx Hl]. destruct l as [|y l].
  - apply list_elem_of_singleton in He as <-. cbn [alts].
    by rewrite Hone, decide_True.
  - change (alts (x :: y :: l)) with (Alt (Lit x) (alts (y :: l))).
    rewrite run_alt, Hone by done. case_decide as Hxe.
    + destruct (k _) as [r|] eqn:Hk; [done|].
      destruct (decide (e ∈ y :: l)) as [Hin|Hnin]; [by rewrite IH|].
      by apply Hnone.
    + apply IH; [|done]. by apply elem_of_cons in He as [->|?].
Qed.

(** A greedy [c*] over characters of the class reads them all, when the rest
    of the pattern matches at the end of the input. *)
Lemma star_greedy_end p s : ∀ i c (k : cont) res,
  Str.all p s = true →
  k (mkState (i + String.length s) "" c) = Some res →
  star true p i s c k = Some res.
Proof.
  induction s as [|a s IH]; intros i c k res; simpl.
  - intros _. by rewrite Nat.add_0_r.
  - intros [-> Hs]%andb_prop Hk. rewrite (IH (S i) c k res); [done..|].
    by rewrite Nat.add_succ_comm.
Qed.

(** The alternatives of rule 1 pairwise differ at some position. *)
Lemma imageExtNames_differ e :
  e ∈ imageExtNames →
  Forall (λ e', e' = e ∨ mismatch true e' e = true) imageExtNames.
Proof.
  intros He.
  assert (H : Forall (λ e,
    forallb (λ e', bool_decide (e' = e) || mismatch true e' e) imageExtNames
    = true) imageExtNames) by by_compute.
  rewrite Forall_forall in H. specialize (H e He).
  rewrite forallb_forall in H. apply Forall_forall. intros e' He'.
  apply list_elem_of_In, H in He'.
  apply orb_prop in He' as [?%bool_decide_eq_true|?]; auto.
Qed.

Lemma urlArgStart_cases sep :
  urlArgStart sep = true → space sep = true ∨ sep = "&"%char ∨ sep = "?"%char.
Proof.
  unfold urlArgStart.
  intros [[?|?%bool_decide_eq_true]%orb_prop|?%bool_decide_eq_true]%orb_prop;
    auto.
Qed.

(** [(\s|&|\?)] reads one character that starts URL arguments. *)
Lemma run_urlArgStart i sep junk c (k : cont) :
  urlArgStart sep = true →
  run true (Alt (Class space) (Alt (Lit "&") (Lit "?")))
    (mkState i (String sep junk) c) k
  = k (mkState (S i) junk c).
Proof.
  intros Hsep. rewrite !run_alt, !run_lit. cbn [run rest pos caps stripLit].
  cbn [String.length]. rewrite !Nat.add_1_r.
  destruct (urlArgStart_cases sep Hsep) as [Hsp|[->| ->]].
  - rewrite Hsp. destruct (k _) eqn:Hk; [done|].
    destruct (decide (canon true "&" = canon true sep)) as [Ha|Ha].
    + assert (sep = "&"%char) as -> by (clear -Ha; by ascii_cases sep).
      by rewrite Hk.
    + destruct (decide (canon true "?" = canon true sep)) as [Hq|Hq]; [|done].
      assert (sep = "?"%char) as -> by (clear -Hq; by ascii_cases sep).
      done.
  - rewrite decide_True by done. change (space "&") with false. cbv iota.
    rewrite decide_False by (vm_compute; congruence). by destruct (k _).
  - change (space "?") with false. cbv iota.
    rewrite decide_False by (vm_compute; congruence).
    rewrite decide_True by done. done.
Qed.

(** Rule 1 in file mode on a name with URL arguments: the match is the whole
    name, and its first group is the name up to the extension. *)
Lemma clearSuffixReg_file_args stem e ext sep junk :
  Str.all (λ x, dot x && Str.isnt "." x) stem = true →
  e ∈ imageExtNames → Str.map (canon true) ext = Str.map (canon true) e →
  urlArgStart sep = true → Str.all dot junk = true →
  ∃ res,
    exec true (clearSuffixReg true) 0
      (stem +:+ "." +:+ ext +:+ String sep junk) = Some res ∧
    pos res = String.length (stem +:+ "." +:+ ext +:+ String sep junk) ∧
    caps res !! 1%nat = Some (stem +:+ "." +:+ ext).
Proof.
  intros Hstem He Hext Hsep Hjunk.
  unfold exec, clearSuffixReg, prefix, suffix, resourceTag.
  rewrite run_seq, run_bol, decide_True by done. run_head.
  rewrite (star_lazy_skip (Str.isnt ".")).
  2: { intros i' x s' Hx. apply run_lit_head_ne. by apply canon_dot. }
  2: { eapply all_impl; [|exact Hstem]. by intros x [? _]%andb_prop. }
  2: { eapply all_impl; [|exact Hstem]. by intros x [_ ?]%andb_prop. }
  set (whole := stem +:+ "." +:+ ext +:+ String sep junk).
  eexists. split.
  - apply star_lazy_stop. rewrite run_seq.
    change ("." +:+ ext +:+ String sep junk)
      with ("." +:+ (ext +:+ String sep junk)).
    rewrite run_lit_app, run_group. cbn [pos rest caps].
    rewrite (run_alts_pick true imageExtNames e)
      by (done || by apply imageExtNames_differ).
    cbn [pos rest caps]. rewrite run_seq, run_group. cbn [pos rest caps].
    rewrite run_urlArgStart by done.
    cbn [pos rest caps]. rewrite run_seq, run_star.
    cbn [pos rest caps]. apply star_greedy_end; [done|]. reflexivity.
  - cbn [pos caps]. split.
    + subst whole. rewrite !str_length_app. simpl. lia.
    + rewrite lookup_insert_ne by done. rewrite lookup_insert_eq. f_equal.
      subst whole.
      replace (0 + 0 + String.length stem + String.length "."
               + String.length ext - 0)%nat
        with (String.length (stem +:+ "." +:+ ext))
        by (rewrite !str_length_app; simpl; lia).
      assert (E : stem +:+ "." +:+ ext +:+ String sep junk
                  = (stem +:+ "." +:+ ext) +:+ String sep junk)
        by (by rewrite !str_app_assoc).
      rewrite E. apply take_app_length.
Qed.

Lemma all_false_app_r p s t : Str.all p t = false → Str.all p (s +:+ t) = false.
Proof. intros H. by rewrite all_app, H, andb_false_r. Qed.

(** X13. With no extension names configured, the file-mode rules cut the URL
    arguments off a resource file name: for a name [stem.ext] followed by
    white space, [&] or [?] and anything else on the line, where [stem] has
    no [.] and [ext] is one of the image extensions of rule 1 in any letter
    case, the result is [stem.ext], as it was written. *)
Theorem url_arguments_removed stem e ext sep junk :
  Str.all (λ x, dot x && Str.isnt "." x) stem = true →
  e ∈ imageExtNames → Str.map (canon true) ext = Str.map (canon true) e →
  urlArgStart sep = true → Str.all dot junk = true →
  replaceResourceName [] true (stem +:+ "." +:+ ext +:+ String sep junk)
  = stem +:+ "." +:+ ext.
Proof.
  intros Hstem He Hext Hsep Hjunk. unfold replaceResourceName.
  assert (H1 : replace true (clearSuffixReg true) (λ m, group1 m)
                 (stem +:+ "." +:+ ext +:+ String sep junk)
               = stem +:+ "." +:+ ext).
  { unfold clearSuffixReg at 1, prefix. rewrite replace_anchored.
    fold (prefix true). fold (clearSuffixReg true).
    destruct (clearSuffixReg_file_args _ _ _ _ _ Hstem He Hext Hsep Hjunk)
      as (res & -> & Hpos & Hcap).
    unfold group1, group, matchedAt. cbn [m_caps]. rewrite Hcap, Hpos.
    cbn [default]. by rewrite drop_length, str_app_nil_r. }
  rewrite H1.
  rewrite replace_addDefaultExtReg_file, addDefaultExtReg_file_None; [done|].
  intros [_ Hall]. rewrite all_false_app_r in Hall; [done|].
  by rewrite str_app_cons.
Qed.

Lemma url_arguments_removed_witness :
  replaceResourceName [] true "photo.PNG?w=100&h=50" = "photo.PNG".
Proof.
  apply (url_arguments_removed "photo" "png" "PNG" "?" "w=100&h=50").
  - reflexivity.
  - unfold imageExtNames. repeat constructor.
  - reflexivity.
  - reflexivity.
  - reflexivity.
Defined.

(* ===================================================================== *)
(** * index.ts: copyResource *)
(* ===================================================================== *)

Example copyResource_collision :
  copyResource []
    {[ "/o/_resources/a.png" := "x"; "/o/_resources/a_1.png" := "y";
       "/src/a.png" := "z" ]}
    "a.png" "/o/_resources" "/src/a.png"
  = inr ("a_1_2.png",
         {[ "/o/_resources/a.png" := "x"; "/o/_resources/a_1.png" := "y";
            "/src/a.png" := "z"; "/o/_resources/a_1_2.png" := "z" ]},
         [ResourceNameCollision "a.png" "a_1_2.png"]).
Proof. vm_compute. reflexivity. Qed.

Section CopyResourceFacts.
Variable needReplaceExtNames : list string.
Variable fs : files.
Variable originalName resourceDirPath : string.

(** The candidate exists in the directory. *)
Definition taken (fileName : string) : Prop :=
  is_Some (fs !! path.join [resourceDirPath; fileName]).

Lemma pathExists_taken fileName :
  pathExists fs (path.join [resourceDirPath; fileName]) = true ↔ taken fileName.
Proof. apply bool_decide_eq_true. Qed.

Lemma renameLoop_free fileName counter :
  ¬ taken fileName →
  renameLoop fs originalName resourceDirPath fileName counter
  = inr (fileName, counter).
Proof.
  intros H. rewrite renameLoop_equation_1.
  destruct (pathExists fs _) eqn:E; [|done]. by apply pathExists_taken in E.
Qed.

Lemma renameLoop_taken fileName counter :
  taken fileName → counter + 1 ≤ 100 →
  renameLoop fs originalName resourceDirPath fileName counter
  = renameLoop fs originalName resourceDirPath (renamed fileName counter)
      (counter + 1).
Proof.
  intros H%pathExists_taken Hle. rewrite renameLoop_equation_1, H. simpl.
  by destruct (decide (counter + 1 > 100)); [lia|].
Qed.

Lemma renameLoop_over fileName counter :
  taken fileName → counter + 1 > 100 →
  renameLoop fs originalName resourceDirPath fileName counter
  = inl (TooManyCollisions originalName).
Proof.
  intros H%pathExists_taken Hgt. rewrite renameLoop_equation_1, H. simpl.
  by destruct (decide (counter + 1 > 100)).
Qed.

(** The loop ends with the first candidate that does not exist, among the
    first 100; it throws when these all exist. *)
Lemma renameLoop_spec fileName : ∀ d j : nat,
  (j + d = 99)%nat →
  (∃ k : nat, (j ≤ k ≤ 99)%nat ∧
     (renameLoop fs originalName resourceDirPath
        (candidate fileName j) (Z.of_nat j + 1)
      = inr (candidate fileName k, Z.of_nat k + 1)) ∧
     (¬ taken (candidate fileName k)) ∧
     (∀ m : nat, (j ≤ m < k)%nat → taken (candidate fileName m)))
  ∨ ((renameLoop fs originalName resourceDirPath
        (candidate fileName j) (Z.of_nat j + 1)
      = inl (TooManyCollisions originalName)) ∧
     (∀ m : nat, (j ≤ m ≤ 99)%nat → taken (candidate fileName m))).
Proof.
  induction d as [|d IH]; intros j Hj.
  all: destruct (decide (taken (candidate fileName j))) as [Hj'|Hj'].
  all: try (left; exists j; split; [lia|]; split; [by apply renameLoop_free|];
            split; [done|lia]).
  - right. split; [apply renameLoop_over; [done|lia]|].
    intros m Hm. by assert (m = j) as -> by lia.
  - rewrite renameLoop_taken by (done || lia).
    replace (Z.of_nat j + 1 + 1) with (Z.of_nat (S j) + 1) by lia.
    replace (renamed (candidate fileName j) (Z.of_nat j + 1))
      with (candidate fileName (S j))
      by (cbn [candidate]; f_equal; lia).
    destruct (IH (S j)) as [(k & Hk & Heq & Hfree & Htaken)|[Heq Htaken]];
      [lia|..].
    + left. exists k. split; [lia|]. do 2 (split; [done|]).
      intros m Hm. destruct (decide (m = j)) as [->|]; [done|].
      apply Htaken. lia.
    + right. split; [done|]. intros m Hm.
      destruct (decide (m = j)) as [->|]; [done|]. apply Htaken. lia.
Qed.
End CopyResourceFacts.

(** X14. A call of [copyResource] that returns, on the files it sees, has
    copied the source to a path of the resource directory that did not
    exist: every file that existed is still there with its content, the new
    file holds the content of the source, and the name returned is the name
    of the new file.  A collision is reported exactly when the name
    returned is not the name given by the file-mode rules. *)
Theorem copyResource_keeps_files needReplaceExtNames fs originalName
    resourceDirPath srcPath fileName fs' warnings :
  copyResource needReplaceExtNames fs originalName resourceDirPath srcPath
    = inr (fileName, fs', warnings) →
  (fs !! path.join [resourceDirPath; fileName] = None) ∧
  (fs ⊆ fs') ∧
  (∃ content, (fs !! srcPath = Some content) ∧
     fs' = <[path.join [resourceDirPath; fileName] := content]> fs) ∧
  (warnings = [] ↔
   fileName = replaceResourceName needReplaceExtNames true originalName).
Proof.
  unfold copyResource.
  set (first := replaceResourceName needReplaceExtNames true originalName).
  destruct (renameLoop_spec fs originalName resourceDirPath first 99 0)
    as [(k & Hk & Heq & Hfree & Htaken)|[Heq _]]; [done| |].
  2: { cbn [candidate] in Heq. change (Z.of_nat 0 + 1) with 1 in Heq.
       by rewrite Heq. }
  cbn [candidate] in Heq. change (Z.of_nat 0 + 1) with 1 in Heq. rewrite Heq.
  destruct (fs !! srcPath) as [content|] eqn:Hsrc; [|done].
  intros [= <- <- <-].
  assert (Hnone : fs !! path.join [resourceDirPath; candidate first k] = None).
  { unfold taken in Hfree. by apply eq_None_not_Some. }
  split; [done|]. split; [by apply insert_subseteq|].
  split; [by exists content|].
  destruct k as [|k].
  - rewrite decide_False by lia. done.
  - rewrite decide_True by lia. split; [done|]. intros Heq'.
    destruct Hfree. rewrite Heq'. apply (Htaken 0%nat). lia.
Qed.

Lemma copyResource_keeps_files_witness :
  (({[ "/o/_resources/a.png" := "x"; "/o/_resources/a_1.png" := "y";
       "/src/a.png" := "z" ]} : files) !! "/o/_resources/a_1_2.png" = None) ∧
  ([ResourceNameCollision "a.png" "a_1_2.png"] = []
   ↔ "a_1_2.png" = replaceResourceName [] true "a.png").
Proof.
  destruct (copyResource_keeps_files []
    {[ "/o/_resources/a.png" := "x"; "/o/_resources/a_1.png" := "y";
       "/src/a.png" := "z" ]}
    "a.png" "/o/_resources" "/src/a.png" "a_1_2.png"
    {[ "/o/_resources/a.png" := "x"; "/o/_resources/a_1.png" := "y";
       "/src/a.png" := "z"; "/o/_resources/a_1_2.png" := "z" ]}
    [ResourceNameCollision "a.png" "a_1_2.png"])
    as (Hfree & _ & _ & Hwarn).
  - vm_compute. reflexivity.
  - split; [exact Hfree|exact Hwarn].
Defined.

(** X15. [copyResource] tries the name given by the file-mode rules (the
    configured extension names being plain) and then up to 99 renamings of
    it, each made from the previous one.  On the files it sees, with no
    other writer meanwhile: when it returns, the name it returns is the
    first of these 100 names for which [fse.pathExists] answered no in the
    resource directory; and it throws the collision error exactly when
    [fse.pathExists] answers yes for all 100. *)
Theorem copyResource_first_free needReplaceExtNames fs originalName
    resourceDirPath srcPath :
  plainExtNames needReplaceExtNames →
  let first := replaceResourceName needReplaceExtNames true originalName in
  let exist fileName := is_Some (fs !! path.join [resourceDirPath; fileName]) in
  (∀ fileName fs' warnings,
     copyResource needReplaceExtNames fs originalName resourceDirPath srcPath
     = inr (fileName, fs', warnings) →
     ∃ k : nat, (k ≤ 99)%nat ∧ fileName = candidate first k ∧
       (¬ exist (candidate first k)) ∧
       (∀ m : nat, (m < k)%nat → exist (candidate first m))) ∧
  (copyResource needReplaceExtNames fs originalName resourceDirPath srcPath
   = inl (TooManyCollisions originalName)
   ↔ ∀ m : nat, (m ≤ 99)%nat → exist (candidate first m)).
Proof.
  intros _ first exist. unfold copyResource. fold first.
  destruct (renameLoop_spec fs originalName resourceDirPath first 99 0)
    as [(k & Hk & Heq & Hfree & Htaken)|[Heq Htaken]]; [done|..].
  all: cbn [candidate] in Heq; change (Z.of_nat 0 + 1) with 1 in Heq.
  all: rewrite Heq.
  - split.
    + intros fileName fs' warnings.
      destruct (fs !! srcPath); [|done]. intros [= <- _ _].
      exists k. split; [lia|]. split; [done|]. split; [done|].
      intros m Hm. apply Htaken. lia.
    + split.
      * by destruct (fs !! srcPath).
      * intros Hall. destruct Hfree. apply Hall. lia.
  - split; [done|]. split; [|done]. intros _ m Hm. apply Htaken. lia.
Qed.

Lemma copyResource_first_free_witness :
  ∃ k : nat, (k ≤ 99)%nat ∧ "a_1_2.png" = candidate "a.png" k.
Proof.
  destruct (copyResource_first_free []
    {[ "/o/_resources/a.png" := "x"; "/o/_resources/a_1.png" := "y";
       "/src/a.png" := "z" ]}
    "a.png" "/o/_resources" "/src/a.png") as [Hret _].
  - constructor.
  - destruct (Hret "a_1_2.png"
      {[ "/o/_resources/a.png" := "x"; "/o/_resources/a_1.png" := "y";
         "/src/a.png" := "z"; "/o/_resources/a_1_2.png" := "z" ]}
      [ResourceNameCollision "a.png" "a_1_2.png"])
      as (k & Hk & Heq & _).
    + vm_compute. reflexivity.
    + exists k. split; [exact Hk|exact Heq].
Defined.

(* ===================================================================== *)
(** * The names tried after a collision *)
(* ===================================================================== *)

Lemma basename_component x :
  Str.all (Str.isnt "/") x = true → x ≠ "" → path.basename x = x.
Proof.
  intros Hx Hne. unfold path.basename. rewrite split_one by done.
  by rewrite filter_cons_True.
Qed.

(** The extension and the base of a simple file name [stem.e]. *)
Lemma extname_simple stem e :
  Str.all (λ x, Str.isnt "/" x && Str.isnt "." x) stem = true → stem ≠ "" →
  Str.all (λ x, Str.isnt "/" x && Str.isnt "." x) e = true →
  posix.extname (stem +:+ "." +:+ e) = "." +:+ e.
Proof.
  intros Hstem Hne He.
  assert (Hs1 : Str.all (Str.isnt "/") stem = true)
    by (eapply all_impl; [|exact Hstem]; by intros x [? _]%andb_prop).
  assert (Hs2 : Str.all (Str.isnt ".") stem = true)
    by (eapply all_impl; [|exact Hstem]; by intros x [_ ?]%andb_prop).
  assert (He1 : Str.all (Str.isnt "/") e = true)
    by (eapply all_impl; [|exact He]; by intros x [? _]%andb_prop).
  assert (He2 : Str.all (Str.isnt ".") e = true)
    by (eapply all_impl; [|exact He]; by intros x [_ ?]%andb_prop).
  unfold posix.extname. rewrite basename_component.
  2: { by rewrite !all_app, Hs1, He1. }
  2: { by destruct stem. }
  change ("." +:+ e) with (String "." e).
  rewrite split_snoc, split_one by done. cbn [app removelast Str.join last].
  rewrite decide_False; [done|]. intros [?|Hdots]; [done|].
  destruct stem as [|a [|b stem]]; try done.
  - injection Hdots as -> _. done.
  - apply (f_equal String.length) in Hdots. rewrite !str_app_cons in Hdots.
    simpl in Hdots. rewrite str_length_app in Hdots. simpl in Hdots. lia.
Qed.

Lemma basename_simple stem e :
  Str.all (λ x, Str.isnt "/" x && Str.isnt "." x) stem = true → stem ≠ "" →
  Str.all (λ x, Str.isnt "/" x && Str.isnt "." x) e = true →
  posix.basename (stem +:+ "." +:+ e) ("." +:+ e) = stem.
Proof.
  intros Hstem Hne He.
  assert (Hs1 : Str.all (Str.isnt "/") stem = true)
    by (eapply all_impl; [|exact Hstem]; by intros x [? _]%andb_prop).
  assert (He1 : Str.all (Str.isnt "/") e = true)
    by (eapply all_impl; [|exact He]; by intros x [? _]%andb_prop).
  assert (Hlen : String.length (stem +:+ "." +:+ e)
                 = (String.length stem + String.length ("." +:+ e))%nat)
    by (by rewrite str_length_app).
  assert (Hpos : (0 < String.length stem)%nat) by (destruct stem; simpl; [done|lia]).
  unfold posix.basename. rewrite decide_False by (intros [?|?]; [done|lia]).
  rewrite decide_False.
  2: { intros Heq. apply (f_equal String.length) in Heq. lia. }
  rewrite basename_component.
  2: { by rewrite !all_app, Hs1, He1. }
  2: { by destruct stem. }
  assert (Hneq : (stem +:+ "." +:+ e =? "." +:+ e)%string = false).
  { apply String.eqb_neq. intros Heq. apply (f_equal String.length) in Heq. lia. }
  rewrite Hneq. cbn [negb]. rewrite !andb_true_r.
  assert (H1 : posix.endsWith ("." +:+ e) (stem +:+ "." +:+ e) = false).
  { unfold posix.endsWith. rewrite bool_decide_eq_false_2; [done|lia]. }
  assert (H2 : posix.endsWith (stem +:+ "." +:+ e) ("." +:+ e) = true).
  { unfold posix.endsWith. rewrite bool_decide_eq_true_2 by lia.
    rewrite bool_decide_eq_true_2; [done|].
    replace (String.length (stem +:+ "." +:+ e) - String.length ("." +:+ e))%nat
      with (String.length stem) by lia.
    apply drop_app_length. }
  rewrite H1, H2.
  replace (String.length (stem +:+ "." +:+ e) - String.length ("." +:+ e))%nat
    with (String.length stem) by lia.
  apply take_app_length.
Qed.

Lemma pretty_N_char_plain d :
  (λ x, Str.isnt "/" x && Str.isnt "." x) (pretty_N_char d) = true.
Proof. unfold pretty_N_char. by repeat case_match. Qed.

Lemma pretty_nat_plain (n : nat) :
  Str.all (λ x, Str.isnt "/" x && Str.isnt "." x) (pretty (Z.of_nat n)) = true.
Proof.
  assert (HN : ∀ x : N,
    Str.all (λ x, Str.isnt "/" x && Str.isnt "." x) (pretty x) = true).
  { intros x. unfold pretty, pretty_N. case_decide; [done|].
    apply pretty_N_go_all; [apply pretty_N_char_plain|done]. }
  destruct (Z.of_nat n) as [|p|p] eqn:E; [done|apply HN|lia].
Qed.

(** X16. For a file name [stem.e] with a non-empty [stem] and no other [.]
    (and no [/]), the name tried after the k-th collision carries all the
    counters so far: [stem_1.e], then [stem_1_2.e], [stem_1_2_3.e], ...:
    every renaming starts from the name renamed before, not from the
    first name. *)
Theorem candidate_carries_counters stem e k :
  Str.all (λ x, Str.isnt "/" x && Str.isnt "." x) stem = true → stem ≠ "" →
  Str.all (λ x, Str.isnt "/" x && Str.isnt "." x) e = true →
  candidate (stem +:+ "." +:+ e) k = stem +:+ counters k +:+ "." +:+ e.
Proof.
  intros Hstem Hne He. induction k as [|k IH]; [done|].
  cbn [candidate counters]. rewrite IH. unfold renamed.
  assert (Hstem' : Str.all (λ x, Str.isnt "/" x && Str.isnt "." x)
                     (stem +:+ counters k) = true).
  { rewrite all_app, Hstem. cbn [andb]. clear.
    induction k as [|k IHk]; [done|].
    cbn [counters]. by rewrite !all_app, IHk, pretty_nat_plain. }
  assert (Hne' : stem +:+ counters k ≠ "") by (by destruct stem).
  assert (E : stem +:+ counters k +:+ "." +:+ e
              = (stem +:+ counters k) +:+ "." +:+ e)
    by (by rewrite str_app_assoc).
  rewrite E, extname_simple, basename_simple by done.
  by rewrite !str_app_assoc.
Qed.

Lemma candidate_carries_counters_witness :
  candidate "a.png" 3 = "a_1_2_3.png".
Proof.
  apply (candidate_carries_counters "a" "png" 3); [reflexivity|done|reflexivity].
Defined.

(* ===================================================================== *)
(** * Replacing a literal *)
(* ===================================================================== *)

Lemma exec_lit_head_ne a lit i x s :
  a ≠ x → exec false (Lit (String a lit)) i (String x s) = None.
Proof.
  intros H. unfold exec. rewrite run_lit. cbn [stripLit].
  by rewrite decide_False.
Qed.

(** A text in two parts, the first without the first character of the
    literal and the second without a character the literal needs, holds no
    occurrence of the literal. *)
Lemma replace_literal_none φ a lit f s1 s2 :
  requires φ false (Lit (String a lit)) = true →
  Str.all (Str.isnt a) s1 = true → Str.all φ s2 = true →
  replace false (Lit (String a lit)) f (s1 +:+ s2) = s1 +:+ s2.
Proof.
  intros Hreq H1 H2. unfold replace, replaceWith.
  rewrite (replaceFrom_copy (Str.isnt a)); [| |done].
  2: { intros i x s Hx. apply exec_lit_head_ne. by apply isnt_ne. }
  rewrite (replaceFrom_free φ); [done| |done].
  intros i s Hs. by apply (exec_requires φ).
Qed.

(** One occurrence of the literal, after a text without its first
    character and before a text without a character it needs. *)
Lemma replace_literal_once φ a lit rep s1 s2 :
  requires φ false (Lit (String a lit)) = true →
  Str.all (Str.isnt a) s1 = true → Str.all φ s2 = true →
  replace false (Lit (String a lit)) (λ _, rep) (s1 +:+ String a lit +:+ s2)
  = s1 +:+ rep +:+ s2.
Proof.
  intros Hreq H1 H2. unfold replace, replaceWith.
  rewrite (replaceFrom_copy (Str.isnt a)); [| |done].
  2: { intros i x s Hx. apply exec_lit_head_ne. by apply isnt_ne. }
  erewrite (replaceFrom_match false _ _ _ (String a lit) s2);
    [|unfold exec; rewrite run_lit_app; reflexivity|reflexivity|done].
  rewrite (replaceFrom_free φ); [done| |done].
  intros i s Hs. by apply (exec_requires φ).
Qed.

(* ===================================================================== *)
(** * A resource link in a text *)
(* ===================================================================== *)

Lemma textBefore_q c : textBefore c = true → Str.isnt "q" c = true.
Proof. unfold textBefore. intros H. by repeat apply andb_prop in H as [H ?]. Qed.
Lemma textBefore_paren c : textBefore c = true → Str.isnt "(" c = true.
Proof. unfold textBefore. intros H. by repeat apply andb_prop in H as [H ?]. Qed.
Lemma textBefore_underscore c : textBefore c = true → Str.isnt "_" c = true.
Proof. unfold textBefore. intros H. by repeat apply andb_prop in H as [H ?]. Qed.
Lemma textAfter_paren c : textAfter c = true → Str.isnt "(" c = true.
Proof. unfold textAfter. intros H. by repeat apply andb_prop in H as [H ?]. Qed.
Lemma textAfter_underscore c : textAfter c = true → Str.isnt "_" c = true.
Proof. unfold textAfter. intros H. by repeat apply andb_prop in H as [H ?]. Qed.
Lemma textAfter_dot c : textAfter c = true → Str.isnt "." c = true.
Proof. unfold textAfter. intros H. by repeat apply andb_prop in H as [H ?]. Qed.
Lemma textAfter_slash c : textAfter c = true → Str.isnt "/" c = true.
Proof. unfold textAfter. intros H. by repeat apply andb_prop in H as [H ?]. Qed.

Lemma digitOrUpper_q c : digitOrUpper c = true → Str.isnt "q" c = true.
Proof. by ascii_cases c. Qed.
Lemma digitOrUpper_slash c : digitOrUpper c = true → Str.isnt "/" c = true.
Proof. by ascii_cases c. Qed.
Lemma digitOrUpper_nameChar c : digitOrUpper c = true → resourceNameChar c = true.
Proof. by ascii_cases c. Qed.
Lemma alphanumeric_slash c : alphanumeric c = true → Str.isnt "/" c = true.
Proof. by ascii_cases c. Qed.
Lemma alphanumeric_dot c : alphanumeric c = true → Str.isnt "." c = true.
Proof. by ascii_cases c. Qed.
Lemma alphanumeric_paren c : alphanumeric c = true → Str.isnt "(" c = true.
Proof. by ascii_cases c. Qed.
Lemma alphanumeric_no_arg c : alphanumeric c = true → urlArgStart c = false.
Proof. by ascii_cases c. Qed.

(** Where the alternatives are literals, a match is a match of one of them. *)
Lemma run_alts_elem ci l st k res :
  l ≠ [] →
  run ci (alts l) st k = Some res →
  ∃ e s', e ∈ l ∧ stripLit ci e (rest st) = Some s' ∧
          k (mkState (pos st + String.length e) s' (caps st)) = Some res.
Proof.
  destruct st as [i s c]. induction l as [|x l IH]; [done|]. intros _.
  destruct l as [|y l].
  - cbn [alts]. rewrite run_lit.
    destruct (stripLit ci x s) as [s'|] eqn:Hs; [|done].
    intros Hk. exists x, s'. split; [left|done].
  - change (alts (x :: y :: l)) with (Alt (Lit x) (alts (y :: l))).
    rewrite run_alt, run_lit.
    assert (Hrest : run ci (alts (y :: l)) (mkState i s c) k = Some res →
      ∃ e s', e ∈ x :: y :: l ∧ stripLit ci e s = Some s' ∧
              k (mkState (i + String.length e) s' c) = Some res).
    { intros (e & s' & He & Hs & Hk)%IH; [|done].
      exists e, s'. split; [by right|done]. }
    destruct (stripLit ci x s) as [s'|] eqn:Hs; [|exact Hrest].
    destruct (k _) as [r|] eqn:Hk; [|exact Hrest].
    intros [= <-]. exists x, s'. split; [left|done].
Qed.

(** A literal that cannot match [c] is matched before [c]. *)
Lemma stripLit_stops ci lit c : ∀ s1 s2 s',
  Str.all (λ a, bool_decide (canon ci a ≠ canon ci c)) lit = true →
  stripLit ci lit (s1 +:+ String c s2) = Some s' →
  ∃ read s1', s1 = read +:+ s1' ∧ s' = s1' +:+ String c s2.
Proof.
  induction lit as [|a lit IH]; intros s1 s2 s' Hlit.
  - cbn [stripLit]. intros [= <-]. by exists "", s1.
  - cbn [Str.all] in Hlit. apply andb_prop in Hlit as [Ha%bool_decide_eq_true Hlit].
    destruct s1 as [|x s1].
    + rewrite str_app_nil_l. cbn [stripLit]. by rewrite decide_False.
    + rewrite str_app_cons. cbn [stripLit]. case_decide; [|done].
      intros (read & s1' & -> & ->)%IH; [|done]. by exists (String x read), s1'.
Qed.

(** [(\s|&|\?)] fails at any other character. *)
Lemma run_urlArgStart_None i x s c (k : cont) :
  urlArgStart x = false →
  run true (Alt (Class space) (Alt (Lit "&") (Lit "?")))
    (mkState i (String x s) c) k = None.
Proof.
  unfold urlArgStart. intros H.
  apply orb_false_iff in H as [H Hq%bool_decide_eq_false].
  apply orb_false_iff in H as [Hsp Ha%bool_decide_eq_false].
  rewrite !run_alt, !run_lit. cbn [run rest pos caps stripLit]. rewrite Hsp.
  rewrite !decide_False; [done|..].
  - intros Hc. apply Hq. clear -Hc. by ascii_cases x.
  - intros Hc. apply Ha. clear -Hc. by ascii_cases x.
Qed.

Lemma star_lazy_step p i a s c (k : cont) :
  star false p i (String a s) c k =
  match k (mkState i (String a s) c) with
  | Some r => Some r
  | None => if p a then star false p (S i) s c k else None
  end.
Proof. done. Qed.

(** The alternatives of rule 1 are letters: none of them can match [)]. *)
Lemma imageExtNames_letters e :
  e ∈ imageExtNames →
  Str.all (λ a, bool_decide (canon true a ≠ canon true ")")) e = true.
Proof.
  revert e. apply Forall_forall. by_compute.
Qed.

(** Rule 1 in content mode does not match a reference [(_resources/stem.e)]
    that is closed right after the extension, when no [.] follows on. *)
Lemma clearSuffixReg_content_closed i stem e post :
  Str.all digitOrUpper stem = true → Str.all alphanumeric e = true →
  Str.all (Str.isnt ".") post = true →
  exec true (clearSuffixReg false) i
    ("(" +:+ "_resources/" +:+ stem +:+ "." +:+ e +:+ ")" +:+ post) = None.
Proof.
  intros Hstem He Hpost. unfold exec, clearSuffixReg, prefix, suffix, resourceTag.
  rewrite run_seq, run_lit_app. rewrite run_seq, run_group, run_seq.
  cbn [pos rest caps]. rewrite run_lit_app. run_head.
  rewrite (star_lazy_skip (Str.isnt ".")).
  2: { intros i' x s' Hx. apply run_lit_head_ne. by apply canon_dot. }
  2: { eapply all_impl; [apply digitOrUpper_dot|done]. }
  2: { eapply all_impl; [apply digitOrUpper_isnt_dot|done]. }
  change ("." +:+ e +:+ ")" +:+ post) with (String "." (e +:+ ")" +:+ post)).
  rewrite star_lazy_step.
  match goal with |- context [star false dot _ _ _ ?k] => set (K := k) end.
  assert (HK : ∀ j, K (mkState j (String "." (e +:+ ")" +:+ post)) ∅) = None).
  { intros j. subst K. cbv beta. rewrite run_seq.
    change (String "." (e +:+ ")" +:+ post)) with ("." +:+ (e +:+ ")" +:+ post)).
    rewrite run_lit_app, run_group. cbn [pos rest caps].
    destruct (run true (alts imageExtNames) _ _) as [res|] eqn:Hrun; [|done].
    apply run_alts_elem in Hrun as (e' & s' & He' & Hs' & Hk); [|done].
    cbn [pos rest caps] in Hs', Hk.
    change (e +:+ ")" +:+ post) with (e +:+ String ")" post) in Hs'.
    apply stripLit_stops in Hs' as (read & s1' & -> & ->);
      [|by apply imageExtNames_letters].
    rewrite run_seq, run_group in Hk. cbn [pos rest caps] in Hk.
    rewrite all_app in He. apply andb_prop in He as [_ Hs1'].
    destruct s1' as [|x s1'].
    - rewrite str_app_nil_l, run_urlArgStart_None in Hk; done.
    - rewrite str_app_cons, run_urlArgStart_None in Hk; [done|].
      apply alphanumeric_no_arg. by apply andb_prop in Hs1' as [? _]. }
  match goal with
  | |- context [run _ _ (mkState ?j (String "." _) ∅) _] =>
      pose proof (HK j) as HK'
  end.
  unfold K in HK' at 1. cbv beta in HK'. rewrite HK'.
  change (dot ".") with true. cbv iota.
  apply (star_None (Str.isnt ".")).
  - intros i'. apply run_lit_end.
  - intros i' x s' Hx. apply run_lit_head_ne. by apply canon_dot.
  - rewrite all_app. rewrite (all_impl alphanumeric) by (apply alphanumeric_dot || done).
    by apply all_isnt_literal.
Qed.

(** Characters of a class followed by a character that is not of it: a run
    of the class that starts the text ends before that character. *)
Lemma app_split_class (p : ascii → bool) c : ∀ read s s' t,
  Str.all p read = true → Str.all p s = true → p c = false →
  s +:+ String c t = read +:+ s' →
  ∃ s2, s = read +:+ s2 ∧ s' = s2 +:+ String c t.
Proof.
  induction read as [|a read IH]; intros s s' t Hread Hs Hc Heq.
  - exists s. by rewrite !str_app_nil_l in *.
  - apply andb_prop in Hread as [Ha Hread]. destruct s as [|b s].
    + rewrite str_app_nil_l, str_app_cons in Heq. injection Heq as <- _.
      congruence.
    + rewrite !str_app_cons in Heq. injection Heq as -> Heq.
      apply andb_prop in Hs as [_ Hs].
      destruct (IH _ _ _ Hread Hs Hc Heq) as (s2 & -> & ->). by exists s2.
Qed.

(** Rule 3 in content mode does not match a reference with an extension. *)
Lemma addDefaultExtReg_content_dot i stem t :
  Str.all digitOrUpper stem = true →
  exec false (addDefaultExtReg false) i
    ("(" +:+ "_resources/" +:+ stem +:+ "." +:+ t) = None.
Proof.
  intros Hstem. unfold exec, addDefaultExtReg, prefix, suffix, resourceTag.
  rewrite run_seq, run_lit_app. rewrite run_seq, run_group, run_seq.
  cbn [pos rest caps]. rewrite run_lit_app.
  rewrite run_repeat. cbn [pos rest caps].
  destruct (repeat 32 digitOrUpper _ _ _ _) as [res|] eqn:Hrep; [|done].
  apply repeat_Some in Hrep as (read & s' & Heq & _ & Hread & Hk).
  change ("." +:+ t) with (String "." t) in Heq.
  apply (app_split_class digitOrUpper) in Heq as (s2 & -> & ->); [|done..].
  cbn [pos rest caps] in Hk. rewrite run_lit in Hk.
  rewrite all_app in Hstem. apply andb_prop in Hstem as [_ Hs2].
  destruct s2 as [|x s2].
  - by rewrite str_app_nil_l in Hk.
  - rewrite str_app_cons in Hk. cbn [stripLit] in Hk.
    apply andb_prop in Hs2 as [Hx _].
    rewrite decide_False in Hk; [done|]. rewrite !canon_false.
    apply isnt_ne. revert Hx. clear. by ascii_cases x.
Qed.

(** The resource-name rules of content mode keep a closed reference with an
    extension, when no extension names are configured. *)
Lemma replaceResourceName_content_closed pre stem e post :
  Str.all (Str.isnt "(") pre = true →
  Str.all digitOrUpper stem = true → Str.all alphanumeric e = true →
  Str.all (λ x, Str.isnt "(" x && Str.isnt "." x) post = true →
  replaceResourceName [] false
    (pre +:+ "(" +:+ "_resources/" +:+ stem +:+ "." +:+ e +:+ ")" +:+ post)
  = pre +:+ "(" +:+ "_resources/" +:+ stem +:+ "." +:+ e +:+ ")" +:+ post.
Proof.
  intros Hpre Hstem He Hpost.
  assert (Hpost1 : Str.all (Str.isnt "(") post = true).
  { eapply all_impl; [|exact Hpost]. by intros x [? _]%andb_prop. }
  assert (Hpost2 : Str.all (Str.isnt ".") post = true).
  { eapply all_impl; [|exact Hpost]. by intros x [_ ?]%andb_prop. }
  assert (Hin : Str.all (Str.isnt "(")
                  ("_resources/" +:+ stem +:+ "." +:+ e +:+ ")" +:+ post) = true).
  { rewrite !all_app, Hpost1.
    rewrite (all_impl digitOrUpper (Str.isnt "(") stem)
      by (apply digitOrUpper_isnt_paren || done).
    by rewrite (all_impl alphanumeric (Str.isnt "(") e)
      by (apply alphanumeric_paren || done). }
  unfold replaceResourceName.
  assert (H1 : ∀ f, replace true (clearSuffixReg false) f
    (pre +:+ "(" +:+ "_resources/" +:+ stem +:+ "." +:+ e +:+ ")" +:+ post)
    = pre +:+ "(" +:+ "_resources/" +:+ stem +:+ "." +:+ e +:+ ")" +:+ post).
  { intros f. apply (replace_paren_miss true _ f pre); [done..|].
    by apply clearSuffixReg_content_closed. }
  assert (H3 : ∀ f, replace false (addDefaultExtReg false) f
    (pre +:+ "(" +:+ "_resources/" +:+ stem +:+ "." +:+ e +:+ ")" +:+ post)
    = pre +:+ "(" +:+ "_resources/" +:+ stem +:+ "." +:+ e +:+ ")" +:+ post).
  { intros f. apply (replace_paren_miss false _ f pre); [done..|].
    by apply addDefaultExtReg_content_dot. }
  by rewrite H1, H3.
Qed.

(** A greedy [c*] stops at the first character that is not of the class,
    when the rest of the pattern matches there. *)
Lemma star_greedy_stop p s1 x s2 : ∀ i c (k : cont) r,
  Str.all p s1 = true → p x = false →
  k (mkState (i + String.length s1) (String x s2) c) = Some r →
  star true p i (s1 +:+ String x s2) c k = Some r.
Proof.
  induction s1 as [|a s1 IH]; intros i c k r.
  - intros _ Hx. rewrite str_app_nil_l. cbn [star String.length].
    rewrite Hx, Nat.add_0_r. done.
  - intros [Ha Hs1]%andb_prop Hx Hk. rewrite str_app_cons. cbn [star].
    rewrite Ha, (IH (S i) c k r); [done..|].
    by rewrite Nat.add_succ_comm.
Qed.

(** The suffix [(\)|\\|\s|\?|#|$)] of a resource link *)
Definition linkSuffix : regex :=
  Alt (Lit ")") (Alt (Lit "\") (Alt (Class space)
    (Alt (Lit "?") (Alt (Lit "#") Eol)))).

Lemma run_linkSuffix_None x i s c (k : cont) :
  digitOrUpper x = true →
  run false linkSuffix (mkState i (String x s) c) k = None.
Proof.
  intros Hx. unfold linkSuffix. rewrite !run_alt, !run_lit.
  cbn [run rest pos caps stripLit]. rewrite !canon_false.
  assert (Hsp : space x = false) by (revert Hx; clear; by ascii_cases x).
  rewrite Hsp. rewrite !decide_False; [done|..].
  all: intros <-; done.
Qed.


Lemma run_linkSuffix_paren i s c (k : cont) :
  run false linkSuffix (mkState i (")" +:+ s) c) k
  = match k (mkState (i + 1) s c) with
    | Some r => Some r
    | None =>
        run false (Alt (Lit "\") (Alt (Class space)
                     (Alt (Lit "?") (Alt (Lit "#") Eol))))
          (mkState i (")" +:+ s) c) k
    end.
Proof. unfold linkSuffix. by rewrite run_alt, run_lit_app. Qed.

Lemma run_class ci p i a s c (k : cont) :
  run ci (Class p) (mkState i (String a s) c) k =
  if p a then k (mkState (S i) s c) else None.
Proof. done. Qed.

Lemma run_opt ci r st (k : cont) :
  run ci (Opt r) st k =
  match run ci r st (λ st1, if decide (pos st1 = pos st) then None else k st1)
  with
  | Some res => Some res
  | None => k st
  end.
Proof. done. Qed.

(** [(\.[a-zA-Z0-9]+)?] and the suffix *)
Definition linkTail : regex :=
  Opt (Group 2 (Lit "." ⋅ Class alphanumeric ⋅ Star true alphanumeric))
  ⋅ Group 3 linkSuffix.

Lemma linkTail_None x j s c :
  digitOrUpper x = true →
  run false linkTail (mkState j (String x s) c) Some = None.
Proof.
  intros Hx. unfold linkTail. rewrite run_seq, run_opt, run_group, run_seq.
  rewrite run_lit. cbn [rest stripLit].
  rewrite decide_False by (rewrite !canon_false; intros <-; done).
  cbn [pos rest caps]. rewrite run_group. cbn [pos rest caps].
  by apply run_linkSuffix_None.
Qed.

Lemma linkTail_closed b0 e post j c :
  alphanumeric b0 = true → Str.all alphanumeric e = true →
  run false linkTail
    (mkState j ("." +:+ String b0 e +:+ ")" +:+ post) c) Some
  = Some (mkState (S (j + 1) + String.length e + 1) post
            (<[3%nat := ")"]> (<[2%nat := "." +:+ String b0 e]> c))).
Proof.
  intros Hb0 He. unfold linkTail. rewrite run_seq, run_opt, run_group, run_seq.
  rewrite run_lit_app, run_seq. cbn [pos rest caps String.length].
  rewrite str_app_cons, run_class, Hb0. rewrite run_star. cbn [pos rest caps].
  change (")" +:+ post) with (String ")" post).
  erewrite star_greedy_stop; [done|done|done|].
  cbn [pos rest caps]. rewrite decide_False by lia.
  rewrite run_group. cbn [pos rest caps].
  change (String ")" post) with (")" +:+ post).
  rewrite run_linkSuffix_paren. cbn [pos rest caps]. f_equal. f_equal.
  assert (E2 : Str.take (S (j + 1) + String.length e - j)
                 ("." +:+ String b0 (e +:+ ")" +:+ post))
               = "." +:+ String b0 e).
  { replace (S (j + 1) + String.length e - j)%nat
      with (String.length ("." +:+ String b0 e)) by (simpl; lia).
    change ("." +:+ String b0 (e +:+ ")" +:+ post))
      with (("." +:+ String b0 e) +:+ ")" +:+ post).
    apply take_app_length. }
  assert (E3 : Str.take (S (j + 1) + String.length e + 1
                         - (S (j + 1) + String.length e)) (")" +:+ post) = ")").
  { replace (S (j + 1) + String.length e + 1 - (S (j + 1) + String.length e))%nat
      with 1%nat by lia. done. }
  by rewrite E2, E3.
Qed.

(** The resource-link pattern on [_resources/stem.e)]: the file name is the
    first two groups together. *)
Lemma resourceLinkReg_closed i stem e post :
  Str.all digitOrUpper stem = true → stem ≠ "" →
  Str.all alphanumeric e = true → e ≠ "" →
  ∃ res,
    exec false resourceLinkReg i
      ("_resources/" +:+ stem +:+ "." +:+ e +:+ ")" +:+ post) = Some res ∧
    pos res = (i + String.length ("_resources/" +:+ stem +:+ "." +:+ e +:+ ")"))%nat ∧
    caps res !! 1%nat = Some stem ∧
    caps res !! 2%nat = Some ("." +:+ e) ∧
    caps res !! 3%nat = Some ")".
Proof.
  intros Hstem Hne He Hnee.
  destruct stem as [|a0 stem]; [done|]. destruct e as [|b0 e]; [done|].
  apply andb_prop in Hstem as [Ha0 Hstem]. apply andb_prop in He as [Hb0 He].
  unfold exec, resourceLinkReg. fold linkSuffix. fold linkTail.
  rewrite run_seq, run_lit_app. rewrite run_seq, run_group, run_seq.
  cbn [pos rest caps]. rewrite str_app_cons, run_class.
  rewrite (digitOrUpper_nameChar _ Ha0). rewrite run_star. cbn [pos rest caps].
  rewrite (star_lazy_skip digitOrUpper).
  2: { intros i' x s' Hx. cbn [pos rest caps]. by apply linkTail_None. }
  2: { eapply all_impl; [apply digitOrUpper_nameChar|done]. }
  2: { done. }
  eexists. split.
  - apply star_lazy_stop. cbn [pos rest caps]. by apply linkTail_closed.
  - cbn [pos caps]. split; [|split; [|split]].
    + rewrite !str_length_app. simpl. rewrite ?str_length_app. simpl. lia.
    + rewrite !lookup_insert_ne by done. rewrite lookup_insert_eq. f_equal.
      replace (S (i + String.length "_resources/") + String.length stem
               - (i + String.length "_resources/"))%nat
        with (String.length (String a0 stem)) by (simpl; lia).
      change (String a0 (stem +:+ "." +:+ String b0 e +:+ ")" +:+ post))
        with (String a0 stem +:+ "." +:+ String b0 e +:+ ")" +:+ post).
      apply take_app_length.
    + rewrite lookup_insert_ne by done. by rewrite lookup_insert_eq.
    + by rewrite lookup_insert_eq.
Qed.

Lemma exec_underscore_ne r i x s :
  Str.isnt "_" x = true →
  exec false (Lit "_resources/" ⋅ r) i (String x s) = None.
Proof.
  intros H. apply run_lit_head_ne. rewrite !canon_false. by apply isnt_ne.
Qed.

Lemma resourceLinkReplacer_known currentNoteResourceMap m stem ext suffix final :
  m_caps m !! 1%nat = Some stem → m_caps m !! 2%nat = Some ext →
  m_caps m !! 3%nat = Some suffix →
  currentNoteResourceMap !! (stem +:+ ext) = Some final →
  resourceLinkReplacer currentNoteResourceMap m
  = "_resources/" +:+ final +:+ suffix.
Proof.
  intros H1 H2 H3 Hmap. unfold resourceLinkReplacer, group.
  rewrite H1, H2, H3. cbn [default from_option id]. by rewrite Hmap.
Qed.

(** The resource-link step on a text with one closed reference. *)
Lemma replace_resourceLink_closed currentNoteResourceMap pre stem e final post :
  Str.all (Str.isnt "_") pre = true → Str.all (Str.isnt "_") post = true →
  Str.all digitOrUpper stem = true → stem ≠ "" →
  Str.all alphanumeric e = true → e ≠ "" →
  currentNoteResourceMap !! (stem +:+ "." +:+ e) = Some final →
  replace false resourceLinkReg (resourceLinkReplacer currentNoteResourceMap)
    (pre +:+ "_resources/" +:+ stem +:+ "." +:+ e +:+ ")" +:+ post)
  = pre +:+ "_resources/" +:+ final +:+ ")" +:+ post.
Proof.
  intros Hpre Hpost Hstem Hne He Hnee Hmap. unfold replace, replaceWith.
  rewrite (replaceFrom_copy (Str.isnt "_")); [| |done].
  2: { intros. by apply exec_underscore_ne. }
  destruct (resourceLinkReg_closed (0 + String.length pre) stem e post
              Hstem Hne He Hnee) as (res & Hexec & Hpos & H1 & H2 & H3).
  assert (E : "_resources/" +:+ stem +:+ "." +:+ e +:+ ")" +:+ post
              = ("_resources/" +:+ stem +:+ "." +:+ e +:+ ")") +:+ post).
  { change ("_resources/" +:+ stem +:+ "." +:+ e +:+ ")" +:+ post)
      with ("_resources/" +:+ (stem +:+ "." +:+ e +:+ ")" +:+ post)).
    change ("_resources/" +:+ stem +:+ "." +:+ e +:+ ")")
      with ("_resources/" +:+ (stem +:+ "." +:+ e +:+ ")")).
    by rewrite !str_app_assoc. }
  rewrite E in Hexec |- *.
  erewrite (replaceFrom_match false _ _ _
              ("_resources/" +:+ stem +:+ "." +:+ e +:+ ")"));
    [|exact Hexec|exact Hpos|done].
  rewrite (resourceLinkReplacer_known _ _ stem ("." +:+ e) ")" final)
    by done.
  rewrite (replaceFrom_no_match (Str.isnt "_")); [| | |done].
  2: { intros. by apply exec_underscore_ne. }
  2: { intros. done. }
  cbn [fst]. by rewrite !str_app_assoc.
Qed.

(** No [(] of the text is followed by [q]. *)
Fixpoint parenQFree (s : string) : bool :=
  match s with
  | "" => true
  | String a s' =>
      negb (bool_decide (a = "("%char)
            && match s' with
               | String b _ => bool_decide (b = "q"%char)
               | "" => false
               end)
      && parenQFree s'
  end.

Lemma parenQFree_tail a s : parenQFree (String a s) = true → parenQFree s = true.
Proof. simpl. by intros [_ ?]%andb_prop. Qed.

Lemma parenQFree_app s1 s2 :
  Str.all (Str.isnt "(") s1 = true → parenQFree (s1 +:+ s2) = parenQFree s2.
Proof.
  induction s1 as [|a s1 IH]; [done|]. rewrite str_app_cons.
  cbn [Str.all parenQFree]. intros [Ha Hs1]%andb_prop. rewrite IH by done.
  apply isnt_ne in Ha. by rewrite bool_decide_eq_false_2.
Qed.

Lemma parenQFree_all s : Str.all (Str.isnt "(") s = true → parenQFree s = true.
Proof. intros H. rewrite <- (str_app_nil_r s). by rewrite parenQFree_app. Qed.

(** What follows [[.*?] in the pattern of the note links needs [](q]. *)
Lemma noteLink_target_None r u i c k :
  parenQFree u = true →
  run false
    (Lit "](" ⋅ Group 1 (Alt (Lit "quiver-note-url") (Lit "quiver:///notes")) ⋅ r)
    (mkState i u c) k = None.
Proof.
  intros Hu. rewrite run_seq, run_lit.
  destruct u as [|a [|b u]]; cbn [stripLit]; [done|by case_decide|].
  rewrite !canon_false. case_decide as Ha; [|done]. case_decide as Hb; [|done].
  subst a b. apply parenQFree_tail in Hu. cbn [parenQFree] in Hu.
  rewrite run_seq, run_group, run_alt, !run_lit. cbn [pos rest caps].
  destruct u as [|x u]; [done|]. cbn [stripLit]. rewrite !canon_false.
  apply andb_prop in Hu as [Hx _].
  rewrite bool_decide_eq_true_2 in Hx by done. cbn [andb] in Hx.
  apply negb_true_iff, bool_decide_eq_false in Hx.
  by rewrite !decide_False by congruence.
Qed.

(** [c*] and [c*?] fail when the rest of the pattern fails on every end of
    the input. *)
Lemma star_None_ends (P : string → bool) greedy p c (k : cont) :
  (∀ a s, P (String a s) = true → P s = true) →
  (∀ i s, P s = true → k (mkState i s c) = None) →
  ∀ s i, P s = true → star greedy p i s c k = None.
Proof.
  intros Htail Hk. induction s as [|a s IH]; intros i Hs; cbn [star].
  - by apply Hk.
  - rewrite (Hk _ _ Hs), (IH _ (Htail _ _ Hs)). by destruct greedy, (p a).
Qed.

(** No note link is found in a text where no [(] is followed by [q]. *)
Lemma replaceNoteLinks_parenQFree record note s brokenLinks :
  parenQFree s = true →
  replaceNoteLinks record note s brokenLinks = (s, brokenLinks).
Proof.
  intros Hs. unfold replaceNoteLinks, replaceWith.
  apply (replaceFrom_ends parenQFree); [apply parenQFree_tail| |done].
  intros i u Hu. unfold exec, noteLinkReg.
  rewrite run_seq, run_lit. destruct (stripLit false "[" u) as [u'|] eqn:E; [|done].
  destruct u as [|a u]; [done|]. cbn [stripLit] in E. case_decide; [|done].
  injection E as ->. rewrite run_seq, run_star. cbn [pos rest caps].
  apply (star_None_ends parenQFree); [apply parenQFree_tail| |by eapply parenQFree_tail].
  intros j t Ht. by apply noteLink_target_None.
Qed.

(** X17. With no extension names configured, a reference
    [(quiver-image-url/stem.e)] to the resource file [stem.e] ([stem] made
    of characters of [[0-9A-Z]], [e] alphanumeric) that has a final name in
    the resource map is rewritten to [(_resources/final)]; the text before
    it, without [q], [(] and [_], and the text after it, without [(], [_],
    [.] and [/], are kept, and no broken link is recorded.  So the Markdown
    image [![alt](quiver-image-url/stem.e)] becomes
    [![alt](_resources/final)]. *)
Theorem image_link_final_name currentNoteResourceMap newNotePathRecord note
    brokenLinks pre stem e final post :
  Str.all textBefore pre = true → Str.all textAfter post = true →
  Str.all digitOrUpper stem = true → stem ≠ "" →
  Str.all alphanumeric e = true → e ≠ "" →
  currentNoteResourceMap !! (stem +:+ "." +:+ e) = Some final →
  Str.all (Str.isnt "(") final = true →
  transformQuiverResourceAndNoteLink [] currentNoteResourceMap newNotePathRecord
    (pre +:+ "(quiver-image-url/" +:+ stem +:+ "." +:+ e +:+ ")" +:+ post)
    note brokenLinks
  = (pre +:+ "(_resources/" +:+ final +:+ ")" +:+ post, brokenLinks).
Proof.
  intros Hpre Hpost Hstem Hne He Hnee Hmap Hfinal.
  unfold transformQuiverResourceAndNoteLink. cbv zeta.
  assert (Hext_slash : Str.all (Str.isnt "/") ("." +:+ e +:+ ")" +:+ post)
                       = true).
  { change ("." +:+ e +:+ ")" +:+ post) with (String "." (e +:+ ")" +:+ post)).
    cbn [Str.all]. rewrite !all_app.
    rewrite (all_impl alphanumeric (Str.isnt "/") e)
      by (apply alphanumeric_slash || done).
    by rewrite (all_impl textAfter (Str.isnt "/") post)
      by (apply textAfter_slash || done). }
  assert (Htail_slash : Str.all (Str.isnt "/")
                          (stem +:+ "." +:+ e +:+ ")" +:+ post) = true).
  { rewrite all_app, Hext_slash.
    by rewrite (all_impl digitOrUpper (Str.isnt "/") stem)
      by (apply digitOrUpper_slash || done). }
  set (tail := stem +:+ "." +:+ e +:+ ")" +:+ post) in *.
  (* the image scheme *)
  assert (H1 : replace false (Lit "quiver-image-url/") (λ _, "_resources/")
                 (pre +:+ "(quiver-image-url/" +:+ tail)
               = (pre +:+ "(") +:+ "_resources/" +:+ tail).
  { assert (E : pre +:+ "(quiver-image-url/" +:+ tail
                = (pre +:+ "(") +:+ "quiver-image-url/" +:+ tail)
      by (by rewrite str_app_assoc).
    rewrite E. apply (replace_literal_once (Str.isnt "/")); [by vm_compute| |done].
    rewrite all_app.
    by rewrite (all_impl textBefore (Str.isnt "q") pre)
      by (apply textBefore_q || done). }
  rewrite H1.
  (* the file scheme *)
  assert (H2 : replace false (Lit "quiver-file-url/") (λ _, "_resources/")
                 ((pre +:+ "(") +:+ "_resources/" +:+ tail)
               = (pre +:+ "(") +:+ "_resources/" +:+ tail).
  { assert (E : (pre +:+ "(") +:+ "_resources/" +:+ tail
                = ((pre +:+ "(") +:+ "_resources/" +:+ stem)
                    +:+ "." +:+ e +:+ ")" +:+ post).
    { subst tail. by rewrite (str_app_assoc (pre +:+ "(")). }
    rewrite E. apply (replace_literal_none (Str.isnt "/")); [by vm_compute| |done].
    rewrite !all_app.
    rewrite (all_impl textBefore (Str.isnt "q") pre)
      by (apply textBefore_q || done).
    cbn [String.append Str.all].
    by rewrite (all_impl digitOrUpper (Str.isnt "q") stem)
      by (apply digitOrUpper_q || done). }
  rewrite H2.
  (* the resource-name rules *)
  assert (E3 : (pre +:+ "(") +:+ "_resources/" +:+ tail
               = pre +:+ "(" +:+ "_resources/" +:+ stem +:+ "." +:+ e
                   +:+ ")" +:+ post)
    by (by rewrite str_app_assoc).
  rewrite E3. rewrite replaceResourceName_content_closed; [|..|done|done|].
  2: { eapply all_impl; [apply textBefore_paren|done]. }
  2: { eapply all_impl; [|exact Hpost]. intros x Hx.
       by rewrite (textAfter_paren _ Hx), (textAfter_dot _ Hx). }
  (* the final name *)
  assert (E4 : pre +:+ "(" +:+ "_resources/" +:+ stem +:+ "." +:+ e
                 +:+ ")" +:+ post
               = (pre +:+ "(") +:+ "_resources/" +:+ stem +:+ "." +:+ e
                   +:+ ")" +:+ post)
    by (by rewrite str_app_assoc).
  rewrite E4. rewrite (replace_resourceLink_closed _ _ _ _ final); [|..|done].
  2: { rewrite all_app.
       by rewrite (all_impl textBefore (Str.isnt "_") pre)
         by (apply textBefore_underscore || done). }
  2: { eapply all_impl; [apply textAfter_underscore|done]. }
  2-5: done.
  (* the note links *)
  assert (E5 : (pre +:+ "(") +:+ "_resources/" +:+ final +:+ ")" +:+ post
               = pre +:+ "(_resources/" +:+ final +:+ ")" +:+ post)
    by (by rewrite str_app_assoc).
  rewrite E5. apply replaceNoteLinks_parenQFree.
  rewrite parenQFree_app by (eapply all_impl; [apply textBefore_paren|done]).
  assert (E6 : parenQFree ("(_resources/" +:+ final +:+ ")" +:+ post)
               = parenQFree (final +:+ ")" +:+ post)) by reflexivity.
  rewrite E6. apply parenQFree_all. rewrite !all_app, Hfinal.
  by rewrite (all_impl textAfter (Str.isnt "(") post) by (apply textAfter_paren || done).
Qed.

Lemma image_link_final_name_witness :
  transformQuiverResourceAndNoteLink []
    {[ "2F5A1C0E.png" := "2F5A1C0E_1.png" ]} ∅
    "![shot](quiver-image-url/2F5A1C0E.png) done" (mkNote "1" "t") []
  = ("![shot](_resources/2F5A1C0E_1.png) done", []).
Proof.
  apply (image_link_final_name {[ "2F5A1C0E.png" := "2F5A1C0E_1.png" ]} ∅
           (mkNote "1" "t") [] "![shot]" "2F5A1C0E" "png" "2F5A1C0E_1.png"
           " done"); try reflexivity; done.
Defined.
